(** * hamarc: a Hamming-protected file archiver

    Shallow embedding of the Hamming codec (class [HammingCodec],
    src/unnamed/part_001) and of the archive engine (class [Archiver],
    src/unnamed/part_003), followed by the properties that the specification
    states about them. *)

From Stdlib Require Import ZArith Lia List Bool.
From Stdlib.Strings Require Import Byte Ascii.
From stdpp Require Import gmap strings list fin_maps pretty.

Open Scope Z_scope.

(** ** Machine integers

    [std::uint32_t], [std::uint64_t] and [unsigned char] values are integers
    of [Z] reduced modulo the width of the type.  The [int] counters of the
    codec (bit positions, bit counts) stay below 32 and never wrap. *)

Definition u8 (z : Z) : Z := z mod 2 ^ 8.
Definition u32 (z : Z) : Z := z mod 2 ^ 32.
Definition u64 (z : Z) : Z := z mod 2 ^ 64.

(** [static_cast<int>(z)] of a 64-bit unsigned value *)
Definition s32 (z : Z) : Z :=
  let m := z mod 2 ^ 32 in if m <? 2 ^ 31 then m else m - 2 ^ 32.

(** [1u << i] *)
Definition shl1 (i : Z) : Z := u32 (Z.shiftl 1 i).

(** [for (int i = start; i < start + len; ++i) s = body i s;] *)
Fixpoint for_range {S : Type} (len : nat) (i : Z) (body : Z -> S -> S) (s : S) : S :=
  match len with
  | O => s
  | Datatypes.S len' => for_range len' (i + 1) body (body i s)
  end.

(** [for (int p = start; p <= total; p <<= 1) { if (p > total) break; s = body p s; }]
    The loop leaves by its own condition after at most [total] rounds, which
    is the fuel the callers pass (see [doubling_loop_fuel]). *)
Fixpoint doubling_loop {S : Type} (fuel : nat) (p total : Z) (body : Z -> S -> S) (s : S) : S :=
  match fuel with
  | O => s
  | Datatypes.S fuel' =>
      if p <=? total then
        if p >? total then s
        else doubling_loop fuel' (Z.shiftl p 1) total body (body p s)
      else s
  end.

(** ** HammingCodec: block level *)

(** Modelled from the spec: hamming_options.h is not among the sources.
    The data model gives HammingOptions as the two integers
    [(data_bits k, parity_bits r)]; the codec reads them as [opts.data_bits]
    and [opts.parity_bits]. *)
Record HammingOptions := { opt_data_bits : Z; opt_parity_bits : Z }.

(** The checks of the command line (parse_args.cpp) on [-D] and [-P]. *)
Definition ValidateHammingDataBits (value : Z) : bool := (0 <? value) && (value <=? 16).

Definition ValidateHammingParityBits (value : Z) : bool := (0 <? value) && (value <=? 8).

Record HammingCodec := {
  data_bits_ : Z;
  parity_bits_ : Z;
  total_bits_ : Z
}.

Definition mkHammingCodec (opts : HammingOptions) : HammingCodec :=
  {| data_bits_ := opt_data_bits opts;
     parity_bits_ := opt_parity_bits opts;
     total_bits_ := opt_data_bits opts + opt_parity_bits opts |}.

Definition codec (k r : Z) : HammingCodec :=
  mkHammingCodec {| opt_data_bits := k; opt_parity_bits := r |}.

Definition is_parity_position (bit_position : Z) : bool :=
  Z.land bit_position (bit_position - 1) =? 0.

(** The inner loop shared by [CalculateSyndrome] and [EncodeBlock]: the
    XOR of the codeword bits at the positions covered by [parity_position]. *)
Definition parity_step (codeword parity_position bit_index parity_value : Z) : Z :=
  if negb (Z.land bit_index parity_position =? 0) then
    if negb (Z.land codeword (shl1 (bit_index - 1)) =? 0)
    then Z.lxor parity_value 1
    else parity_value
  else parity_value.

Definition covered_parity (codeword total_bits parity_position : Z) : Z :=
  for_range (Z.to_nat total_bits) 1 (parity_step codeword parity_position) 0.

Definition CalculateSyndrome (codeword total_bits : Z) : Z :=
  doubling_loop (Z.to_nat total_bits) 1 total_bits
    (fun parity_position syndrome =>
       if negb (covered_parity codeword total_bits parity_position =? 0)
       then Z.lor syndrome parity_position
       else syndrome)
    0.

(** State of the loop of [ExtractDataBits]: [(data_value, data_index)]. *)
Definition extract_step (codeword bit_position : Z) (st : Z * Z) : Z * Z :=
  let '(data_value, data_index) := st in
  if is_parity_position bit_position then st
  else
    let bit_value := Z.land (Z.shiftr codeword (bit_position - 1)) 1 in
    ((if negb (bit_value =? 0) then Z.lor data_value (shl1 data_index) else data_value),
     data_index + 1).

Definition ExtractDataBits (codeword total_bits : Z) : Z :=
  fst (for_range (Z.to_nat total_bits) 1 (extract_step codeword) (0, 0)).

(** State of the first loop of [EncodeBlock]: [(codeword, data_index)]. *)
Definition place_step (data_value bit_position : Z) (st : Z * Z) : Z * Z :=
  let '(codeword, data_index) := st in
  if is_parity_position bit_position then st
  else
    let bit_value := Z.land (Z.shiftr data_value data_index) 1 in
    ((if negb (bit_value =? 0) then Z.lor codeword (shl1 (bit_position - 1)) else codeword),
     data_index + 1).

Definition place_data (data_value total_bits : Z) : Z :=
  fst (for_range (Z.to_nat total_bits) 1 (place_step data_value) (0, 0)).

Definition fill_parity_step (total_bits parity_position codeword : Z) : Z :=
  if negb (covered_parity codeword total_bits parity_position =? 0)
  then Z.lor codeword (shl1 (parity_position - 1))
  else codeword.

Definition EncodeBlock (c : HammingCodec) (data_value : Z) : Z :=
  let codeword := place_data data_value (total_bits_ c) in
  doubling_loop (Z.to_nat (total_bits_ c)) 1 (total_bits_ c)
    (fill_parity_step (total_bits_ c)) codeword.

Definition DecodeBlock (c : HammingCodec) (codeword : Z) : Z * bool :=
  let syndrome := CalculateSyndrome codeword (total_bits_ c) in
  let '(codeword1, has_error1) :=
    if negb (syndrome =? 0) then
      if syndrome <=? total_bits_ c
      then (Z.lxor codeword (shl1 (syndrome - 1)), false)
      else (codeword, true)
    else (codeword, false) in
  let has_error2 :=
    if negb has_error1 then
      if negb (CalculateSyndrome codeword1 (total_bits_ c) =? 0) then true else has_error1
    else has_error1 in
  let data_value := if negb has_error2 then ExtractDataBits codeword1 (total_bits_ c) else 0 in
  (data_value, has_error2).

(** ** Streams

    An input stream is the byte sequence behind it, a read position and the
    [eofbit] and [failbit] flags; a read fails only where the bytes end.
    An output stream is the bytes it has taken since it was opened.  It
    keeps them in a buffer of [stream_buffer] bytes, hands the buffer to the
    device when a byte fills it, and hands over what is left when it is
    closed.  [o_room = Some m] says that the device had room for [m] more
    bytes when the stream was opened, [None] that it takes every byte.  So a
    write error shows when a full buffer no longer fits on the device, and
    not before: a stream that was given less than a buffer of bytes is good
    whatever the device holds. *)

#[global] Instance byte_eqdec : EqDecision byte := Byte.byte_eq_dec.

Definition byte_to_Z (b : byte) : Z := Z.of_N (Byte.to_N b).

(** [static_cast<char>(out_byte)] *)
Definition byte_of_Z (z : Z) : byte := default x00 (Byte.of_N (Z.to_N (u8 z))).

Record istream := {
  i_data : list byte;
  i_pos : nat;
  i_eof : bool;
  i_fail : bool
}.

Definition i_good (s : istream) : bool := negb (i_eof s) && negb (i_fail s).

(** [in.read(&b, 1)] *)
Definition read_byte (s : istream) : option byte * istream :=
  if negb (i_good s) then
    (None, {| i_data := i_data s; i_pos := i_pos s; i_eof := i_eof s; i_fail := true |})
  else
    match i_data s !! i_pos s with
    | Some b =>
        (Some b, {| i_data := i_data s; i_pos := Datatypes.S (i_pos s);
                    i_eof := false; i_fail := false |})
    | None =>
        (None, {| i_data := i_data s; i_pos := i_pos s; i_eof := true; i_fail := true |})
    end.

Record ostream := {
  o_data : list byte;
  o_room : option nat;
  o_fail : bool
}.

Definition o_good (s : ostream) : bool := negb (o_fail s).

(** The size of the buffer of an output stream: [BUFSIZ] bytes. *)
Definition stream_buffer : nat := Z.to_nat 8192.

(** [out.put(b)]: the byte goes into the buffer; when it is the byte that
    fills the buffer, the buffer goes to the device, and the stream is bad
    when the device has no room for it. *)
Definition put (b : byte) (s : ostream) : ostream :=
  if o_fail s then s
  else
    match o_room s with
    | None => {| o_data := o_data s ++ [b]; o_room := None; o_fail := false |}
    | Some m =>
        let taken := Datatypes.S (length (o_data s)) in
        if (taken mod stream_buffer =? 0)%nat && (m <? taken)%nat
        then {| o_data := o_data s; o_room := Some m; o_fail := true |}
        else {| o_data := o_data s ++ [b]; o_room := Some m; o_fail := false |}
    end.

(** [out.write(buf, n)]: the bytes are taken one after the other. *)
Definition write_bytes (bs : list byte) (s : ostream) : ostream :=
  fold_left (fun s b => put b s) bs s.

(** ** HammingCodec: stream level *)

(** The pending output byte, the number of bits in it, and the stream. *)
Record bit_writer := {
  w_byte : Z;
  w_count : Z;
  w_out : ostream
}.

Definition WriteDecodedBitToStream (bit_value : Z) (w : bit_writer) : bool * bit_writer :=
  let out_byte :=
    if negb (bit_value =? 0) then u8 (Z.lor (w_byte w) (shl1 (w_count w))) else w_byte w in
  let out_bit_fill := w_count w + 1 in
  if negb (out_bit_fill =? 8) then
    (true, {| w_byte := out_byte; w_count := out_bit_fill; w_out := w_out w |})
  else
    let out := put (byte_of_Z out_byte) (w_out w) in
    if negb (o_good out) then
      (false, {| w_byte := out_byte; w_count := out_bit_fill; w_out := out |})
    else (true, {| w_byte := 0; w_count := 0; w_out := out |}).

(** The loop of [EncodeAndWriteBlock] over the bits of the codeword. *)
Fixpoint write_code_bits (len : nat) (bit_index codeword : Z) (w : bit_writer)
  : bool * bit_writer :=
  match len with
  | O => (true, w)
  | Datatypes.S len' =>
      let code_bit := Z.land (Z.shiftr codeword bit_index) 1 in
      let out_byte :=
        if negb (code_bit =? 0) then u8 (Z.lor (w_byte w) (shl1 (w_count w))) else w_byte w in
      let out_bit_count := w_count w + 1 in
      if negb (out_bit_count =? 8) then
        write_code_bits len' (bit_index + 1) codeword
          {| w_byte := out_byte; w_count := out_bit_count; w_out := w_out w |}
      else
        let out := put (byte_of_Z out_byte) (w_out w) in
        if negb (o_good out) then
          (false, {| w_byte := out_byte; w_count := out_bit_count; w_out := out |})
        else
          write_code_bits len' (bit_index + 1) codeword
            {| w_byte := 0; w_count := 0; w_out := out |}
  end.

Definition EncodeAndWriteBlock (c : HammingCodec) (data_block : Z) (w : bit_writer)
  : bool * bit_writer :=
  let codeword := EncodeBlock c data_block in
  write_code_bits (Z.to_nat (total_bits_ c)) 0 codeword w.

Definition FlushOutputByte (w : bit_writer) : bool * ostream :=
  if w_count w =? 0 then (true, w_out w)
  else
    let out := put (byte_of_Z (w_byte w)) (w_out w) in
    (o_good out, out).

(** Local variables of [EncodeStream]. *)
Record enc_state := {
  e_block : Z;
  e_block_bits : Z;
  e_w : bit_writer
}.

(** The loop of [EncodeStream] over the eight bits of one input byte. *)
Fixpoint encode_byte_bits (c : HammingCodec) (len : nat) (bit_index input_byte : Z)
    (st : enc_state) : bool * enc_state :=
  match len with
  | O => (true, st)
  | Datatypes.S len' =>
      let bit_value := Z.land (Z.shiftr input_byte bit_index) 1 in
      let data_block :=
        if negb (bit_value =? 0) then Z.lor (e_block st) (shl1 (e_block_bits st))
        else e_block st in
      let data_block_bits := e_block_bits st + 1 in
      if data_block_bits =? data_bits_ c then
        let '(ok, w) := EncodeAndWriteBlock c data_block (e_w st) in
        if negb ok then
          (false, {| e_block := data_block; e_block_bits := data_block_bits; e_w := w |})
        else
          encode_byte_bits c len' (bit_index + 1) input_byte
            {| e_block := 0; e_block_bits := 0; e_w := w |}
      else
        encode_byte_bits c len' (bit_index + 1) input_byte
          {| e_block := data_block; e_block_bits := data_block_bits; e_w := e_w st |}
  end.

(** [while (in.read(&input_byte, 1)) { ... }]: every successful read takes
    one of the unread bytes; the result counts the bytes taken. *)
Fixpoint encode_loop (c : HammingCodec) (unread : list byte) (taken : nat) (st : enc_state)
  : bool * nat * enc_state :=
  match unread with
  | [] => (true, taken, st)
  | input_byte :: rest =>
      let '(ok, st') := encode_byte_bits c 8 0 (byte_to_Z input_byte) st in
      if negb ok then (false, Datatypes.S taken, st')
      else encode_loop c rest (Datatypes.S taken) st'
  end.

Definition EncodeStream (c : HammingCodec) (ins : istream) (out : ostream)
  : bool * istream * ostream :=
  if negb (i_good ins) || negb (o_good out) then (false, ins, out)
  else
    let st0 := {| e_block := 0; e_block_bits := 0;
                  e_w := {| w_byte := 0; w_count := 0; w_out := out |} |} in
    let '(ok, taken, st) := encode_loop c (drop (i_pos ins) (i_data ins)) 0 st0 in
    if negb ok then
      (false,
       {| i_data := i_data ins; i_pos := (i_pos ins + taken)%nat;
          i_eof := false; i_fail := false |},
       w_out (e_w st))
    else
      (* the read that ended the loop found no byte *)
      let ins' := {| i_data := i_data ins; i_pos := (i_pos ins + taken)%nat;
                     i_eof := true; i_fail := true |} in
      if negb (i_eof ins') then (false, ins', w_out (e_w st))
      else if 0 <? e_block_bits st then
        let '(ok2, w) := EncodeAndWriteBlock c (e_block st) (e_w st) in
        if negb ok2 then (false, ins', w_out w)
        else let '(ok3, out') := FlushOutputByte w in (ok3, ins', out')
      else
        let '(ok3, out') := FlushOutputByte (e_w st) in (ok3, ins', out').

(** The pending input byte and the number of unread bits in it. *)
Record bit_reader := {
  r_in : istream;
  r_byte : Z;
  r_avail : Z
}.

Definition ReadNextEncodedBit (rd : bit_reader) : bool * bit_reader * Z :=
  let fetched :=
    if r_avail rd =? 0 then
      match read_byte (r_in rd) with
      | (Some b, ins') => (true, {| r_in := ins'; r_byte := byte_to_Z b; r_avail := 8 |})
      | (None, ins') => (false, {| r_in := ins'; r_byte := r_byte rd; r_avail := r_avail rd |})
      end
    else (true, rd) in
  let '(ok, rd1) := fetched in
  if negb ok then (false, rd1, 0)
  else
    (true,
     {| r_in := r_in rd1; r_byte := Z.shiftr (r_byte rd1) 1; r_avail := r_avail rd1 - 1 |},
     Z.land (r_byte rd1) 1).

(** The loop of [DecodeStream] that writes the data bits of one block. *)
Fixpoint write_data_bits (len : nat) (bit_index decoded_data : Z) (w : bit_writer)
  : bool * bit_writer :=
  match len with
  | O => (true, w)
  | Datatypes.S len' =>
      let data_bit_value := Z.land (Z.shiftr decoded_data bit_index) 1 in
      let '(ok, w') := WriteDecodedBitToStream data_bit_value w in
      if negb ok then (false, w')
      else write_data_bits len' (bit_index + 1) decoded_data w'
  end.

(** Local variables of [DecodeStream]. *)
Record dec_state := {
  d_rd : bit_reader;
  d_codeword : Z;
  d_collected : Z;
  d_w : bit_writer;
  d_bits_written : Z
}.

(** [while (bits_read < total_code_bits)]: [bits_read] grows by one in every
    round, so the loop runs [total_code_bits] rounds unless it returns. *)
Fixpoint decode_loop (c : HammingCodec) (original_bits : Z) (rounds : nat) (st : dec_state)
  : bool * dec_state :=
  match rounds with
  | O => (true, st)
  | Datatypes.S rounds' =>
      let '(ok, rd, encoded_bit) := ReadNextEncodedBit (d_rd st) in
      if negb ok then
        (false, {| d_rd := rd; d_codeword := d_codeword st; d_collected := d_collected st;
                   d_w := d_w st; d_bits_written := d_bits_written st |})
      else
        let codeword_value :=
          if negb (encoded_bit =? 0) then Z.lor (d_codeword st) (shl1 (d_collected st))
          else d_codeword st in
        let collected := d_collected st + 1 in
        if negb (collected =? total_bits_ c) then
          decode_loop c original_bits rounds'
            {| d_rd := rd; d_codeword := codeword_value; d_collected := collected;
               d_w := d_w st; d_bits_written := d_bits_written st |}
        else
          let '(decoded_data, has_error) := DecodeBlock c codeword_value in
          if has_error then
            (false, {| d_rd := rd; d_codeword := codeword_value; d_collected := collected;
                       d_w := d_w st; d_bits_written := d_bits_written st |})
          else
            let bits_to_output :=
              if u64 (d_bits_written st + data_bits_ c) >? original_bits
              then s32 (u64 (original_bits - d_bits_written st))
              else data_bits_ c in
            let '(okw, w) := write_data_bits (Z.to_nat bits_to_output) 0 decoded_data (d_w st) in
            if negb okw then
              (false, {| d_rd := rd; d_codeword := codeword_value; d_collected := collected;
                         d_w := w; d_bits_written := d_bits_written st |})
            else
              decode_loop c original_bits rounds'
                {| d_rd := rd; d_codeword := 0; d_collected := 0; d_w := w;
                   d_bits_written := u64 (d_bits_written st + bits_to_output) |}
  end.

Definition DecodeStream (c : HammingCodec) (ins : istream) (out : ostream)
    (original_size encoded_size : Z) : bool * istream * ostream :=
  if negb (i_good ins) || negb (o_good out) then (false, ins, out)
  else
    let original_bits := u64 (original_size * 8) in
    if original_bits =? 0 then (true, ins, out)
    else
      let data_bits_u64 := u64 (data_bits_ c) in
      let codeword_bits := u64 (total_bits_ c) in
      let codeword_count := u64 (original_bits + data_bits_u64 - 1) / data_bits_u64 in
      let total_code_bits := u64 (codeword_count * codeword_bits) in
      let st0 := {| d_rd := {| r_in := ins; r_byte := 0; r_avail := 0 |};
                    d_codeword := 0; d_collected := 0;
                    d_w := {| w_byte := 0; w_count := 0; w_out := out |};
                    d_bits_written := 0 |} in
      let '(ok, st) := decode_loop c original_bits (Z.to_nat total_code_bits) st0 in
      if negb ok then (false, r_in (d_rd st), w_out (d_w st))
      else let '(ok2, out') := FlushOutputByte (d_w st) in (ok2, r_in (d_rd st), out').

(** Streams over a byte sequence held in memory. *)
Definition istream_of (bs : list byte) : istream :=
  {| i_data := bs; i_pos := O; i_eof := false; i_fail := false |}.

Definition empty_ostream : ostream :=
  {| o_data := []; o_room := None; o_fail := false |}.

Definition encode (k r : Z) (bs : list byte) : bool * list byte :=
  let '(ok, _, out) := EncodeStream (codec k r) (istream_of bs) empty_ostream in
  (ok, o_data out).

Definition decode (k r : Z) (bs : list byte) (original_size : Z) : bool * list byte :=
  let '(ok, _, out) :=
    DecodeStream (codec k r) (istream_of bs) empty_ostream original_size
      (Z.of_nat (length bs)) in
  (ok, o_data out).

(** ** The file system

    Paths are strings in generic format, without repeated separators and
    without NUL bytes (the system calls read a path up to its first NUL
    byte).  A path names a regular file with its bytes or a directory.
    [w_room] is the number of bytes the device still accepts ([None]: no
    limit); an open output file stream takes it over and gives back what is
    left when it is closed.  An input file stream reads the bytes the file
    had when it was opened.  Bytes written to an output file stream reach
    the file when the stream is closed or destroyed. *)

Inductive node :=
  | File (content : list byte)
  | Dir.

Record world := {
  w_files : gmap string node;
  w_room : option nat
}.

Definition with_files (w : world) (fs : gmap string node) : world :=
  {| w_files := fs; w_room := w_room w |}.

(** [(before, after)] the last ['/'] of a path. *)
Fixpoint split_last_slash (p : string) : option (string * string) :=
  match p with
  | EmptyString => None
  | String a rest =>
      match split_last_slash rest with
      | Some (pre, post) => Some (String a pre, post)
      | None => if Ascii.eqb a "/"%char then Some (EmptyString, rest) else None
      end
  end.

Definition filename (p : string) : string :=
  match split_last_slash p with
  | Some (_, post) => post
  | None => p
  end.

Definition parent_path (p : string) : string :=
  match split_last_slash p with
  | Some (pre, _) => if String.eqb pre "" then "/"%string else pre
  | None => ""%string
  end.

Definition has_parent_path (p : string) : bool := negb (String.eqb (parent_path p) "").

Definition fs_exists (w : world) (p : string) : bool := bool_decide (is_Some (w_files w !! p)).

Definition fs_is_directory (w : world) (p : string) : bool :=
  match w_files w !! p with
  | Some Dir => true
  | _ => false
  end.

(** [fs::file_size(p)]; the program asks it of regular files only. *)
Definition fs_file_size (w : world) (p : string) : Z :=
  match w_files w !! p with
  | Some (File content) => Z.of_nat (length content)
  | _ => 0
  end.

(** [fs::create_directories(p, ec)]: [false] stands for an error code. *)
Fixpoint mkdirs (fuel : nat) (p : string) (fs : gmap string node) : bool * gmap string node :=
  match fs !! p with
  | Some Dir => (true, fs)
  | Some (File _) => (false, fs)
  | None =>
      match fuel with
      | O => (false, fs)
      | Datatypes.S fuel' =>
          let '(ok, fs1) :=
            if has_parent_path p then mkdirs fuel' (parent_path p) fs else (true, fs) in
          if ok then (true, <[p := Dir]> fs1) else (false, fs1)
      end
  end.

Definition fs_create_directories (w : world) (p : string) : bool * world :=
  let '(ok, fs) := mkdirs (Datatypes.S (String.length p)) p (w_files w) in
  (ok, with_files w fs).

Definition dir_is_empty (fs : gmap string node) (p : string) : bool :=
  bool_decide (map_Forall (fun q _ => q = p \/ parent_path q <> p) fs).

(** [fs::remove(p, ec)] *)
Definition fs_remove (w : world) (p : string) : world :=
  match w_files w !! p with
  | Some (File _) => with_files w (delete p (w_files w))
  | Some Dir => if dir_is_empty (w_files w) p then with_files w (delete p (w_files w)) else w
  | None => w
  end.

(** [fs::rename(from, to, ec)]: [false] stands for an error code. *)
Definition fs_rename (w : world) (from to : string) : bool * world :=
  match w_files w !! from with
  | Some (File content) =>
      match w_files w !! to with
      | Some Dir => (false, w)
      | _ => (true, with_files w (<[to := File content]> (delete from (w_files w))))
      end
  | _ => (false, w)
  end.

(** [std::ifstream in(p, std::ios::binary)] *)
Definition open_ifstream (w : world) (p : string) : option istream :=
  match w_files w !! p with
  | Some (File content) =>
      Some {| i_data := content; i_pos := O; i_eof := false; i_fail := false |}
  | _ => None
  end.

(** [std::ofstream out(p, std::ios::binary | std::ios::trunc)] *)
Definition open_ofstream (w : world) (p : string) : option (ostream * world) :=
  match w_files w !! p with
  | Some Dir => None
  | _ =>
      if negb (has_parent_path p) || fs_is_directory w (parent_path p) then
        Some ({| o_data := []; o_room := w_room w; o_fail := false |},
              with_files w (<[p := File []]> (w_files w)))
      else None
  end.

(** The bytes of a stream that are in the file once the stream is closed:
    all of them when the device has room, else as many as it had room for. *)
Definition on_device (out : ostream) : list byte :=
  match o_room out with
  | None => o_data out
  | Some m => take m (o_data out)
  end.

(** The room that is left on the device then. *)
Definition room_left (out : ostream) : option nat :=
  match o_room out with
  | None => None
  | Some m => Some (m - length (o_data out))%nat
  end.

(** [out.close()], also the destructor of an open stream: what the buffer
    still holds goes to the device; nothing reports an error of this step. *)
Definition close_ofstream (w : world) (p : string) (out : ostream) : world :=
  {| w_files := <[p := File (on_device out)]> (w_files w); w_room := room_left out |}.

(** [in.seekg(off, std::ios::beg)] *)
Definition seekg (off : Z) (s : istream) : istream :=
  if i_fail s then
    {| i_data := i_data s; i_pos := i_pos s; i_eof := false; i_fail := true |}
  else if off <? 2 ^ 63 then
    {| i_data := i_data s; i_pos := Z.to_nat off; i_eof := false; i_fail := false |}
  else
    {| i_data := i_data s; i_pos := i_pos s; i_eof := false; i_fail := true |}.

(** [in.read(buf, n)]: the bytes read when all [n] are there. *)
Definition read_bytes (n : nat) (s : istream) : option (list byte) * istream :=
  if negb (i_good s) then
    (None, {| i_data := i_data s; i_pos := i_pos s; i_eof := i_eof s; i_fail := true |})
  else if (i_pos s + n <=? length (i_data s))%nat then
    (Some (take n (drop (i_pos s) (i_data s))),
     {| i_data := i_data s; i_pos := (i_pos s + n)%nat; i_eof := false; i_fail := false |})
  else
    (None, {| i_data := i_data s; i_pos := Nat.max (i_pos s) (length (i_data s));
              i_eof := true; i_fail := true |}).

(** ** ArchiveFormat *)

Record FileEntry := {
  name : string;
  source_path : string;
  original_size : Z;
  encoded_size : Z;
  offset : Z
}.

Definition set_name (e : FileEntry) (n : string) : FileEntry :=
  {| name := n; source_path := source_path e; original_size := original_size e;
     encoded_size := encoded_size e; offset := offset e |}.

Definition set_offset (e : FileEntry) (off : Z) : FileEntry :=
  {| name := name e; source_path := source_path e; original_size := original_size e;
     encoded_size := encoded_size e; offset := off |}.

Definition CalculateEncodedSize (c : HammingCodec) (original_size : Z) : Z :=
  let original_bits := u64 (original_size * 8) in
  let data_bits := u64 (data_bits_ c) in
  let parity_bits := u64 (parity_bits_ c) in
  let codeword_bits := u64 (data_bits + parity_bits) in
  let codeword_count := u64 (original_bits + data_bits - 1) / data_bits in
  let total_code_bits := u64 (codeword_count * codeword_bits) in
  u64 (total_code_bits + 7) / 8.

Definition name_size (e : FileEntry) : Z := Z.of_nat (String.length (name e)).

Definition CalculateHeaderSize (entries : list FileEntry) : Z :=
  fold_left
    (fun header_size entry => u64 (u64 (u64 (header_size + 2) + name_size entry) + (8 + 8 + 8)))
    entries (3 + 4).

Fixpoint assign_offsets_from (current_offset : Z) (entries : list FileEntry) : list FileEntry :=
  match entries with
  | [] => []
  | entry :: rest =>
      set_offset entry current_offset
        :: assign_offsets_from (u64 (current_offset + encoded_size entry)) rest
  end.

Definition AssignOffsets (entries : list FileEntry) (header_size : Z) : list FileEntry :=
  assign_offsets_from header_size entries.

(** The [width] bytes of an unsigned integer, least significant first. *)
Definition le_bytes (width : nat) (z : Z) : list byte :=
  map (fun i => byte_of_Z (Z.shiftr z (8 * Z.of_nat i))) (seq 0 width).

Definition le_value (bs : list byte) : Z :=
  fold_right (fun b acc => byte_to_Z b + 256 * acc) 0 bs.

Definition magic : list byte := String.list_byte_of_string "HAF".

Definition write_entry (out : ostream) (entry : FileEntry) : ostream :=
  let name_length := name_size entry mod 2 ^ 16 in
  let out := write_bytes (le_bytes 2 name_length) out in
  let out := write_bytes (take (Z.to_nat name_length) (String.list_byte_of_string (name entry))) out in
  let out := write_bytes (le_bytes 8 (original_size entry)) out in
  let out := write_bytes (le_bytes 8 (encoded_size entry)) out in
  write_bytes (le_bytes 8 (offset entry)) out.

Definition WriteArchiveHeader (out : ostream) (entries : list FileEntry) : bool * ostream :=
  let out := write_bytes magic out in
  let file_count := u32 (Z.of_nat (length entries)) in
  let out := write_bytes (le_bytes 4 file_count) out in
  let out := fold_left write_entry entries out in
  (o_good out, out).

Definition read_entry (ins : istream) : option FileEntry * istream :=
  match read_bytes 2 ins with
  | (None, ins) => (None, ins)
  | (Some len_bytes, ins) =>
      let name_length := le_value len_bytes in
      let '(name_bytes, ins) :=
        if 0 <? name_length then read_bytes (Z.to_nat name_length) ins
        else (Some [], ins) in
      match name_bytes with
      | None => (None, ins)
      | Some name_bytes =>
          match read_bytes 8 ins with
          | (None, ins) => (None, ins)
          | (Some original, ins) =>
              match read_bytes 8 ins with
              | (None, ins) => (None, ins)
              | (Some encoded, ins) =>
                  match read_bytes 8 ins with
                  | (None, ins) => (None, ins)
                  | (Some off, ins) =>
                      (Some {| name := String.string_of_list_byte name_bytes;
                               source_path := "";
                               original_size := le_value original;
                               encoded_size := le_value encoded;
                               offset := le_value off |}, ins)
                  end
              end
          end
      end
  end.

(** [for (index = 0; index < file_count; ++index)] of [ReadArchiveHeader] *)
Fixpoint read_entries (count : nat) (ins : istream) (entries : list FileEntry)
  : bool * istream * list FileEntry :=
  match count with
  | O => (true, ins, entries)
  | Datatypes.S count' =>
      match read_entry ins with
      | (None, ins) => (false, ins, entries)
      | (Some entry, ins) => read_entries count' ins (entries ++ [entry])
      end
  end.

Definition ReadArchiveHeader (ins : istream) : bool * istream * list FileEntry :=
  match read_bytes 3 ins with
  | (None, ins) => (false, ins, [])
  | (Some signature, ins) =>
      if negb (bool_decide (signature = magic)) then (false, ins, [])
      else
        match read_bytes 4 ins with
        | (None, ins) => (false, ins, [])
        | (Some count_bytes, ins) =>
            read_entries (Z.to_nat (le_value count_bytes)) ins []
        end
  end.

(** ** ArchiveEngine: helpers *)

Fixpoint CollectNewEntries (w : world) (input_files : list string) (c : HammingCodec)
    (out_entries : list FileEntry) : bool * list FileEntry :=
  match input_files with
  | [] => (true, out_entries)
  | file_path :: rest =>
      if negb (fs_exists w file_path) || fs_is_directory w file_path then (false, out_entries)
      else
        let original_size := fs_file_size w file_path in
        let encoded_size := CalculateEncodedSize c original_size in
        let entry := {| name := filename file_path; source_path := file_path;
                        original_size := original_size; encoded_size := encoded_size;
                        offset := 0 |} in
        CollectNewEntries w rest c (out_entries ++ [entry])
  end.

Definition EncodeFileToArchive (w : world) (entry : FileEntry) (c : HammingCodec)
    (archive_out : ostream) : bool * ostream :=
  match open_ifstream w (source_path entry) with
  | None => (false, archive_out)
  | Some in_file =>
      let '(ok, _, out) := EncodeStream c in_file archive_out in
      (ok, out)
  end.

(** [while (remaining > 0)] of [CopyEntryData] and of [Concatenate]: a round
    copies [min(remaining, 8192)] bytes, so [remaining] rounds are enough. *)
Fixpoint copy_loop (fuel : nat) (remaining : Z) (ins : istream) (out : ostream)
  : bool * istream * ostream :=
  match fuel with
  | O => (true, ins, out)
  | Datatypes.S fuel' =>
      if 0 <? remaining then
        let chunk_size := Z.min remaining 8192 in
        match read_bytes (Z.to_nat chunk_size) ins with
        | (None, ins) => (false, ins, out)
        | (Some buffer, ins) =>
            let out := write_bytes buffer out in
            if negb (o_good out) then (false, ins, out)
            else copy_loop fuel' (u64 (remaining - Z.of_nat (length buffer))) ins out
        end
      else (true, ins, out)
  end.

Definition CopyEntryData (archive_in : istream) (entry : FileEntry) (archive_out : ostream)
  : bool * istream * ostream :=
  let archive_in := seekg (offset entry) archive_in in
  if negb (i_good archive_in) then (false, archive_in, archive_out)
  else copy_loop (Z.to_nat (encoded_size entry)) (encoded_size entry) archive_in archive_out.

Definition EnsureParentDirectoryExists (w : world) (p : string) : bool * world :=
  if negb (has_parent_path p) then (true, w)
  else
    let '(ok, w') := fs_create_directories w (parent_path p) in
    if negb ok && negb (fs_exists w' (parent_path p)) then (false, w') else (true, w').

(** The inner loop of [FindEntriesByNames]: every entry with the name. *)
Fixpoint find_matches (all_entries : list FileEntry) (n : string)
    (out_entries : list FileEntry) (found : bool) : list FileEntry * bool :=
  match all_entries with
  | [] => (out_entries, found)
  | entry :: rest =>
      if String.eqb (name entry) n then find_matches rest n (out_entries ++ [entry]) true
      else find_matches rest n out_entries found
  end.

Fixpoint FindEntriesByNames (all_entries : list FileEntry) (requested_names : list string)
    (out_entries : list FileEntry) : bool * list FileEntry :=
  match requested_names with
  | [] => (true, out_entries)
  | n :: rest =>
      let '(out_entries, found) := find_matches all_entries n out_entries false in
      if negb found then (false, out_entries)
      else FindEntriesByNames all_entries rest out_entries
  end.

(** ** ArchiveEngine: operations

    Every operation takes the file system, the archive path and the codec
    of the [Archiver] object and returns its result and the file system it
    leaves. *)

(** [out.close(); fs::remove(path);] on a failure path. *)
Definition discard_output (w : world) (p : string) (out : ostream) : world :=
  fs_remove (close_ofstream w p out) p.

(** [for (entry : entries) if (!EncodeFileToArchive(...)) ...] *)
Fixpoint encode_entries (w : world) (entries : list FileEntry) (c : HammingCodec)
    (out : ostream) : bool * ostream :=
  match entries with
  | [] => (true, out)
  | entry :: rest =>
      let '(ok, out) := EncodeFileToArchive w entry c out in
      if negb ok then (false, out) else encode_entries w rest c out
  end.

(** [for (entry : entries) if (!CopyEntryData(in, entry, out)) ...] *)
Fixpoint copy_entries (ins : istream) (entries : list FileEntry) (out : ostream)
  : bool * istream * ostream :=
  match entries with
  | [] => (true, ins, out)
  | entry :: rest =>
      let '(ok, ins, out) := CopyEntryData ins entry out in
      if negb ok then (false, ins, out) else copy_entries ins rest out
  end.

Definition Create (w : world) (archive_path_ : string) (codec_ : HammingCodec)
    (input_files : list string) : bool * world :=
  let out_path := archive_path_ in
  let '(dir_ok, w) :=
    if has_parent_path out_path then
      let '(ok, w1) := fs_create_directories w (parent_path out_path) in
      if negb ok && negb (fs_exists w1 (parent_path out_path)) then (false, w1) else (true, w1)
    else (true, w) in
  if negb dir_ok then (false, w)
  else
    match open_ofstream w out_path with
    | None => (false, w)
    | Some (out, w) =>
        let '(ok, entries) := CollectNewEntries w input_files codec_ [] in
        if negb ok then (false, discard_output w out_path out)
        else
          let header_size := CalculateHeaderSize entries in
          let entries := AssignOffsets entries header_size in
          let '(ok, out) := WriteArchiveHeader out entries in
          if negb ok then (false, discard_output w out_path out)
          else
            let '(ok, out) := encode_entries w entries codec_ out in
            if negb ok then (false, discard_output w out_path out)
            else (true, close_ofstream w out_path out)
    end.

(** The loop of [Extract] over the selected entries; the output stream of a
    round is closed when the round ends or returns. *)
Fixpoint extract_entries (w : world) (codec_ : HammingCodec) (ins : istream)
    (entries : list FileEntry) : bool * world :=
  match entries with
  | [] => (true, w)
  | entry :: rest =>
      let ins := seekg (offset entry) ins in
      if negb (i_good ins) then (false, w)
      else
        let out_path := name entry in
        let '(ok, w) := EnsureParentDirectoryExists w out_path in
        if negb ok then (false, w)
        else
          match open_ofstream w out_path with
          | None => (false, w)
          | Some (out_file, w) =>
              let '(ok, ins, out_file) :=
                DecodeStream codec_ ins out_file (original_size entry) (encoded_size entry) in
              let w := close_ofstream w out_path out_file in
              if negb ok then (false, w) else extract_entries w codec_ ins rest
          end
  end.

Definition Extract (w : world) (archive_path_ : string) (codec_ : HammingCodec)
    (requested_files : list string) : bool * world :=
  match open_ifstream w archive_path_ with
  | None => (false, w)
  | Some ins =>
      let '(ok, ins, entries) := ReadArchiveHeader ins in
      if negb ok then (false, w)
      else
        let '(ok, entries_to_extract) :=
          match requested_files with
          | [] => (true, entries)
          | _ => FindEntriesByNames entries requested_files []
          end in
        if negb ok then (false, w)
        else extract_entries w codec_ ins entries_to_extract
  end.

(** [fs::remove(archive_path_, ec); fs::rename(temp_path, archive_path_, ec);] *)
Definition replace_archive (w : world) (temp_path archive_path_ : string) : bool * world :=
  fs_rename (fs_remove w archive_path_) temp_path archive_path_.

Definition Append (w : world) (archive_path_ : string) (codec_ : HammingCodec)
    (input_files : list string) : bool * world :=
  match open_ifstream w archive_path_ with
  | None => (false, w)
  | Some ins =>
      let '(ok, ins, old_entries) := ReadArchiveHeader ins in
      if negb ok then (false, w)
      else
        let '(ok, new_entries) := CollectNewEntries w input_files codec_ [] in
        if negb ok then (false, w)
        else
          let temp_path := String.append archive_path_ ".tmp" in
          let w := fs_remove w temp_path in
          match open_ofstream w temp_path with
          | None => (false, w)
          | Some (out, w) =>
              let all_entries := old_entries ++ new_entries in
              let header_size := CalculateHeaderSize all_entries in
              let all_entries := AssignOffsets all_entries header_size in
              let '(ok, out) := WriteArchiveHeader out all_entries in
              if negb ok then (false, close_ofstream w temp_path out)
              else
                let '(ok, ins, out) := copy_entries ins old_entries out in
                if negb ok then (false, discard_output w temp_path out)
                else
                  let '(ok, out) := encode_entries w new_entries codec_ out in
                  if negb ok then (false, discard_output w temp_path out)
                  else replace_archive (close_ofstream w temp_path out) temp_path archive_path_
          end
  end.

(** The first loop of [Delete]: is the name one of the archive's? *)
Fixpoint name_found (old_entries : list FileEntry) (name_to_delete : string) : bool :=
  match old_entries with
  | [] => false
  | entry :: rest =>
      if String.eqb (name entry) name_to_delete then true else name_found rest name_to_delete
  end.

Fixpoint all_names_found (old_entries : list FileEntry) (files_to_delete : list string) : bool :=
  match files_to_delete with
  | [] => true
  | name_to_delete :: rest =>
      if negb (name_found old_entries name_to_delete) then false
      else all_names_found old_entries rest
  end.

(** The second loop of [Delete]: the entries that stay. *)
Fixpoint should_delete (files_to_delete : list string) (entry : FileEntry) : bool :=
  match files_to_delete with
  | [] => false
  | name_to_delete :: rest =>
      if String.eqb (name entry) name_to_delete then true else should_delete rest entry
  end.

Fixpoint keep_entries (old_entries : list FileEntry) (files_to_delete : list string)
  : list FileEntry :=
  match old_entries with
  | [] => []
  | entry :: rest =>
      if negb (should_delete files_to_delete entry)
      then entry :: keep_entries rest files_to_delete
      else keep_entries rest files_to_delete
  end.

Definition Delete (w : world) (archive_path_ : string) (codec_ : HammingCodec)
    (files_to_delete : list string) : bool * world :=
  match open_ifstream w archive_path_ with
  | None => (false, w)
  | Some ins =>
      let '(ok, ins, old_entries) := ReadArchiveHeader ins in
      if negb ok then (false, w)
      else if negb (all_names_found old_entries files_to_delete) then (false, w)
      else
        let keep := keep_entries old_entries files_to_delete in
        if (length keep =? length old_entries)%nat then (false, w)
        else
          let keep_entries_old_offsets := keep in
          let temp_path := String.append archive_path_ ".tmp" in
          let w := fs_remove w temp_path in
          match open_ofstream w temp_path with
          | None => (false, w)
          | Some (out, w) =>
              let header_size := CalculateHeaderSize keep in
              let keep := AssignOffsets keep header_size in
              let '(ok, out) := WriteArchiveHeader out keep in
              if negb ok then (false, discard_output w temp_path out)
              else
                let '(ok, ins, out) := copy_entries ins keep_entries_old_offsets out in
                if negb ok then (false, discard_output w temp_path out)
                else replace_archive (close_ofstream w temp_path out) temp_path archive_path_
          end
  end.

(** ** Concatenate *)

(** [original_name + "(" + std::to_string(suffix) + ")"] *)
Definition suffixed (original_name : string) (suffix : Z) : string :=
  String.append original_name (String.append "(" (String.append (pretty suffix) ")")).

(** [while (used_names.count(new_name) != 0) { new_name = ...; ++suffix; }]
    The candidates are pairwise different, so one of the first
    [size used_names + 1] is free: that is the fuel of the caller. *)
Fixpoint rename_loop (fuel : nat) (used_names : gset string) (original_name new_name : string)
    (suffix : Z) : string :=
  match fuel with
  | O => new_name
  | Datatypes.S fuel' =>
      if bool_decide (new_name ∈ used_names) then
        rename_loop fuel' used_names original_name (suffixed original_name suffix) (suffix + 1)
      else new_name
  end.

(** The name under which an entry goes into [combined_entries]. *)
Definition free_name (used_names : gset string) (original_name : string) : string :=
  if bool_decide (original_name ∈ used_names) then
    rename_loop (Datatypes.S (size used_names)) used_names original_name original_name 2
  else original_name.

(** [for (FileEntry entry : src_entries)] of [Concatenate] *)
Fixpoint collect_entries (src_entries : list FileEntry) (used_names : gset string)
    (combined_entries : list FileEntry) : gset string * list FileEntry :=
  match src_entries with
  | [] => (used_names, combined_entries)
  | entry :: rest =>
      let entry := set_name entry (free_name used_names (name entry)) in
      collect_entries rest ({[name entry]} ∪ used_names) (combined_entries ++ [entry])
  end.

Record SourceInfo := {
  src_path_ : string;
  data_start : Z;
  data_length : Z
}.

(** [for (src_path : source_archives)] of [Concatenate]; [None] when a
    source cannot be opened or its header cannot be read. *)
Fixpoint collect_sources (w : world) (source_archives : list string)
    (used_names : gset string) (combined_entries : list FileEntry) (sources : list SourceInfo)
  : option (list FileEntry * list SourceInfo) :=
  match source_archives with
  | [] => Some (combined_entries, sources)
  | src_path :: rest =>
      match open_ifstream w src_path with
      | None => None
      | Some src_in =>
          let '(ok, src_in, src_entries) := ReadArchiveHeader src_in in
          if negb ok then None
          else
            let '(used_names, combined_entries) :=
              collect_entries src_entries used_names combined_entries in
            let data_start := Z.of_nat (i_pos src_in) in
            let file_size := fs_file_size w src_path in
            let data_length :=
              if file_size >? data_start then file_size - data_start else 0 in
            collect_sources w rest used_names combined_entries
              (sources ++ [{| src_path_ := src_path; data_start := data_start;
                              data_length := data_length |}])
      end
  end.

(** [for (source : sources)] of [Concatenate]: the payload region of every
    source goes to the output. *)
Fixpoint copy_sources (w : world) (sources : list SourceInfo) (out : ostream)
  : bool * ostream :=
  match sources with
  | [] => (true, out)
  | source :: rest =>
      match open_ifstream w (src_path_ source) with
      | None => (false, out)
      | Some src_in =>
          let src_in := seekg (data_start source) src_in in
          let '(ok, _, out) :=
            copy_loop (Z.to_nat (data_length source)) (data_length source) src_in out in
          if negb ok then (false, out) else copy_sources w rest out
      end
  end.

Definition Concatenate (w : world) (archive_path_ : string) (codec_ : HammingCodec)
    (source_archives : list string) : bool * world :=
  let target_path := archive_path_ in
  let w :=
    if has_parent_path target_path
    then snd (fs_create_directories w (parent_path target_path))
    else w in
  let temp_path := String.append target_path ".tmp" in
  let w := fs_remove w temp_path in
  match open_ofstream w temp_path with
  | None => (false, w)
  | Some (out, w) =>
      match collect_sources w source_archives ∅ [] [] with
      | None => (false, discard_output w temp_path out)
      | Some (combined_entries, sources) =>
          let header_size := CalculateHeaderSize combined_entries in
          let combined_entries := AssignOffsets combined_entries header_size in
          let '(ok, out) := WriteArchiveHeader out combined_entries in
          if negb ok then (false, discard_output w temp_path out)
          else
            let '(ok, out) := copy_sources w sources out in
            if negb ok then (false, discard_output w temp_path out)
            else replace_archive (close_ofstream w temp_path out) temp_path archive_path_
      end
  end.

(** ** List

    The result and the lines written to the standard output. *)

Definition List (w : world) (archive_path_ : string) : bool * list string :=
  match open_ifstream w archive_path_ with
  | None => (false, [])
  | Some ins =>
      let '(ok, _, entries) := ReadArchiveHeader ins in
      if negb ok then (false, [])
      else
        (true,
         map (fun entry =>
                String.append (name entry)
                  (String.append " (" (String.append (pretty (original_size entry)) " bytes)")))
             entries)
  end.

(** ** The command line (parse_args.cpp, src/unnamed/part_002)

    The argument parser of the nargparse library is outside the model: what
    it leaves behind, the result of [nargparse::Parse], the raw options it
    has filled in and the positional arguments it has collected, are
    parameters of the functions that use them. *)

Inductive Command :=
  | kNone | kCreate | kList | kExtract | kAppend | kDelete | kConcatenate.

Record HammingParameters := {
  data_bits : Z;
  parity_bits : Z
}.

Record ParsedOptions := {
  command : Command;
  archive_path : string;
  files : list string;
  hamming : HammingParameters;
  show_help : bool
}.

(** [ParsedOptions{}] *)
Definition default_options : ParsedOptions :=
  {| command := kNone; archive_path := ""; files := [];
     hamming := {| data_bits := 8; parity_bits := 4 |}; show_help := false |}.

Definition set_show_help (options : ParsedOptions) (b : bool) : ParsedOptions :=
  {| command := command options; archive_path := archive_path options;
     files := files options; hamming := hamming options; show_help := b |}.

Record RawCliOptions := {
  is_create_mode : bool;
  is_list_mode : bool;
  is_extract_mode : bool;
  is_append_mode : bool;
  is_delete_mode : bool;
  is_concatenate_mode : bool;
  is_help_requested : bool;
  raw_archive_path : string;
  hamming_data_bits : Z;
  hamming_parity_bits : Z
}.

Definition CountSelectedModes (raw_options : RawCliOptions) : Z :=
  let count := 0 in
  let count := if is_create_mode raw_options then count + 1 else count in
  let count := if is_list_mode raw_options then count + 1 else count in
  let count := if is_extract_mode raw_options then count + 1 else count in
  let count := if is_append_mode raw_options then count + 1 else count in
  let count := if is_delete_mode raw_options then count + 1 else count in
  let count := if is_concatenate_mode raw_options then count + 1 else count in
  count.

Definition ValidateModeSelection (modes_count : Z) (options : ParsedOptions)
  : bool * ParsedOptions :=
  if modes_count =? 0 then (false, set_show_help options true)
  else if modes_count >? 1 then (false, set_show_help options true)
  else (true, options).

(** [parse_result] is what [nargparse::Parse] returned. *)
Definition ParseArguments (parse_result : bool) (raw_options : RawCliOptions)
    (options : ParsedOptions) : bool * ParsedOptions :=
  if negb parse_result then (false, set_show_help options true)
  else if is_help_requested raw_options then (false, set_show_help options true)
  else
    let modes_count := CountSelectedModes raw_options in
    let '(ok, options) := ValidateModeSelection modes_count options in
    if negb ok then (false, options) else (true, options).

Definition DetectCommand (raw_options : RawCliOptions) : Command :=
  if is_create_mode raw_options then kCreate
  else if is_list_mode raw_options then kList
  else if is_extract_mode raw_options then kExtract
  else if is_append_mode raw_options then kAppend
  else if is_delete_mode raw_options then kDelete
  else if is_concatenate_mode raw_options then kConcatenate
  else kNone.

(** [collected] is what [CollectFiles] reads from the parser. *)
Definition FillParsedOptionsFromRaw (raw_options : RawCliOptions) (collected : list string)
    (parsed : ParsedOptions) : ParsedOptions :=
  {| command := DetectCommand raw_options;
     archive_path := raw_archive_path raw_options;
     files := collected;
     hamming := {| data_bits := hamming_data_bits raw_options;
                   parity_bits := hamming_parity_bits raw_options |};
     show_help := show_help parsed |}.

Definition ValidateOptionsByMode (parsed options : ParsedOptions) : bool * ParsedOptions :=
  match command parsed with
  | kCreate | kAppend | kDelete =>
      match files parsed with
      | [] => (false, set_show_help options true)
      | _ => (true, options)
      end
  | kConcatenate =>
      if (length (files parsed) <? 2)%nat then (false, set_show_help options true)
      else (true, options)
  | kList | kExtract | kNone => (true, options)
  end.

Definition ParseCommandLine (parse_result : bool) (raw_options : RawCliOptions)
    (collected : list string) : bool * ParsedOptions :=
  let options := default_options in
  let parsed := default_options in
  let '(ok, options) := ParseArguments parse_result raw_options options in
  if negb ok then (false, options)
  else
    let parsed := FillParsedOptionsFromRaw raw_options collected parsed in
    let '(ok, options) := ValidateOptionsByMode parsed options in
    if negb ok then (false, options)
    else (true, set_show_help parsed false).

(** ** Running a command (src/unnamed/part_000)

    Every function returns the exit status and the file system it leaves;
    what is printed is left out. *)

(** [HammingOptions hopt{...}; Archiver archiver(options.archive_path, hopt);] *)
Definition archiver_codec (options : ParsedOptions) : HammingCodec :=
  mkHammingCodec {| opt_data_bits := data_bits (hamming options);
                    opt_parity_bits := parity_bits (hamming options) |}.

(** [success ? 0 : 1] *)
Definition exit_status (success : bool) : Z := if success then 0 else 1.

Definition RunCreate (options : ParsedOptions) (w : world) : Z * world :=
  let '(success, w) :=
    Create w (archive_path options) (archiver_codec options) (files options) in
  (exit_status success, w).

Definition RunList (options : ParsedOptions) (w : world) : Z * world :=
  let '(success, _) := List w (archive_path options) in
  (exit_status success, w).

Definition RunExtract (options : ParsedOptions) (w : world) : Z * world :=
  let '(success, w) :=
    Extract w (archive_path options) (archiver_codec options) (files options) in
  (exit_status success, w).

Definition RunAppend (options : ParsedOptions) (w : world) : Z * world :=
  let '(success, w) :=
    Append w (archive_path options) (archiver_codec options) (files options) in
  (exit_status success, w).

Definition RunDelete (options : ParsedOptions) (w : world) : Z * world :=
  let '(success, w) :=
    Delete w (archive_path options) (archiver_codec options) (files options) in
  (exit_status success, w).

Definition RunConcatenate (options : ParsedOptions) (w : world) : Z * world :=
  if (length (files options) <? 2)%nat then (1, w)
  else
    let '(success, w) :=
      Concatenate w (archive_path options) (archiver_codec options) (files options) in
    (exit_status success, w).

Definition RunFromOptions (options : ParsedOptions) (w : world) : Z * world :=
  match command options with
  | kCreate => RunCreate options w
  | kList => RunList options w
  | kExtract => RunExtract options w
  | kAppend => RunAppend options w
  | kDelete => RunDelete options w
  | kConcatenate => RunConcatenate options w
  | kNone => (1, w)
  end.

(** [main] (src/unnamed/part_004) *)
Definition main (parse_result : bool) (raw_options : RawCliOptions) (collected : list string)
    (w : world) : Z * world :=
  let '(ok, options) := ParseCommandLine parse_result raw_options collected in
  if negb ok then ((if show_help options then 0 else 1), w)
  else RunFromOptions options w.

(** * Notions used to state and prove the properties

    Nothing below this line is part of the program: these definitions
    describe what its loops compute. *)

(** ** Codewords *)

(** Position [q] is covered by the parity position [p]. *)
Definition covers (q p : Z) : bool := negb (Z.land q p =? 0).

(** The parity check [p] over positions [1..len] of a codeword. *)
Fixpoint cov (cw p : Z) (len : nat) : bool :=
  match len with
  | O => false
  | Datatypes.S l =>
      xorb (cov cw p l) (covers (Z.of_nat (Datatypes.S l)) p && Z.testbit cw (Z.of_nat l))
  end.

(** The number of data positions among [1..m]. *)
Fixpoint dcount (m : nat) : Z :=
  match m with
  | O => 0
  | Datatypes.S l => dcount l + (if is_parity_position (Z.of_nat (Datatypes.S l)) then 0 else 1)
  end.

Definition data_capacity (total_bits : Z) : Z := dcount (Z.to_nat total_bits).

(** What holds of the codeword before the parity loop of [EncodeBlock]
    handles the position [2^j]: the data positions are as placed, the
    parity positions from [2^j] on are still clear, the checks below [2^j]
    pass, and no bit is set outside the codeword. *)
Definition enc_inv (d n j cw : Z) : Prop :=
  (forall t, 0 <= t -> (forall i, 0 <= i -> t + 1 <> 2 ^ i) ->
             Z.testbit cw t = Z.testbit (place_data d n) t) /\
  (forall i, j <= i -> Z.testbit cw (2 ^ i - 1) = false) /\
  (forall i, 0 <= i < j -> cov cw (2 ^ i) (Z.to_nat n) = false) /\
  (forall t, n <= t -> Z.testbit cw t = false).

Definition checks_pass (cw n : Z) : Prop :=
  forall i, 0 <= i -> 2 ^ i <= n -> cov cw (2 ^ i) (Z.to_nat n) = false.

(** ** Bit sequences and the bit streams of the codec *)

Definition value_bits (len : nat) (z : Z) : list bool :=
  map (fun i => Z.testbit z (Z.of_nat i)) (seq 0 len).

Fixpoint bits_value (l : list bool) : Z :=
  match l with
  | [] => 0
  | b :: rest => Z.b2z b + 2 * bits_value rest
  end.

Definition byte_bits (b : byte) : list bool := value_bits 8 (byte_to_Z b).

Definition unpack (bs : list byte) : list bool := concat (map byte_bits bs).

(** The bytes written and the bits pending in the output byte. *)
Abbreviation wstate := (list byte * list bool)%type (only parsing).

Definition push (st : wstate) (b : bool) : wstate :=
  let p := snd st ++ [b] in
  if (length p =? 8)%nat then (fst st ++ [byte_of_Z (bits_value p)], [])
  else (fst st, p).

Definition flush_bytes (st : wstate) : list byte :=
  match snd st with
  | [] => fst st
  | _ => fst st ++ [byte_of_Z (bits_value (snd st))]
  end.

(** The byte sequence that holds a bit sequence, zero-padded. *)
Definition pack (bits : list bool) : list byte := flush_bytes (fold_left push bits ([], [])).

Definition wr_rel (w : bit_writer) (st : wstate) : Prop :=
  o_data (w_out w) = fst st /\ o_room (w_out w) = None /\ o_fail (w_out w) = false /\
  w_byte w = bits_value (snd st) /\ w_count w = Z.of_nat (length (snd st)) /\
  (length (snd st) < 8)%nat.

(** The data blocks of a bit sequence: [k] bits each, the last one as long
    as what is left. *)
Fixpoint enc_blocks (k : nat) (pending bits : list bool) : list (list bool) :=
  match bits with
  | [] => match pending with [] => [] | _ => [pending] end
  | b :: rest =>
      let p := pending ++ [b] in
      if (length p =? k)%nat then p :: enc_blocks k [] rest else enc_blocks k p rest
  end.

(** All blocks but the last hold [k] bits, the last one from 1 to [k]. *)
Fixpoint blocks_ok (k : nat) (blocks : list (list bool)) : Prop :=
  match blocks with
  | [] => True
  | blk :: rest =>
      match rest with
      | [] => (1 <= length blk <= k)%nat
      | _ => length blk = k /\ blocks_ok k rest
      end
  end.

(** The bits of the codeword of a block. *)
Definition block_code (c : HammingCodec) (blk : list bool) : list bool :=
  value_bits (Z.to_nat (total_bits_ c)) (EncodeBlock c (bits_value blk)).

Definition code_bits (c : HammingCodec) (blocks : list (list bool)) : list bool :=
  concat (map (block_code c) blocks).

(** One data bit enters the encoder: the pending data bits and the state
    of the bit writer. *)
Definition astep (c : HammingCodec) (a : list bool * wstate) (b : bool) : list bool * wstate :=
  let p := fst a ++ [b] in
  if Z.of_nat (length p) =? data_bits_ c
  then ([], fold_left push (block_code c p) (snd a))
  else (p, snd a).

Definition afinish (c : HammingCodec) (a : list bool * wstate) : wstate :=
  match fst a with
  | [] => snd a
  | _ => fold_left push (block_code c (fst a)) (snd a)
  end.

Definition enc_rel (c : HammingCodec) (st : enc_state) (a : list bool * wstate) : Prop :=
  e_block st = bits_value (fst a) /\ e_block_bits st = Z.of_nat (length (fst a)) /\
  Z.of_nat (length (fst a)) < data_bits_ c /\ wr_rel (e_w st) (snd a).

(** The bits that the reader still delivers. *)
Definition rd_rel (rd : bit_reader) (bits : list bool) : Prop :=
  i_good (r_in rd) = true /\ 0 <= r_avail rd /\
  bits = value_bits (Z.to_nat (r_avail rd)) (r_byte rd)
           ++ unpack (drop (i_pos (r_in rd)) (i_data (r_in rd))).

(** [ceil(a / b)] for positive [b]. *)
Definition ceil_div (a b : Z) : Z := (a + b - 1) / b.

(** ** Archives *)

(** The entries of the header of an archive file, when it can be read. *)
Definition read_archive (w : world) (archive : string) : option (list FileEntry) :=
  match open_ifstream w archive with
  | None => None
  | Some ins =>
      let '(ok, _, entries) := ReadArchiveHeader ins in
      if ok then Some entries else None
  end.

(** A directory with one input file. *)
Definition example_inputs : world :=
  {| w_files := {[ "present.bin"%string := File [x10; x20; x30] ]}; w_room := None |}.

(** The same directory after [create a.haf present.bin]. *)
Definition example_archive : world :=
  snd (Create example_inputs "a.haf" (codec 8 4) ["present.bin"%string]).

Definition example_entries : list FileEntry :=
  [{| name := "present.bin"; source_path := ""; original_size := 3; encoded_size := 5;
      offset := 44 |}].

(** What [Create] does before it opens the archive. *)
Definition prepare_parent (w : world) (out_path : string) : bool * world :=
  if has_parent_path out_path then
    let '(ok, w1) := fs_create_directories w (parent_path out_path) in
    if negb ok && negb (fs_exists w1 (parent_path out_path)) then (false, w1) else (true, w1)
  else (true, w).

(** [Create] gets as far as having the archive open for writing. *)
Definition create_opens (w : world) (out_path : string) : bool :=
  let '(dir_ok, w1) := prepare_parent w out_path in
  dir_ok && bool_decide (is_Some (open_ofstream w1 out_path)).

(** The names [f0], [f1], ... [f299]. *)
Definition example_many_names : list string :=
  map (fun i => String.append "f" (pretty (Z.of_nat i))) (seq 0 300).

(** A directory with [present.bin] and 300 empty files of these names. *)
Definition example_many_inputs : world :=
  {| w_files := list_to_map (("present.bin"%string, File [x10; x20; x30])
                             :: map (fun n => (n, File [])) example_many_names);
     w_room := None |}.

(** The same directory after [create a.haf f0 ... f299], on a device that
    has room for three more bytes.  The header of [a.haf] has 8897 bytes,
    more than the buffer of a stream. *)
Definition example_full_device : world :=
  {| w_files := w_files (snd (Create example_many_inputs "a.haf" (codec 8 4) example_many_names));
     w_room := Some 3%nat |}.

(** The entries that [Concatenate] reads from a source archive. *)
Definition header_entries (w : world) (archive : string) : list FileEntry :=
  match read_archive w archive with
  | Some entries => entries
  | None => []
  end.

(** What an entry keeps when it is renamed. *)
Definition payload (e : FileEntry) : string * Z * Z * Z :=
  (source_path e, original_size e, encoded_size e, offset e).

(** Two archives that each hold a file called dup.bin. *)
Definition example_two_inputs : world :=
  {| w_files := {[ "one"%string := Dir; "two"%string := Dir;
                   "one/dup.bin"%string := File [x01; x02; x03];
                   "two/dup.bin"%string := File [x0a; x0b] ]};
     w_room := None |}.

Definition example_two_archives : world :=
  snd (Create (snd (Create example_two_inputs "a.haf" (codec 8 4) ["one/dup.bin"%string]))
         "b.haf" (codec 8 4) ["two/dup.bin"%string]).

Definition example_concatenated : bool * world :=
  Concatenate example_two_archives "c.haf" (codec 8 4) ["a.haf"; "b.haf"]%string.

(** ** Received blocks, streams, headers and the contents of archives *)

(** The bits [code] received for the data block [blk] decode to it. *)
Definition recv_ok (c : HammingCodec) (blk code : list bool) : Prop :=
  Z.of_nat (length code) = total_bits_ c /\
  DecodeBlock c (bits_value code) = (bits_value blk, false).

(** The bit sequence with the bit of index [j] inverted. *)
Fixpoint flip_nth (j : nat) (l : list bool) {struct l} : list bool :=
  match l with
  | [] => []
  | b :: rest =>
      match j with
      | O => negb b :: rest
      | Datatypes.S j' => b :: flip_nth j' rest
      end
  end.

(** The byte sequence with one bit inverted: bit [j mod 8] of the byte of
    index [j / 8], bits counted from the least significant one. *)
Fixpoint flip_bit (j : nat) (bs : list byte) : list byte :=
  match bs with
  | [] => []
  | b :: rest =>
      if (j <? 8)%nat then byte_of_Z (Z.lxor (byte_to_Z b) (Z.shiftl 1 (Z.of_nat j))) :: rest
      else b :: flip_bit (j - 8) rest
  end.

(** The encoded bits that the reader can still deliver. *)
Definition bits_left (rd : bit_reader) : Z :=
  r_avail rd + 8 * (Z.of_nat (length (i_data (r_in rd))) - Z.of_nat (i_pos (r_in rd))).

Definition rd_inv (rd : bit_reader) : Prop :=
  i_good (r_in rd) = true /\ 0 <= r_avail rd < 8 /\
  (0 < r_avail rd -> (i_pos (r_in rd) <= length (i_data (r_in rd)))%nat).

(** The bits that went to the writer. *)
Definition wbits (w : bit_writer) : Z :=
  8 * Z.of_nat (length (o_data (w_out w))) + w_count w.

Definition w_inv (w : bit_writer) : Prop :=
  0 <= w_count w < 8 /\ o_fail (w_out w) = false.

(** The bytes of an input stream from its read position on. *)
Definition unread (s : istream) : list byte := drop (i_pos s) (i_data s).

(** The input stream [s'] is [s] after [n] more bytes were read. *)
Definition moved (s s' : istream) (n : nat) : Prop :=
  i_data s' = i_data s /\ i_pos s' = (i_pos s + n)%nat /\
  i_eof s' = false /\ i_fail s' = false.

Definition entry_bytes (e : FileEntry) : list byte :=
  le_bytes 2 (name_size e mod 2 ^ 16)
    ++ take (Z.to_nat (name_size e mod 2 ^ 16)) (String.list_byte_of_string (name e))
    ++ le_bytes 8 (original_size e) ++ le_bytes 8 (encoded_size e) ++ le_bytes 8 (offset e).

Definition header_bytes (entries : list FileEntry) : list byte :=
  magic ++ le_bytes 4 (u32 (Z.of_nat (length entries))) ++ concat (map entry_bytes entries).

(** An entry as [ReadArchiveHeader] gives it back: the source path is not
    part of the header. *)
Definition stored (e : FileEntry) : FileEntry :=
  {| name := name e; source_path := ""; original_size := original_size e;
     encoded_size := encoded_size e; offset := offset e |}.

(** The fields of an entry fit the widths of the header. *)
Definition entry_fits (e : FileEntry) : Prop :=
  name_size e < 2 ^ 16 /\ 0 <= original_size e < 2 ^ 64 /\
  0 <= encoded_size e < 2 ^ 64 /\ 0 <= offset e < 2 ^ 64.

(** Two entries, one of them with an empty name. *)
Definition example_header_entries : list FileEntry :=
  [{| name := "a.txt"; source_path := "in/a.txt"; original_size := 3; encoded_size := 5;
      offset := 70 |};
   {| name := ""; source_path := "x"; original_size := 0; encoded_size := 0; offset := 75 |}].

(** The entry that [CollectNewEntries] makes for an input path. *)
Definition new_entry (w : world) (c : HammingCodec) (file_path : string) : FileEntry :=
  {| name := filename file_path; source_path := file_path;
     original_size := fs_file_size w file_path;
     encoded_size := CalculateEncodedSize c (fs_file_size w file_path);
     offset := 0 |}.

Definition is_file (w : world) (p : string) : Prop :=
  exists content, w_files w !! p = Some (File content).

(** The bytes of the regular file at a path. *)
Definition file_content (w : world) (p : string) : list byte :=
  match w_files w !! p with
  | Some (File content) => content
  | _ => []
  end.

(** Entry [e] of an archive with the bytes [data] stores the file content
    [B]: its sizes are those of [B] and of the encoding of [B], and the
    encoding of [B] stands at its offset. *)
Definition stores (k r : Z) (data : list byte) (e : FileEntry) (B : list byte) : Prop :=
  original_size e = Z.of_nat (length B) /\ Z.of_nat (length B) < 2 ^ 56 /\
  encoded_size e = Z.of_nat (length (snd (encode k r B))) /\
  0 <= offset e < 2 ^ 63 /\
  exists rest, drop (Z.to_nat (offset e)) data = snd (encode k r B) ++ rest.

(** The decoder can read the file content [B] at the offset of entry [e]:
    the bits there are code blocks that decode to the data blocks of [B]. *)
Definition readable (k r : Z) (data : list byte) (e : FileEntry) (B : list byte) : Prop :=
  original_size e = Z.of_nat (length B) /\ Z.of_nat (length B) < 2 ^ 56 /\
  0 <= offset e < 2 ^ 63 /\
  exists rcv tail,
    Forall2 (recv_ok (codec k r)) (enc_blocks (Z.to_nat k) [] (unpack B)) rcv /\
    unpack (drop (Z.to_nat (offset e)) data) = concat rcv ++ tail.

(** What [Create] builds for its inputs: the entries of the header, and the
    bytes behind the header. *)
Definition created_entries (w : world) (c : HammingCodec) (inputs : list string)
  : list FileEntry :=
  AssignOffsets (map (new_entry w c) inputs) (CalculateHeaderSize (map (new_entry w c) inputs)).

Definition created_payload (k r : Z) (w : world) (inputs : list string) : list byte :=
  concat (map (fun p => snd (encode k r (file_content w p))) inputs).

(** The files after the contents were written at the names, in order. *)
Fixpoint put_files (fs : gmap string node) (names : list string) (contents : list (list byte))
  : gmap string node :=
  match names, contents with
  | n :: names, B :: contents => put_files (<[n := File B]> fs) names contents
  | _, _ => fs
  end.

(** Does a name hold a NUL byte?  A name comes from the bytes of the
    archive, and the system calls read a path up to its first NUL byte. *)
Fixpoint has_nul (s : string) : bool :=
  match s with
  | EmptyString => false
  | String a rest => Ascii.eqb a "000"%char || has_nul rest
  end.













(** The command that an accepted command line runs on the file system:
    its result and the file system it leaves. *)
Definition run_command (raw_options : RawCliOptions) (collected : list string) (w : world)
  : bool * world :=
  let codec_ :=
    mkHammingCodec {| opt_data_bits := hamming_data_bits raw_options;
                      opt_parity_bits := hamming_parity_bits raw_options |} in
  let archive := raw_archive_path raw_options in
  if is_create_mode raw_options then Create w archive codec_ collected
  else if is_list_mode raw_options then (fst (List w archive), w)
  else if is_extract_mode raw_options then Extract w archive codec_ collected
  else if is_append_mode raw_options then Append w archive codec_ collected
  else if is_delete_mode raw_options then Delete w archive codec_ collected
  else Concatenate w archive codec_ collected.

(** The number of file names a mode asks for. *)
Definition files_required (c : Command) : nat :=
  match c with
  | kCreate | kAppend | kDelete => 1
  | kConcatenate => 2
  | kList | kExtract | kNone => 0
  end.

(** Two modes at once, [--create --list]. *)
Definition example_two_modes : RawCliOptions :=
  {| is_create_mode := true; is_list_mode := true; is_extract_mode := false;
     is_append_mode := false; is_delete_mode := false; is_concatenate_mode := false;
     is_help_requested := false; raw_archive_path := "a.haf";
     hamming_data_bits := 8; hamming_parity_bits := 4 |}.

(** [--list -f a.haf] *)
Definition example_list_mode : RawCliOptions :=
  {| is_create_mode := false; is_list_mode := true; is_extract_mode := false;
     is_append_mode := false; is_delete_mode := false; is_concatenate_mode := false;
     is_help_requested := false; raw_archive_path := "a.haf";
     hamming_data_bits := 8; hamming_parity_bits := 4 |}.

(** * Properties of the block codec *)

(** A test of the program came out as computed: take the branch. *)
Ltac taken := simpl negb; cbv iota.

Tactic Notation "taken" "in" hyp(H) := simpl negb in H; cbv iota in H.

(** ** Bit-level facts about machine words *)

Lemma shl1_pow2 i : 0 <= i < 32 -> shl1 i = 2 ^ i.
Proof.
  intros H. unfold shl1, u32. rewrite Z.shiftl_1_l.
  apply Z.mod_small. split; [lia|]. apply Z.pow_lt_mono_r; lia.
Qed.

Lemma land_pow2_eqb a i : 0 <= i -> (Z.land a (2 ^ i) =? 0) = negb (Z.testbit a i).
Proof.
  intros Hi. destruct (Z.testbit a i) eqn:E; simpl.
  - apply Z.eqb_neq. intros H0.
    assert (H1 : Z.testbit (Z.land a (2 ^ i)) i = true)
      by (rewrite Z.land_spec, Z.pow2_bits_true, E by lia; reflexivity).
    rewrite H0, Z.bits_0 in H1. discriminate.
  - apply Z.eqb_eq. apply Z.bits_inj'. intros t Ht.
    rewrite Z.land_spec, Z.bits_0, Z.pow2_bits_eqb by lia.
    destruct (Z.eqb_spec i t) as [->|]; [rewrite E|]; apply andb_false_r || reflexivity.
Qed.

Lemma land_shiftr_1 a i : 0 <= i -> Z.land (Z.shiftr a i) 1 = Z.b2z (Z.testbit a i).
Proof.
  intros Hi. change 1 with (Z.ones 1). rewrite Z.land_ones by lia.
  rewrite Z.pow_1_r, <- Z.bit0_mod, Z.shiftr_spec by lia. reflexivity.
Qed.

Lemma land_shiftr_1_eqb a i : 0 <= i -> (Z.land (Z.shiftr a i) 1 =? 0) = negb (Z.testbit a i).
Proof. intros Hi. rewrite land_shiftr_1 by lia. destruct (Z.testbit a i); reflexivity. Qed.

Lemma lor_pow2_fresh a i :
  0 <= i -> Z.testbit a i = false -> Z.lor a (2 ^ i) = Z.lxor a (2 ^ i).
Proof.
  intros Hi E. apply Z.bits_inj'. intros t Ht.
  rewrite Z.lor_spec, Z.lxor_spec, Z.pow2_bits_eqb by lia.
  destruct (Z.eqb_spec i t) as [->|]; [rewrite E|]; destruct (Z.testbit a t); reflexivity.
Qed.

Lemma lxor_pow2_twice a i : Z.lxor (Z.lxor a (2 ^ i)) (2 ^ i) = a.
Proof. rewrite Z.lxor_assoc, Z.lxor_nilpotent, Z.lxor_0_r. reflexivity. Qed.

Lemma testbit_lxor_pow2 a i t :
  0 <= i -> 0 <= t -> Z.testbit (Z.lxor a (2 ^ i)) t = xorb (Z.testbit a t) (i =? t).
Proof. intros. rewrite Z.lxor_spec, Z.pow2_bits_eqb by lia. reflexivity. Qed.

Lemma pow2_inj i j : 0 <= i -> 0 <= j -> 2 ^ i = 2 ^ j -> i = j.
Proof. intros Hi Hj H. apply (Z.pow_inj_r 2); lia. Qed.

(** ** The loop combinators *)

Lemma for_range_snoc {S} len i (body : Z -> S -> S) s :
  for_range (Datatypes.S len) i body s = body (i + Z.of_nat len) (for_range len i body s).
Proof.
  revert i s. induction len as [|len IH]; intros i s.
  - simpl. f_equal. lia.
  - change (for_range (Datatypes.S (Datatypes.S len)) i body s)
      with (for_range (Datatypes.S len) (i + 1) body (body i s)).
    rewrite IH. simpl. f_equal. lia.
Qed.

(** The doubling loop leaves by its condition: an invariant indexed by the
    exponent holds at the first power of two above [total]. *)
Lemma doubling_loop_inv {S} (Inv : Z -> S -> Prop) (body : Z -> S -> S) total :
  (forall j s, 0 <= j -> 2 ^ j <= total -> Inv j s -> Inv (j + 1) (body (2 ^ j) s)) ->
  forall fuel j s, 0 <= j -> Inv j s -> total < 2 ^ (j + Z.of_nat fuel) ->
  exists j', j <= j' /\ total < 2 ^ j' /\ (j' = j \/ 2 ^ (j' - 1) <= total) /\
             Inv j' (doubling_loop fuel (2 ^ j) total body s).
Proof.
  intros Hstep. induction fuel as [|fuel IH]; intros j s Hj HI Hfuel.
  - exists j. rewrite Z.add_0_r in Hfuel. simpl. auto with lia.
  - simpl. destruct (Z.leb_spec (2 ^ j) total) as [Hle|Hgt].
    + destruct (Z.gtb_spec (2 ^ j) total) as [?|_]; [lia|].
      rewrite Z.shiftl_mul_pow2 by lia.
      replace (2 ^ j * 2 ^ 1) with (2 ^ (j + 1)) by (rewrite Z.pow_add_r by lia; lia).
      destruct (IH (j + 1) (body (2 ^ j) s)) as (j' & H1 & H2 & H3 & H4); [lia|auto| |].
      * replace (j + 1 + Z.of_nat fuel) with (j + Z.of_nat (Datatypes.S fuel)) by lia. exact Hfuel.
      * exists j'. repeat split; [lia|exact H2| |exact H4].
        right. destruct H3 as [->|H3]; [|exact H3].
        replace (j + 1 - 1) with j by lia. exact Hle.
    + exists j. auto with lia.
Qed.

Lemma pow2_gt_self n : n < 2 ^ (0 + Z.of_nat (Z.to_nat n)).
Proof.
  destruct (Z.le_gt_cases 0 n) as [H|H].
  - rewrite Z.add_0_l, Z2Nat.id by lia. apply Z.pow_gt_lin_r; lia.
  - rewrite Z2Nat.nonpos by lia. simpl. lia.
Qed.

(** More fuel does not change the result of the doubling loop. *)
Lemma doubling_loop_fuel {S} (body : Z -> S -> S) total fuel extra j s :
  0 <= j -> total < 2 ^ (j + Z.of_nat fuel) ->
  doubling_loop (fuel + extra) (2 ^ j) total body s = doubling_loop fuel (2 ^ j) total body s.
Proof.
  revert j s. induction fuel as [|fuel IH]; intros j s Hj Hfuel.
  - rewrite Z.add_0_r in Hfuel. destruct extra as [|extra]; [reflexivity|].
    simpl. destruct (Z.leb_spec (2 ^ j) total); [lia|reflexivity].
  - simpl. destruct (Z.leb_spec (2 ^ j) total) as [Hle|Hgt]; [|reflexivity].
    destruct (Z.gtb_spec (2 ^ j) total) as [?|_]; [lia|].
    rewrite Z.shiftl_mul_pow2 by lia.
    replace (2 ^ j * 2 ^ 1) with (2 ^ (j + 1)) by (rewrite Z.pow_add_r by lia; lia).
    apply IH; [lia|].
    replace (j + 1 + Z.of_nat fuel) with (j + Z.of_nat (Datatypes.S fuel)) by lia. exact Hfuel.
Qed.

(** ** What the loops of the block codec compute *)

Lemma dcount_bounds m : 0 <= dcount m <= Z.of_nat m.
Proof. induction m as [|m IH]; simpl dcount; [lia|]. destruct (is_parity_position _); lia. Qed.

Lemma dcount_mono a b : (a <= b)%nat -> dcount a <= dcount b.
Proof.
  induction 1 as [|b Hle IH]; [lia|]. simpl dcount. destruct (is_parity_position _); lia.
Qed.

Lemma covered_parity_loop cw p m :
  (m <= 32)%nat -> for_range m 1 (parity_step cw p) 0 = Z.b2z (cov cw p m).
Proof.
  induction m as [|m IH]; intros Hm; [reflexivity|].
  rewrite for_range_snoc, IH by lia. unfold parity_step. simpl cov.
  replace (1 + Z.of_nat m - 1) with (Z.of_nat m) by lia.
  rewrite shl1_pow2, land_pow2_eqb by lia.
  replace (1 + Z.of_nat m) with (Z.of_nat (Datatypes.S m)) by lia.
  fold (covers (Z.of_nat (Datatypes.S m)) p).
  destruct (covers _ p), (Z.testbit cw _), (cov cw p m); reflexivity.
Qed.

Lemma covered_parity_spec cw n p :
  0 <= n <= 32 -> covered_parity cw n p = Z.b2z (cov cw p (Z.to_nat n)).
Proof. intros Hn. apply covered_parity_loop. lia. Qed.

Lemma covered_parity_eqb cw n p :
  0 <= n <= 32 -> negb (covered_parity cw n p =? 0) = cov cw p (Z.to_nat n).
Proof. intros Hn. rewrite covered_parity_spec by lia. destruct (cov _ _ _); reflexivity. Qed.

(** Flipping the bit of position [q] flips exactly the checks that cover it. *)
Lemma cov_flip cw p q m :
  1 <= q ->
  cov (Z.lxor cw (2 ^ (q - 1))) p m = xorb (cov cw p m) ((q <=? Z.of_nat m) && covers q p).
Proof.
  intros Hq. induction m as [|m IH].
  - simpl. destruct (Z.leb_spec q (Z.of_nat 0)); [lia|reflexivity].
  - simpl cov. rewrite IH, testbit_lxor_pow2 by lia.
    destruct (Z.eqb_spec (q - 1) (Z.of_nat m)) as [E|E].
    + replace (Z.of_nat (Datatypes.S m)) with q by lia.
      destruct (Z.leb_spec q (Z.of_nat m)); [lia|].
      destruct (Z.leb_spec q q); [|lia].
      destruct (cov cw p m), (covers q p), (Z.testbit cw _); reflexivity.
    + destruct (Z.leb_spec q (Z.of_nat m)), (Z.leb_spec q (Z.of_nat (Datatypes.S m))); try lia;
        destruct (cov cw p m), (covers q p), (covers _ p), (Z.testbit cw _); reflexivity.
Qed.

Lemma covers_pow2 q t : 0 <= t -> covers q (2 ^ t) = Z.testbit q t.
Proof. intros Ht. unfold covers. rewrite land_pow2_eqb by lia. apply negb_involutive. Qed.

Lemma covers_pow2_pow2 i j : 0 <= i -> 0 <= j -> covers (2 ^ i) (2 ^ j) = (i =? j).
Proof. intros Hi Hj. rewrite covers_pow2, Z.pow2_bits_eqb by lia. reflexivity. Qed.

Lemma is_parity_pow2 j : 0 <= j -> is_parity_position (2 ^ j) = true.
Proof.
  intros Hj. unfold is_parity_position. apply Z.eqb_eq.
  replace (2 ^ j - 1) with (Z.ones j) by (rewrite Z.ones_equiv; lia).
  rewrite Z.land_ones by lia. apply Z.mod_same. pose proof (Z.pow_pos_nonneg 2 j). lia.
Qed.

(** A position that passes the test of the code is a power of two. *)
Lemma is_parity_position_pow2 p :
  1 <= p -> is_parity_position p = true -> exists j, 0 <= j /\ p = 2 ^ j.
Proof.
  intros Hp H. unfold is_parity_position in H. apply Z.eqb_eq in H.
  exists (Z.log2 p). split; [apply Z.log2_nonneg|].
  destruct (Z.log2_spec p) as [Hlo Hhi]; [lia|].
  destruct (Z.eq_dec p (2 ^ Z.log2 p)) as [E|E]; [exact E|exfalso].
  pose proof (Z.pow_pos_nonneg 2 (Z.log2 p) ltac:(lia) (Z.log2_nonneg p)) as Hpos.
  assert (E2 : Z.log2 (p - 1) = Z.log2 p).
  { apply Z.log2_unique; [apply Z.log2_nonneg|]. lia. }
  assert (Hb : Z.testbit (Z.land p (p - 1)) (Z.log2 p) = true).
  { rewrite Z.land_spec, Z.bit_log2 by lia. rewrite <- E2. rewrite Z.bit_log2 by lia.
    reflexivity. }
  rewrite H, Z.bits_0 in Hb. discriminate.
Qed.

(** The first loop of [EncodeBlock]. *)
Lemma place_loop d m :
  (m <= 32)%nat ->
  let st := for_range m 1 (place_step d) (0, 0) in
  snd st = dcount m /\
  forall t, 0 <= t ->
    Z.testbit (fst st) t =
      (t <? Z.of_nat m) && negb (is_parity_position (t + 1)) && Z.testbit d (dcount (Z.to_nat t)).
Proof.
  induction m as [|m IH]; intros Hm.
  - simpl. split; [reflexivity|]. intros t Ht. rewrite Z.bits_0.
    destruct (Z.ltb_spec t (Z.of_nat 0)); [lia|reflexivity].
  - cbv zeta. rewrite for_range_snoc.
    destruct IH as [IH1 IH2]; [lia|]. cbv zeta in IH1, IH2.
    destruct (for_range m 1 (place_step d) (0, 0)) as [cw di]. simpl in IH1, IH2. subst di.
    unfold place_step.
    replace (1 + Z.of_nat m) with (Z.of_nat (Datatypes.S m)) by lia.
    simpl dcount.
    destruct (is_parity_position (Z.of_nat (Datatypes.S m))) eqn:Epar.
    + simpl. split; [lia|]. intros t Ht. rewrite IH2 by lia.
      destruct (Z.ltb_spec t (Z.of_nat m)), (Z.ltb_spec t (Z.of_nat (Datatypes.S m))); try lia; try reflexivity.
      replace (t + 1) with (Z.of_nat (Datatypes.S m)) by lia. rewrite Epar. reflexivity.
    + pose proof (dcount_bounds m) as Hd.
      rewrite land_shiftr_1_eqb, negb_involutive by lia.
      replace (Z.of_nat (Datatypes.S m) - 1) with (Z.of_nat m) by lia.
      rewrite shl1_pow2 by lia.
      simpl. split; [lia|]. intros t Ht.
      destruct (Z.eq_dec t (Z.of_nat m)) as [->|Hne].
      * rewrite Nat2Z.id.
        replace (Z.of_nat m + 1) with (Z.of_nat (Datatypes.S m)) by lia. rewrite Epar.
        destruct (Z.ltb_spec (Z.of_nat m) (Z.of_nat (Datatypes.S m))); [|lia]. simpl.
        destruct (Z.testbit d (dcount m)) eqn:Eb.
        -- rewrite Z.lor_spec, Z.pow2_bits_true by lia. apply orb_true_r.
        -- rewrite IH2 by lia. destruct (Z.ltb_spec (Z.of_nat m) (Z.of_nat m)); [lia|reflexivity].
      * assert (Hcw : Z.testbit (if Z.testbit d (dcount m) then Z.lor cw (2 ^ Z.of_nat m) else cw) t
                      = Z.testbit cw t).
        { destruct (Z.testbit d (dcount m)); [|reflexivity].
          rewrite Z.lor_spec, Z.pow2_bits_false by lia. apply orb_false_r. }
        rewrite Hcw, IH2 by lia.
        destruct (Z.ltb_spec t (Z.of_nat m)), (Z.ltb_spec t (Z.of_nat (Datatypes.S m))); try lia; reflexivity.
Qed.

Lemma place_data_bits d n t :
  0 <= n <= 32 -> 0 <= t ->
  Z.testbit (place_data d n) t =
    (t <? n) && negb (is_parity_position (t + 1)) && Z.testbit d (dcount (Z.to_nat t)).
Proof.
  intros Hn Ht. unfold place_data.
  destruct (place_loop d (Z.to_nat n)) as [_ H]; [lia|]. rewrite H by lia.
  rewrite Z2Nat.id by lia. reflexivity.
Qed.

Lemma bits_above_bound a n :
  0 <= n -> (forall t, n <= t -> Z.testbit a t = false) -> 0 <= a < 2 ^ n.
Proof.
  intros Hn H.
  assert (Ha : 0 <= a) by (apply Z.bits_iff_nonneg_ex; exists n; intros m Hm; apply H; lia).
  split; [exact Ha|].
  destruct (Z.eq_dec a 0) as [->|Hne]; [apply Z.pow_pos_nonneg; lia|].
  apply Z.log2_lt_pow2; [lia|].
  destruct (Z.lt_ge_cases (Z.log2 a) n) as [|Hge]; [assumption|].
  pose proof (Z.bit_log2 a ltac:(lia)) as Hb. rewrite H in Hb; [discriminate|lia].
Qed.

(** ** The parity loop of [EncodeBlock] *)

Section ParityLoop.
Variables (d n : Z).
Hypothesis Hn : 0 <= n <= 32.

Lemma enc_inv_init : enc_inv d n 0 (place_data d n).
Proof.
  repeat split.
  - intros i Hi. pose proof (Z.pow_pos_nonneg 2 i ltac:(lia) Hi).
    rewrite place_data_bits by lia.
    replace (2 ^ i - 1 + 1) with (2 ^ i) by lia. rewrite is_parity_pow2 by lia.
    simpl. rewrite andb_false_r. reflexivity.
  - intros i Hi. lia.
  - intros t Ht. rewrite place_data_bits by lia.
    destruct (Z.ltb_spec t n); [lia|reflexivity].
Qed.

Lemma enc_inv_step j cw :
  0 <= j -> 2 ^ j <= n -> enc_inv d n j cw ->
  enc_inv d n (j + 1) (fill_parity_step n (2 ^ j) cw).
Proof.
  intros Hj Hle (Ha & Hb & Hc & Hd).
  pose proof (Z.pow_pos_nonneg 2 j ltac:(lia) Hj) as Hpos.
  unfold fill_parity_step. rewrite covered_parity_eqb by lia.
  destruct (cov cw (2 ^ j) (Z.to_nat n)) eqn:Ecov.
  - rewrite shl1_pow2 by lia. rewrite lor_pow2_fresh by (try apply Hb; lia).
    repeat split.
    + intros t Ht Hnp. rewrite testbit_lxor_pow2 by lia.
      destruct (Z.eqb_spec (2 ^ j - 1) t) as [E|E].
      * exfalso. apply (Hnp j Hj). lia.
      * rewrite xorb_false_r. apply Ha; assumption.
    + intros i Hi.
      pose proof (Z.pow_pos_nonneg 2 i ltac:(lia) ltac:(lia)).
      rewrite testbit_lxor_pow2 by lia.
      destruct (Z.eqb_spec (2 ^ j - 1) (2 ^ i - 1)) as [E|E].
      * assert (j = i) by (apply pow2_inj; lia). lia.
      * rewrite xorb_false_r. apply Hb. lia.
    + intros i Hi. rewrite cov_flip by lia. rewrite Z2Nat.id by lia.
      destruct (Z.leb_spec (2 ^ j) n); [|lia]. rewrite covers_pow2_pow2 by lia. simpl.
      destruct (Z.eqb_spec j i) as [->|E].
      * rewrite Ecov. reflexivity.
      * rewrite Hc by lia. reflexivity.
    + intros t Ht. rewrite testbit_lxor_pow2 by lia.
      destruct (Z.eqb_spec (2 ^ j - 1) t); [lia|]. rewrite xorb_false_r. apply Hd. lia.
  - repeat split; auto.
    + intros i Hi. apply Hb. lia.
    + intros i Hi. destruct (Z.eq_dec i j) as [->|]; [exact Ecov|apply Hc; lia].
Qed.

Lemma EncodeBlock_inv k r :
  k + r = n -> exists j, n < 2 ^ j /\ enc_inv d n j (EncodeBlock (codec k r) d).
Proof.
  intros Hkr. unfold EncodeBlock. simpl total_bits_. rewrite Hkr.
  destruct (doubling_loop_inv (enc_inv d n) (fill_parity_step n) n enc_inv_step
              (Z.to_nat n) 0 (place_data d n)) as (j & H1 & H2 & H3 & H4).
  - lia.
  - apply enc_inv_init.
  - apply pow2_gt_self.
  - exists j. split; [exact H2|exact H4].
Qed.
End ParityLoop.

(** ** The syndrome *)

Lemma CalculateSyndrome_bits cw n :
  0 <= n <= 32 ->
  exists j, 0 <= j /\ n < 2 ^ j /\ (j = 0 \/ 2 ^ (j - 1) <= n) /\
    forall t, 0 <= t ->
      Z.testbit (CalculateSyndrome cw n) t = (t <? j) && cov cw (2 ^ t) (Z.to_nat n).
Proof.
  intros Hn. unfold CalculateSyndrome.
  set (body := fun parity_position syndrome : Z =>
                 if negb (covered_parity cw n parity_position =? 0)
                 then Z.lor syndrome parity_position else syndrome).
  set (Inv := fun (j syn : Z) =>
                forall t, 0 <= t -> Z.testbit syn t = (t <? j) && cov cw (2 ^ t) (Z.to_nat n)).
  destruct (doubling_loop_inv Inv body n) with (fuel := Z.to_nat n) (j := 0) (s := 0)
    as (j & H1 & H2 & H3 & H4).
  - intros j s Hj Hle HI t Ht. unfold body. rewrite covered_parity_eqb by lia.
    destruct (Z.eq_dec t j) as [->|Hne].
    + destruct (Z.ltb_spec j (j + 1)); [|lia]. simpl.
      destruct (cov cw (2 ^ j) (Z.to_nat n)) eqn:E.
      * rewrite Z.lor_spec, Z.pow2_bits_true by lia. apply orb_true_r.
      * rewrite HI by lia. destruct (Z.ltb_spec j j); [lia|reflexivity].
    + assert (Hs : Z.testbit (if cov cw (2 ^ j) (Z.to_nat n) then Z.lor s (2 ^ j) else s) t
                   = Z.testbit s t).
      { destruct (cov cw (2 ^ j) _); [|reflexivity].
        rewrite Z.lor_spec, Z.pow2_bits_false by lia. apply orb_false_r. }
      rewrite Hs, HI by lia.
      destruct (Z.ltb_spec t j), (Z.ltb_spec t (j + 1)); try lia; reflexivity.
  - lia.
  - intros t Ht. rewrite Z.bits_0. destruct (Z.ltb_spec t 0); [lia|reflexivity].
  - apply pow2_gt_self.
  - exists j. repeat split; try assumption; lia.
Qed.

Lemma CalculateSyndrome_zero cw n :
  0 <= n <= 32 -> checks_pass cw n -> CalculateSyndrome cw n = 0.
Proof.
  intros Hn Hc. destruct (CalculateSyndrome_bits cw n Hn) as (j & Hj & H1 & H2 & H3).
  apply Z.bits_inj'. intros t Ht. rewrite H3, Z.bits_0 by lia.
  destruct (Z.ltb_spec t j) as [Hlt|]; [|reflexivity]. simpl.
  apply Hc; [lia|]. destruct H2 as [->|H2]; [lia|].
  transitivity (2 ^ (j - 1)); [apply Z.pow_le_mono_r; lia|exact H2].
Qed.

Lemma CalculateSyndrome_flip cw n q :
  0 <= n <= 32 -> checks_pass cw n -> 1 <= q <= n ->
  CalculateSyndrome (Z.lxor cw (2 ^ (q - 1))) n = q.
Proof.
  intros Hn Hc Hq.
  destruct (CalculateSyndrome_bits (Z.lxor cw (2 ^ (q - 1))) n Hn) as (j & Hj & H1 & H2 & H3).
  apply Z.bits_inj'. intros t Ht. rewrite H3, cov_flip by lia.
  rewrite Z2Nat.id by lia. destruct (Z.leb_spec q n); [|lia]. simpl.
  rewrite covers_pow2 by lia.
  destruct (Z.ltb_spec t j) as [Hlt|Hge]; simpl.
  - rewrite Hc; [reflexivity|lia|]. destruct H2 as [->|H2]; [lia|].
    transitivity (2 ^ (j - 1)); [apply Z.pow_le_mono_r; lia|exact H2].
  - symmetry. apply Z.bits_above_log2; [lia|].
    apply Z.log2_lt_pow2; [lia|].
    assert (2 ^ j <= 2 ^ t) by (apply Z.pow_le_mono_r; lia). lia.
Qed.

(** ** Extraction of the data bits *)

Lemma extract_loop cw d m :
  (m <= 32)%nat ->
  (forall t, 0 <= t < Z.of_nat m -> is_parity_position (t + 1) = false ->
             Z.testbit cw t = Z.testbit d (dcount (Z.to_nat t))) ->
  for_range m 1 (extract_step cw) (0, 0) = (d mod 2 ^ dcount m, dcount m).
Proof.
  induction m as [|m IH]; intros Hm Hbits.
  - simpl. rewrite Z.mod_1_r. reflexivity.
  - rewrite for_range_snoc.
    rewrite IH; [|lia|intros; apply Hbits; [lia|assumption]].
    unfold extract_step.
    replace (1 + Z.of_nat m) with (Z.of_nat (Datatypes.S m)) by lia.
    simpl dcount. pose proof (dcount_bounds m) as Hd.
    destruct (is_parity_position (Z.of_nat (Datatypes.S m))) eqn:Epar.
    + rewrite Z.add_0_r. reflexivity.
    + replace (Z.of_nat (Datatypes.S m) - 1) with (Z.of_nat m) by lia.
      rewrite land_shiftr_1_eqb, negb_involutive by lia.
      rewrite Hbits by (try lia; replace (Z.of_nat m + 1) with (Z.of_nat (Datatypes.S m)) by lia;
                        exact Epar).
      rewrite Nat2Z.id, shl1_pow2 by lia.
      f_equal. apply Z.bits_inj'. intros t Ht.
      rewrite Z.testbit_mod_pow2 by lia.
      destruct (Z.eq_dec t (dcount m)) as [->|Hne].
      * destruct (Z.ltb_spec (dcount m) (dcount m + 1)); [|lia]. simpl.
        destruct (Z.testbit d (dcount m)) eqn:Eb.
        -- rewrite Z.lor_spec, Z.pow2_bits_true by lia. apply orb_true_r.
        -- rewrite Z.testbit_mod_pow2 by lia.
           destruct (Z.ltb_spec (dcount m) (dcount m)); [lia|reflexivity].
      * assert (Hs : Z.testbit (if Z.testbit d (dcount m)
                               then Z.lor (d mod 2 ^ dcount m) (2 ^ dcount m)
                               else d mod 2 ^ dcount m) t
                     = Z.testbit (d mod 2 ^ dcount m) t).
        { destruct (Z.testbit d (dcount m)); [|reflexivity].
          rewrite Z.lor_spec, Z.pow2_bits_false by lia. apply orb_false_r. }
        rewrite Hs, Z.testbit_mod_pow2 by lia.
        destruct (Z.ltb_spec t (dcount m)), (Z.ltb_spec t (dcount m + 1)); try lia; reflexivity.
Qed.

(** ** Codewords *)

Section Codeword.
Variables (k r d : Z).
Hypothesis Hn : 0 <= k + r <= 32.

Lemma EncodeBlock_checks : checks_pass (EncodeBlock (codec k r) d) (k + r).
Proof.
  destruct (EncodeBlock_inv d (k + r) Hn k r eq_refl) as (j & Hj & _ & _ & Hc & _).
  intros i Hi Hle. apply Hc. split; [exact Hi|].
  destruct (Z.lt_ge_cases i j) as [|Hge]; [assumption|].
  assert (2 ^ j <= 2 ^ i) by (apply Z.pow_le_mono_r; lia). lia.
Qed.

Lemma EncodeBlock_high_bits t :
  k + r <= t -> Z.testbit (EncodeBlock (codec k r) d) t = false.
Proof.
  destruct (EncodeBlock_inv d (k + r) Hn k r eq_refl) as (j & Hj & _ & _ & _ & Hd).
  apply Hd.
Qed.

Lemma EncodeBlock_range : 0 <= EncodeBlock (codec k r) d < 2 ^ (k + r).
Proof. apply bits_above_bound; [lia|]. apply EncodeBlock_high_bits. Qed.

Lemma EncodeBlock_data_bits t :
  0 <= t < k + r -> is_parity_position (t + 1) = false ->
  Z.testbit (EncodeBlock (codec k r) d) t = Z.testbit d (dcount (Z.to_nat t)).
Proof.
  intros Ht Hpar.
  destruct (EncodeBlock_inv d (k + r) Hn k r eq_refl) as (j & Hj & Ha & _).
  rewrite Ha.
  - rewrite place_data_bits, Hpar by lia.
    destruct (Z.ltb_spec t (k + r)); [reflexivity|lia].
  - lia.
  - intros i Hi E. rewrite E, is_parity_pow2 in Hpar by lia. discriminate.
Qed.

Lemma ExtractDataBits_EncodeBlock :
  ExtractDataBits (EncodeBlock (codec k r) d) (k + r) = d mod 2 ^ data_capacity (k + r).
Proof.
  unfold ExtractDataBits, data_capacity. rewrite (extract_loop _ d); [reflexivity|lia|].
  intros t Ht Hpar. apply EncodeBlock_data_bits; [lia|exact Hpar].
Qed.

Lemma DecodeBlock_EncodeBlock :
  DecodeBlock (codec k r) (EncodeBlock (codec k r) d) = (d mod 2 ^ data_capacity (k + r), false).
Proof.
  unfold DecodeBlock. simpl total_bits_.
  rewrite (CalculateSyndrome_zero _ _ Hn EncodeBlock_checks). simpl.
  rewrite (CalculateSyndrome_zero _ _ Hn EncodeBlock_checks). simpl.
  rewrite ExtractDataBits_EncodeBlock. reflexivity.
Qed.

Lemma DecodeBlock_flipped i :
  0 <= i < k + r ->
  DecodeBlock (codec k r) (Z.lxor (EncodeBlock (codec k r) d) (Z.shiftl 1 i))
    = (d mod 2 ^ data_capacity (k + r), false).
Proof.
  intros Hi. rewrite Z.shiftl_1_l.
  assert (Hs : CalculateSyndrome (Z.lxor (EncodeBlock (codec k r) d) (2 ^ i)) (k + r) = i + 1).
  { replace i with (i + 1 - 1) at 1 by lia.
    apply CalculateSyndrome_flip; [exact Hn|exact EncodeBlock_checks|lia]. }
  unfold DecodeBlock. simpl total_bits_. rewrite Hs.
  destruct (Z.eqb_spec (i + 1) 0); [lia|]. simpl.
  destruct (Z.leb_spec (i + 1) (k + r)); [|lia].
  replace (i + 1 - 1) with i by lia.
  rewrite shl1_pow2, lxor_pow2_twice by lia.
  rewrite (CalculateSyndrome_zero _ _ Hn EncodeBlock_checks). simpl.
  rewrite ExtractDataBits_EncodeBlock. reflexivity.
Qed.

Lemma place_data_low_bits :
  place_data d (k + r) = place_data (d mod 2 ^ data_capacity (k + r)) (k + r).
Proof.
  apply Z.bits_inj'. intros t Ht. rewrite !place_data_bits by lia.
  destruct (Z.ltb_spec t (k + r)) as [Hlt|]; [|reflexivity].
  destruct (is_parity_position (t + 1)) eqn:Epar; [reflexivity|]. simpl.
  symmetry. apply Z.mod_pow2_bits_low. unfold data_capacity.
  assert (Hd : dcount (Datatypes.S (Z.to_nat t)) <= dcount (Z.to_nat (k + r)))
    by (apply dcount_mono; lia).
  simpl dcount in Hd.
  replace (Z.of_nat (Datatypes.S (Z.to_nat t))) with (t + 1) in Hd by lia.
  rewrite Epar in Hd. lia.
Qed.

Lemma EncodeBlock_low_bits :
  EncodeBlock (codec k r) d = EncodeBlock (codec k r) (d mod 2 ^ data_capacity (k + r)).
Proof. unfold EncodeBlock. simpl total_bits_. rewrite place_data_low_bits. reflexivity. Qed.
End Codeword.

(** ** Parameters of a proper Hamming code *)

Lemma capacity_of_valid_options k r :
  1 <= k <= 16 -> 1 <= r <= 8 -> k + r + 1 <= 2 ^ r -> k <= data_capacity (k + r).
Proof.
  intros Hk Hr Hv.
  assert (Ek : k = 1 \/ k = 2 \/ k = 3 \/ k = 4 \/ k = 5 \/ k = 6 \/ k = 7 \/ k = 8 \/
               k = 9 \/ k = 10 \/ k = 11 \/ k = 12 \/ k = 13 \/ k = 14 \/ k = 15 \/ k = 16) by lia.
  assert (Er : r = 1 \/ r = 2 \/ r = 3 \/ r = 4 \/ r = 5 \/ r = 6 \/ r = 7 \/ r = 8) by lia.
  clear Hk Hr.
  repeat (destruct Ek as [Ek|Ek]); subst k;
    repeat (destruct Er as [Er|Er]); subst r;
    first [ exfalso; lia | vm_compute; discriminate ].
Qed.

Lemma mod_capacity_small k r d :
  1 <= k <= 16 -> 1 <= r <= 8 -> k + r + 1 <= 2 ^ r -> 0 <= d < 2 ^ k ->
  d mod 2 ^ data_capacity (k + r) = d.
Proof.
  intros Hk Hr Hv Hd. apply Z.mod_small. split; [lia|].
  apply Z.lt_le_trans with (2 ^ k); [lia|].
  apply Z.pow_le_mono_r; [lia|]. apply capacity_of_valid_options; assumption.
Qed.

(** The checks of the command line accept parameters that are not those
    of a proper Hamming code. *)
Lemma validators_accept_improper_code :
  ValidateHammingDataBits 1 = true /\ ValidateHammingParityBits 1 = true /\
  ~ (1 + 1 + 1 <= 2 ^ 1).
Proof. split; [reflexivity|]. split; [reflexivity|]. simpl. lia. Qed.

Lemma validators_range k r :
  ValidateHammingDataBits k = true -> ValidateHammingParityBits r = true ->
  1 <= k <= 16 /\ 1 <= r <= 8.
Proof.
  unfold ValidateHammingDataBits, ValidateHammingParityBits.
  intros Hk Hr. apply andb_true_iff in Hk as [Hk1 Hk2]. apply andb_true_iff in Hr as [Hr1 Hr2].
  apply Z.ltb_lt in Hk1, Hr1. apply Z.leb_le in Hk2, Hr2. lia.
Qed.

(** C2, as stated, fails: with [k = 1], [r = 1] both positions of the
    codeword are parity positions, no data bit is stored, and data value 1
    comes back as 0. *)
Lemma C2_counterexample_1_1 :
  ~ (forall k r d i,
       1 <= k <= 16 -> 1 <= r <= 8 -> 0 <= d < 2 ^ k -> 0 <= i < k + r ->
       DecodeBlock (codec k r) (Z.lxor (EncodeBlock (codec k r) d) (Z.shiftl 1 i)) = (d, false)).
Proof.
  intros H. specialize (H 1 1 1 0 ltac:(lia) ltac:(lia) ltac:(lia) ltac:(lia)).
  vm_compute in H. discriminate H.
Qed.

(** C2, amended: for the parameters of a proper Hamming code,
    [2^r >= k + r + 1], every data value [d < 2^k] is recovered without an
    error flag from its codeword with any single bit [i < k + r] flipped. *)
Theorem C2_single_bit_corrected k r d i :
  1 <= k <= 16 -> 1 <= r <= 8 -> k + r + 1 <= 2 ^ r ->
  0 <= d < 2 ^ k -> 0 <= i < k + r ->
  DecodeBlock (codec k r) (Z.lxor (EncodeBlock (codec k r) d) (Z.shiftl 1 i)) = (d, false).
Proof.
  intros Hk Hr Hv Hd Hi.
  rewrite DecodeBlock_flipped by lia.
  rewrite mod_capacity_small by assumption. reflexivity.
Qed.

Lemma C2_witness_8_4 :
  1 <= 8 <= 16 /\ 1 <= 4 <= 8 /\ 8 + 4 + 1 <= 2 ^ 4 /\ 0 <= 173 < 2 ^ 8 /\ 0 <= 2 < 8 + 4 /\
  DecodeBlock (codec 8 4) (Z.lxor (EncodeBlock (codec 8 4) 173) (Z.shiftl 1 2)) = (173, false).
Proof.
  do 5 (split; [simpl; lia|]).
  apply C2_single_bit_corrected; simpl; lia.
Defined.

(** C10: for every 32-bit data value the codeword of [EncodeBlock] has
    bits only at the positions [1..k+r] (bit indices below [k+r]), so it is
    below [2^(k+r)], and it depends only on the low [data_capacity (k+r)]
    bits of the data value, one for every position of [1..k+r] that is not
    a power of two. *)
Theorem C10_codeword_bounded k r d :
  1 <= k <= 16 -> 1 <= r <= 8 -> 0 <= d < 2 ^ 32 ->
  0 <= EncodeBlock (codec k r) d < 2 ^ (k + r) /\
  (forall t, Z.testbit (EncodeBlock (codec k r) d) t = true -> 0 <= t < k + r) /\
  (forall d', 0 <= d' < 2 ^ 32 ->
     d' mod 2 ^ data_capacity (k + r) = d mod 2 ^ data_capacity (k + r) ->
     EncodeBlock (codec k r) d' = EncodeBlock (codec k r) d).
Proof.
  intros Hk Hr Hd.
  assert (Hn : 0 <= k + r <= 32) by lia.
  split; [apply EncodeBlock_range; exact Hn|]. split.
  - intros t Ht. destruct (Z.lt_ge_cases t 0) as [Hneg|Hpos].
    + rewrite Z.testbit_neg_r in Ht by lia. discriminate.
    + destruct (Z.lt_ge_cases t (k + r)) as [|Hge]; [lia|].
      rewrite EncodeBlock_high_bits in Ht by lia. discriminate.
  - intros d' Hd' E.
    rewrite (EncodeBlock_low_bits k r d' Hn), (EncodeBlock_low_bits k r d Hn), E. reflexivity.
Qed.

Lemma C10_witness_4_3 :
  1 <= 4 <= 16 /\ 1 <= 3 <= 8 /\ 0 <= 0xFB < 2 ^ 32 /\
  0 <= EncodeBlock (codec 4 3) 0xFB < 2 ^ (4 + 3) /\
  EncodeBlock (codec 4 3) 0x0B = EncodeBlock (codec 4 3) 0xFB.
Proof.
  do 3 (split; [simpl; lia|]).
  destruct (C10_codeword_bounded 4 3 0xFB) as (H1 & _ & H3); [lia|lia|lia|].
  split; [exact H1|]. apply H3; [lia|reflexivity].
Defined.

(** * Properties of the stream codec *)

(** ** Bit sequences, least significant bit first *)

Lemma length_value_bits len z : length (value_bits len z) = len.
Proof. unfold value_bits. rewrite length_map, length_seq. reflexivity. Qed.

Lemma value_bits_cons len z :
  value_bits (Datatypes.S len) z = Z.testbit z 0 :: value_bits len (Z.shiftr z 1).
Proof.
  unfold value_bits. simpl. f_equal. rewrite <- seq_shift, map_map.
  apply map_ext. intros i. rewrite Z.shiftr_spec by lia. f_equal. lia.
Qed.

Lemma value_bits_snoc len z :
  value_bits (Datatypes.S len) z = value_bits len z ++ [Z.testbit z (Z.of_nat len)].
Proof. unfold value_bits. rewrite seq_S, map_app. reflexivity. Qed.

Lemma bits_value_bounds l : 0 <= bits_value l < 2 ^ Z.of_nat (length l).
Proof.
  induction l as [|b l IH]; simpl bits_value; simpl length; [simpl; lia|].
  rewrite Nat2Z.inj_succ, Z.pow_succ_r by lia. destruct b; simpl; lia.
Qed.

Lemma bits_value_snoc l b :
  bits_value (l ++ [b]) = bits_value l + 2 ^ Z.of_nat (length l) * Z.b2z b.
Proof.
  induction l as [|a l IH]; simpl bits_value; simpl length.
  - simpl. lia.
  - rewrite IH, Nat2Z.inj_succ, Z.pow_succ_r by lia. lia.
Qed.

Lemma lor_pow2_add a c : 0 <= c -> 0 <= a < 2 ^ c -> Z.lor a (2 ^ c) = a + 2 ^ c.
Proof.
  intros Hc Ha. pose proof (Z.add_lor_land a (2 ^ c)) as Hadd.
  assert (E : Z.land a (2 ^ c) = 0).
  { apply Z.eqb_eq. rewrite land_pow2_eqb by lia.
    destruct (Z.eq_dec a 0) as [->|]; [rewrite Z.bits_0; reflexivity|].
    rewrite Z.bits_above_log2; [reflexivity|lia|]. apply Z.log2_lt_pow2; lia. }
  rewrite E in Hadd. lia.
Qed.

(** Setting bit [length l] of the value of [l] appends a bit. *)
Lemma bits_value_push l (bit_value : Z) (b : bool) :
  bit_value = Z.b2z b -> Z.of_nat (length l) < 32 ->
  (if negb (bit_value =? 0) then Z.lor (bits_value l) (shl1 (Z.of_nat (length l)))
   else bits_value l) = bits_value (l ++ [b]).
Proof.
  intros -> Hlen. rewrite bits_value_snoc. pose proof (bits_value_bounds l).
  destruct b; simpl.
  - rewrite shl1_pow2, lor_pow2_add by lia. lia.
  - lia.
Qed.

Lemma value_bits_of_bits l len :
  (length l <= len)%nat ->
  value_bits len (bits_value l) = l ++ repeat false (len - length l).
Proof.
  revert len. induction l as [|b l IH]; intros len Hl.
  - simpl. rewrite Nat.sub_0_r. unfold value_bits. clear Hl.
    induction len as [|len IHlen]; [reflexivity|].
    rewrite seq_S, map_app, IHlen. simpl. rewrite Z.bits_0.
    change [false] with (repeat false 1). rewrite <- repeat_app.
    replace (len + 1)%nat with (Datatypes.S len) by lia. reflexivity.
  - destruct len as [|len]; [simpl in Hl; lia|].
    rewrite value_bits_cons. simpl bits_value. simpl length. simpl in Hl.
    replace (Datatypes.S len - Datatypes.S (length l))%nat with (len - length l)%nat by lia.
    rewrite <- app_comm_cons. f_equal.
    + rewrite Z.add_comm, Z.testbit_0_r. reflexivity.
    + rewrite Z.shiftr_div_pow2 by lia. rewrite Z.pow_1_r.
      replace ((Z.b2z b + 2 * bits_value l) / 2) with (bits_value l); [apply IH; lia|].
      rewrite Z.add_comm, Z.mul_comm, Z.div_add_l by lia.
      destruct b; simpl; rewrite ?Z.div_small by lia; lia.
Qed.

Lemma value_bits_bits_value l : value_bits (length l) (bits_value l) = l.
Proof. rewrite value_bits_of_bits, Nat.sub_diag by lia. apply app_nil_r. Qed.

Lemma bits_value_value_bits len z : bits_value (value_bits len z) = z mod 2 ^ Z.of_nat len.
Proof.
  revert z. induction len as [|len IH]; intros z.
  - simpl. rewrite Z.mod_1_r. reflexivity.
  - rewrite value_bits_cons.
    change (bits_value (Z.testbit z 0 :: value_bits len (Z.shiftr z 1)))
      with (Z.b2z (Z.testbit z 0) + 2 * bits_value (value_bits len (Z.shiftr z 1))).
    rewrite IH.
    rewrite Z.shiftr_div_pow2, Z.pow_1_r by lia.
    rewrite Nat2Z.inj_succ, Z.pow_succ_r by lia.
    rewrite Z.bit0_mod.
    pose proof (Z.pow_pos_nonneg 2 (Z.of_nat len) ltac:(lia) ltac:(lia)).
    rewrite Z.rem_mul_r by lia. lia.
Qed.

(** ** Bytes *)

Lemma byte_to_Z_range b : 0 <= byte_to_Z b < 256.
Proof. unfold byte_to_Z. pose proof (Byte.to_N_bounded b). lia. Qed.

Lemma byte_of_to_Z b : byte_of_Z (byte_to_Z b) = b.
Proof.
  unfold byte_of_Z, u8. pose proof (byte_to_Z_range b).
  rewrite Z.mod_small by (simpl; lia). unfold byte_to_Z.
  rewrite N2Z.id, Byte.of_to_N. reflexivity.
Qed.

Lemma byte_of_bits l : (length l <= 8)%nat ->
  byte_bits (byte_of_Z (bits_value l)) = l ++ repeat false (8 - length l).
Proof.
  intros Hl. unfold byte_bits. rewrite <- (value_bits_of_bits l 8 Hl). f_equal.
  pose proof (bits_value_bounds l) as Hb.
  assert (Hlt : bits_value l < 256).
  { apply Z.lt_le_trans with (2 ^ Z.of_nat (length l)); [lia|].
    change 256 with (2 ^ 8). apply Z.pow_le_mono_r; lia. }
  unfold byte_of_Z, u8. rewrite Z.mod_small by (simpl; lia).
  destruct (Byte.of_N (Z.to_N (bits_value l))) as [b|] eqn:E.
  - simpl. apply Byte.to_of_N in E. unfold byte_to_Z. rewrite E. lia.
  - apply Byte.of_N_None_iff in E. lia.
Qed.

Lemma byte_bits_value b : byte_of_Z (bits_value (byte_bits b)) = b.
Proof.
  unfold byte_bits. rewrite bits_value_value_bits.
  pose proof (byte_to_Z_range b). rewrite Z.mod_small by (simpl; lia). apply byte_of_to_Z.
Qed.

Lemma length_byte_bits b : length (byte_bits b) = 8%nat.
Proof. apply length_value_bits. Qed.

Lemma length_unpack bs : length (unpack bs) = (8 * length bs)%nat.
Proof.
  unfold unpack. induction bs as [|b bs IH]; [reflexivity|].
  cbn [map concat length]. rewrite length_app, IH, length_byte_bits. lia.
Qed.

(** ** The bit writer *)

Lemma push_bit_ok (bit_value : Z) b w st :
  bit_value = Z.b2z b -> wr_rel w st ->
  let out_byte :=
    if negb (bit_value =? 0) then u8 (Z.lor (w_byte w) (shl1 (w_count w))) else w_byte w in
  out_byte = bits_value (snd st ++ [b]) /\
  (if negb (w_count w + 1 =? 8)
   then wr_rel {| w_byte := out_byte; w_count := w_count w + 1; w_out := w_out w |} (push st b)
   else o_good (put (byte_of_Z out_byte) (w_out w)) = true /\
        wr_rel {| w_byte := 0; w_count := 0; w_out := put (byte_of_Z out_byte) (w_out w) |}
               (push st b)).
Proof.
  intros Hb (Hd & Hroom & Hfail & Hbyte & Hcnt & Hlen). cbv zeta.
  assert (Hval : (if negb (bit_value =? 0) then u8 (Z.lor (w_byte w) (shl1 (w_count w)))
                  else w_byte w) = bits_value (snd st ++ [b])).
  { rewrite Hbyte, Hcnt.
    pose proof (bits_value_push (snd st) bit_value b Hb ltac:(lia)) as Hp.
    destruct (negb (bit_value =? 0)); [|exact Hp].
    rewrite Hp. unfold u8. apply Z.mod_small.
    pose proof (bits_value_bounds (snd st ++ [b])) as Hbd. rewrite length_app in Hbd. simpl in Hbd.
    split; [lia|]. apply Z.lt_le_trans with (2 ^ Z.of_nat (length (snd st) + 1)); [lia|].
    change (2 ^ 8) with (2 ^ Z.of_nat 8). apply Z.pow_le_mono_r; lia. }
  rewrite Hval. split; [reflexivity|].
  unfold push. rewrite length_app. simpl length.
  destruct (Z.eqb_spec (w_count w + 1) 8) as [E8|E8]; simpl negb; cbv iota.
  - destruct (Nat.eqb_spec (length (snd st) + 1) 8) as [_|]; [|lia].
    unfold put, o_good. rewrite Hfail, Hroom. simpl.
    split; [reflexivity|]. unfold wr_rel. simpl. rewrite Hd. repeat split; lia.
  - destruct (Nat.eqb_spec (length (snd st) + 1) 8) as [|_]; [lia|].
    unfold wr_rel. simpl. rewrite length_app. simpl. repeat split; try assumption; lia.
Qed.

Lemma WriteDecodedBitToStream_ok b w st :
  wr_rel w st ->
  exists w', WriteDecodedBitToStream (Z.b2z b) w = (true, w') /\ wr_rel w' (push st b).
Proof.
  intros Hw. destruct (push_bit_ok (Z.b2z b) b w st eq_refl Hw) as [_ H].
  unfold WriteDecodedBitToStream.
  destruct (negb (w_count w + 1 =? 8)).
  - eexists. split; [reflexivity|exact H].
  - destruct H as [Hg H]. rewrite Hg. simpl. eexists. split; [reflexivity|exact H].
Qed.

Lemma write_data_bits_ok len i data w st :
  0 <= i -> wr_rel w st ->
  exists w', write_data_bits len i data w = (true, w') /\
    wr_rel w' (fold_left push (map (fun j => Z.testbit data (i + Z.of_nat j)) (seq 0 len)) st).
Proof.
  revert i w st. induction len as [|len IH]; intros i w st Hi Hw.
  - simpl. eauto.
  - simpl write_data_bits. rewrite land_shiftr_1 by lia.
    destruct (WriteDecodedBitToStream_ok (Z.testbit data i) w st Hw) as (w1 & E1 & Hw1).
    rewrite E1. taken.
    destruct (IH (i + 1) w1 _ ltac:(lia) Hw1) as (w2 & E2 & Hw2).
    exists w2. split; [exact E2|].
    simpl. rewrite Z.add_0_r. rewrite <- seq_shift, map_map.
    erewrite map_ext; [exact Hw2|]. intros j. simpl. f_equal. lia.
Qed.

Lemma write_code_bits_ok len i cw w st :
  0 <= i -> wr_rel w st ->
  exists w', write_code_bits len i cw w = (true, w') /\
    wr_rel w' (fold_left push (map (fun j => Z.testbit cw (i + Z.of_nat j)) (seq 0 len)) st).
Proof.
  revert i w st. induction len as [|len IH]; intros i w st Hi Hw.
  - simpl. eauto.
  - simpl write_code_bits. rewrite land_shiftr_1 by lia.
    destruct (push_bit_ok (Z.b2z (Z.testbit cw i)) (Z.testbit cw i) w st eq_refl Hw) as [_ H].
    assert (Hseq : fold_left push (map (fun j => Z.testbit cw (i + Z.of_nat j)) (seq 0 (Datatypes.S len))) st
                   = fold_left push (map (fun j => Z.testbit cw (i + 1 + Z.of_nat j)) (seq 0 len))
                       (push st (Z.testbit cw i))).
    { simpl. rewrite Z.add_0_r. rewrite <- seq_shift, map_map. f_equal.
      apply map_ext. intros j. f_equal. lia. }
    rewrite Hseq.
    destruct (negb (w_count w + 1 =? 8)).
    + apply IH; [lia|exact H].
    + destruct H as [Hg H]. rewrite Hg. taken. apply IH; [lia|exact H].
Qed.

Lemma EncodeAndWriteBlock_ok c data_block w st :
  0 <= total_bits_ c -> wr_rel w st ->
  exists w', EncodeAndWriteBlock c data_block w = (true, w') /\
    wr_rel w' (fold_left push (value_bits (Z.to_nat (total_bits_ c)) (EncodeBlock c data_block)) st).
Proof.
  intros Hn Hw. unfold EncodeAndWriteBlock.
  destruct (write_code_bits_ok (Z.to_nat (total_bits_ c)) 0 (EncodeBlock c data_block) w st
              ltac:(lia) Hw) as (w' & E & H).
  exists w'. split; [exact E|]. exact H.
Qed.

Lemma FlushOutputByte_ok w st :
  wr_rel w st ->
  exists out, FlushOutputByte w = (true, out) /\ o_data out = flush_bytes st.
Proof.
  intros (Hd & Hroom & Hfail & Hbyte & Hcnt & Hlen). unfold FlushOutputByte, flush_bytes.
  destruct (snd st) as [|b p] eqn:E.
  - rewrite Hcnt. simpl. eauto.
  - rewrite Hcnt. simpl length.
    destruct (Z.eqb_spec (Z.of_nat (Datatypes.S (length p))) 0); [lia|].
    unfold put, o_good. rewrite Hfail, Hroom. simpl. eexists. split; [reflexivity|].
    simpl. rewrite Hd, Hbyte. reflexivity.
Qed.

(** ** Packing and unpacking *)

Lemma push_pending st b : (length (snd st) < 8)%nat -> (length (snd (push st b)) < 8)%nat.
Proof.
  intros H. unfold push. rewrite length_app. simpl length.
  destruct (Nat.eqb_spec (length (snd st) + 1) 8); simpl; [lia|]. rewrite length_app. simpl. lia.
Qed.

Lemma push_unpack st b :
  (length (snd st) < 8)%nat ->
  unpack (fst (push st b)) ++ snd (push st b) = unpack (fst st) ++ snd st ++ [b].
Proof.
  intros H. unfold push. rewrite length_app. simpl length.
  destruct (Nat.eqb_spec (length (snd st) + 1) 8) as [E|E]; cbn [fst snd]; [|reflexivity].
  unfold unpack. rewrite map_app, concat_app. cbn [map concat].
  rewrite byte_of_bits by (rewrite length_app; simpl; lia).
  rewrite length_app. simpl length. replace (8 - (length (snd st) + 1))%nat with 0%nat by lia.
  cbn [repeat]. rewrite !app_nil_r. reflexivity.
Qed.

Lemma fold_push_unpack bits st :
  (length (snd st) < 8)%nat ->
  let st' := fold_left push bits st in
  (length (snd st') < 8)%nat /\
  unpack (fst st') ++ snd st' = unpack (fst st) ++ snd st ++ bits.
Proof.
  revert st. induction bits as [|b bits IH]; intros st H.
  - simpl. rewrite app_nil_r. auto.
  - simpl. destruct (IH (push st b) (push_pending st b H)) as [H1 H2].
    split; [exact H1|]. cbv zeta in H2. rewrite H2, app_assoc, push_unpack by exact H.
    rewrite <- !app_assoc. reflexivity.
Qed.

Lemma unpack_flush st :
  (length (snd st) < 8)%nat ->
  exists pad, unpack (flush_bytes st) = unpack (fst st) ++ snd st ++ repeat false pad.
Proof.
  intros H. unfold flush_bytes. destruct (snd st) as [|b p] eqn:E.
  - exists 0%nat. simpl. rewrite app_nil_r. reflexivity.
  - exists (8 - length (b :: p))%nat. unfold unpack. rewrite map_app, concat_app.
    cbn [map concat]. rewrite byte_of_bits by lia. rewrite app_nil_r. reflexivity.
Qed.

Lemma unpack_pack bits : exists pad, unpack (pack bits) = bits ++ repeat false pad.
Proof.
  unfold pack. destruct (fold_push_unpack bits ([], [])) as [H1 H2]; [simpl; lia|].
  cbv zeta in H2. destruct (unpack_flush _ H1) as (pad & Hp). exists pad.
  rewrite Hp, app_assoc, H2. reflexivity.
Qed.

Lemma length_flush st :
  (length (snd st) < 8)%nat ->
  Z.of_nat (length (flush_bytes st))
    = (Z.of_nat (8 * length (fst st) + length (snd st)) + 7) / 8.
Proof.
  intros H. unfold flush_bytes. destruct (snd st) as [|b p].
  - simpl length. apply Z.div_unique with 7; lia.
  - rewrite length_app. simpl length in *.
    apply Z.div_unique with (Z.of_nat (length p)); lia.
Qed.

Lemma length_pack bits : Z.of_nat (length (pack bits)) = (Z.of_nat (length bits) + 7) / 8.
Proof.
  unfold pack. destruct (fold_push_unpack bits ([], [])) as [H1 H2]; [simpl; lia|].
  cbv zeta in H2. rewrite length_flush by exact H1.
  apply (f_equal (@length bool)) in H2. rewrite !length_app, length_unpack in H2.
  simpl in H2. do 2 f_equal. lia.
Qed.

Lemma fold_push_byte bytes b : fold_left push (byte_bits b) (bytes, []) = (bytes ++ [b], []).
Proof.
  pose proof (byte_bits_value b) as Hv.
  unfold byte_bits, value_bits in *. simpl in *. unfold push. simpl. rewrite Hv. reflexivity.
Qed.

Lemma fold_push_bytes bs bytes : fold_left push (unpack bs) (bytes, []) = (bytes ++ bs, []).
Proof.
  revert bytes. induction bs as [|b bs IH]; intros bytes.
  - simpl. rewrite app_nil_r. reflexivity.
  - unfold unpack. cbn [map concat]. rewrite fold_left_app, fold_push_byte.
    fold (unpack bs). rewrite IH, <- app_assoc. reflexivity.
Qed.

(** ** Data blocks *)

Lemma enc_blocks_concat k pending bits : concat (enc_blocks k pending bits) = pending ++ bits.
Proof.
  revert pending. induction bits as [|b bits IH]; intros pending.
  - simpl. destruct pending; simpl; rewrite ?app_nil_r; reflexivity.
  - simpl. destruct (length (pending ++ [b]) =? k)%nat.
    + simpl. rewrite IH. simpl. rewrite <- app_assoc. reflexivity.
    + rewrite IH, <- app_assoc. reflexivity.
Qed.

Lemma enc_blocks_ok k pending bits :
  (length pending < k)%nat -> blocks_ok k (enc_blocks k pending bits).
Proof.
  revert pending. induction bits as [|b bits IH]; intros pending Hp.
  - simpl. destruct pending as [|a p]; simpl in *; [exact I|lia].
  - simpl. destruct (Nat.eqb_spec (length (pending ++ [b])) k) as [E|E].
    + assert (H0 : blocks_ok k (enc_blocks k [] bits)) by (apply IH; simpl; lia).
      simpl. destruct (enc_blocks k [] bits); [lia|]. split; [exact E|exact H0].
    + apply IH. rewrite length_app in *. simpl in *. lia.
Qed.

Lemma enc_blocks_length k pending bits :
  (length pending < k)%nat ->
  Z.of_nat (length (enc_blocks k pending bits))
    = (Z.of_nat (length pending + length bits) + Z.of_nat k - 1) / Z.of_nat k.
Proof.
  revert pending. induction bits as [|b bits IH]; intros pending Hp.
  - simpl. destruct pending as [|a p]; simpl length in *.
    + apply Z.div_unique with (Z.of_nat k - 1); lia.
    + apply Z.div_unique with (Z.of_nat (length p)); lia.
  - simpl enc_blocks. destruct (Nat.eqb_spec (length (pending ++ [b])) k) as [E|E].
    + simpl length. rewrite Nat2Z.inj_succ, IH by (simpl; lia).
      rewrite length_app in E. simpl in E. simpl length.
      replace (Z.of_nat (length pending + Datatypes.S (length bits)) + Z.of_nat k - 1)
        with (Z.of_nat (0 + length bits) + Z.of_nat k - 1 + 1 * Z.of_nat k) by lia.
      rewrite Z.div_add by lia. lia.
    + rewrite IH by (rewrite length_app in *; simpl in *; lia).
      rewrite length_app. simpl length. do 2 f_equal. lia.
Qed.

Lemma length_block_code c blk : length (block_code c blk) = Z.to_nat (total_bits_ c).
Proof. apply length_value_bits. Qed.

Lemma length_code_bits c blocks :
  length (code_bits c blocks) = (Z.to_nat (total_bits_ c) * length blocks)%nat.
Proof.
  unfold code_bits. induction blocks as [|blk blocks IH]; [simpl; lia|].
  cbn [map concat length]. rewrite length_app, IH, length_block_code. lia.
Qed.

(** ** The encoder *)

Lemma afinish_blocks c bits pending ws :
  0 < data_bits_ c -> Z.of_nat (length pending) < data_bits_ c ->
  afinish c (fold_left (astep c) bits (pending, ws))
    = fold_left push (code_bits c (enc_blocks (Z.to_nat (data_bits_ c)) pending bits)) ws.
Proof.
  intros Hk. revert pending ws. induction bits as [|b bits IH]; intros pending ws Hp.
  - simpl. unfold afinish. simpl. destruct pending; [reflexivity|].
    unfold code_bits. simpl. rewrite app_nil_r. reflexivity.
  - simpl. unfold astep at 2. cbn [fst snd].
    destruct (Z.eqb_spec (Z.of_nat (length (pending ++ [b]))) (data_bits_ c)) as [E|E].
    + destruct (Nat.eqb_spec (length (pending ++ [b])) (Z.to_nat (data_bits_ c))) as [_|]; [|lia].
      rewrite IH by (simpl; lia). unfold code_bits. cbn [map concat].
      rewrite fold_left_app. reflexivity.
    + destruct (Nat.eqb_spec (length (pending ++ [b])) (Z.to_nat (data_bits_ c))) as [|_]; [lia|].
      apply IH. rewrite length_app in *. simpl in *. lia.
Qed.

Section Encoder.
Variable c : HammingCodec.
Hypothesis Hk : 1 <= data_bits_ c <= 32.
Hypothesis Hn : 0 <= total_bits_ c.

Lemma encode_byte_bits_ok len i z st a :
  0 <= i -> enc_rel c st a ->
  exists st', encode_byte_bits c len i z st = (true, st') /\
    enc_rel c st'
      (fold_left (astep c) (map (fun j => Z.testbit z (i + Z.of_nat j)) (seq 0 len)) a).
Proof.
  revert i st a. induction len as [|len IH]; intros i st a Hi (Hb & Hc & Hlt & Hw).
  - simpl. exists st. split; [reflexivity|]. unfold enc_rel. auto.
  - assert (Hseq : fold_left (astep c)
                     (map (fun j => Z.testbit z (i + Z.of_nat j)) (seq 0 (Datatypes.S len))) a
                   = fold_left (astep c)
                       (map (fun j => Z.testbit z (i + 1 + Z.of_nat j)) (seq 0 len))
                       (astep c a (Z.testbit z i))).
    { simpl. rewrite Z.add_0_r. rewrite <- seq_shift, map_map. f_equal.
      apply map_ext. intros j. f_equal. lia. }
    rewrite Hseq. simpl encode_byte_bits.
    rewrite Hb, Hc.
    rewrite (bits_value_push (fst a) _ (Z.testbit z i)) by (try apply land_shiftr_1; lia).
    unfold astep. rewrite length_app. simpl length.
    replace (Z.of_nat (length (fst a)) + 1) with (Z.of_nat (length (fst a) + 1)) by lia.
    destruct (Z.eqb_spec (Z.of_nat (length (fst a) + 1)) (data_bits_ c)) as [E|E].
    + destruct (EncodeAndWriteBlock_ok c (bits_value (fst a ++ [Z.testbit z i])) _ _ Hn Hw)
        as (w' & Ew & Hw').
      rewrite Ew. taken.
      apply IH; [lia|].
      split; [reflexivity|]. split; [reflexivity|]. split; [simpl; lia|exact Hw'].
    + apply IH; [lia|]. unfold enc_rel. cbn [fst snd e_block e_block_bits e_w].
      split; [reflexivity|]. rewrite length_app. simpl length.
      split; [lia|]. split; [lia|exact Hw].
Qed.

Lemma encode_loop_cons b bytes taken st :
  encode_loop c (b :: bytes) taken st =
    let '(ok, st') := encode_byte_bits c 8 0 (byte_to_Z b) st in
    if negb ok then (false, Datatypes.S taken, st')
    else encode_loop c bytes (Datatypes.S taken) st'.
Proof. reflexivity. Qed.

Lemma encode_loop_ok bytes taken st a :
  enc_rel c st a ->
  exists st', encode_loop c bytes taken st = (true, (taken + length bytes)%nat, st') /\
    enc_rel c st' (fold_left (astep c) (unpack bytes) a).
Proof.
  revert taken st a. induction bytes as [|b bytes IH]; intros taken st a Hrel.
  - simpl. exists st. rewrite Nat.add_0_r. split; [reflexivity|exact Hrel].
  - rewrite encode_loop_cons.
    destruct (encode_byte_bits_ok 8 0 (byte_to_Z b) st a ltac:(lia) Hrel) as (st1 & E1 & H1).
    rewrite E1. taken.
    destruct (IH (Datatypes.S taken) st1 _ H1) as (st2 & E2 & H2).
    exists st2. split.
    + rewrite E2. simpl length. do 2 f_equal. lia.
    + unfold unpack. cbn [map concat]. rewrite fold_left_app. exact H2.
Qed.

Lemma EncodeStream_ok bytes :
  exists ins out,
    EncodeStream c (istream_of bytes) empty_ostream = (true, ins, out) /\
    o_data out = pack (code_bits c (enc_blocks (Z.to_nat (data_bits_ c)) [] (unpack bytes))).
Proof.
  unfold EncodeStream. simpl negb. simpl orb. cbv iota.
  set (st0 := {| e_block := 0; e_block_bits := 0;
                 e_w := {| w_byte := 0; w_count := 0; w_out := empty_ostream |} |}).
  assert (H0 : enc_rel c st0 ([], ([], []))).
  { unfold enc_rel, wr_rel. simpl. repeat split; lia. }
  simpl i_pos. simpl i_data. rewrite drop_0.
  destruct (encode_loop_ok bytes 0 st0 _ H0) as (st & E & Hrel).
  rewrite E. taken. simpl i_eof. taken.
  pose proof (afinish_blocks c (unpack bytes) [] ([], []) ltac:(lia) ltac:(simpl; lia)) as Hfin.
  destruct Hrel as (Hb & Hc & Hlt & Hw). unfold pack. rewrite <- Hfin. unfold afinish.
  destruct (fold_left (astep c) (unpack bytes) ([], ([], []))) as [pd ws] eqn:Ea.
  rewrite ?Ea. cbn [fst snd] in *.
  destruct pd as [|p0 pd].
  - simpl in Hc. rewrite Hc. simpl.
    destruct (FlushOutputByte_ok _ _ Hw) as (out & Eo & Ho). rewrite Eo. eauto.
  - rewrite Hc. simpl length.
    destruct (Z.ltb_spec 0 (Z.of_nat (Datatypes.S (length pd)))) as [_|]; [|lia].
    destruct (EncodeAndWriteBlock_ok c (e_block st) _ _ Hn Hw) as (w' & Ew & Hw').
    rewrite Ew. taken.
    destruct (FlushOutputByte_ok _ _ Hw') as (out & Eo & Ho). rewrite Eo.
    do 2 eexists. split; [reflexivity|]. rewrite Ho, Hb. reflexivity.
Qed.
End Encoder.

(** ** The bit reader *)

Lemma land_1_testbit a : Z.land a 1 = Z.b2z (Z.testbit a 0).
Proof. pose proof (land_shiftr_1 a 0 ltac:(lia)) as H. rewrite Z.shiftr_0_r in H. exact H. Qed.

Lemma ReadNextEncodedBit_ok rd b rest :
  rd_rel rd (b :: rest) ->
  exists rd', ReadNextEncodedBit rd = (true, rd', Z.b2z b) /\ rd_rel rd' rest.
Proof.
  intros (Hg & Ha & Hbits). unfold ReadNextEncodedBit.
  destruct (Z.eqb_spec (r_avail rd) 0) as [E0|E0].
  - rewrite E0 in Hbits. simpl in Hbits.
    destruct (drop (i_pos (r_in rd)) (i_data (r_in rd))) as [|x more] eqn:Ed;
      [discriminate Hbits|].
    assert (Hlk : i_data (r_in rd) !! i_pos (r_in rd) = Some x).
    { pose proof (lookup_drop (i_data (r_in rd)) (i_pos (r_in rd)) 0) as Hl.
      rewrite Ed, Nat.add_0_r in Hl. simpl in Hl. symmetry. exact Hl. }
    assert (Hmore : drop (Datatypes.S (i_pos (r_in rd))) (i_data (r_in rd)) = more).
    { pose proof (drop_S _ _ _ Hlk) as Hd. rewrite Ed in Hd. congruence. }
    unfold read_byte. rewrite Hg, Hlk. taken. cbn [r_in r_byte r_avail].
    unfold unpack in Hbits. cbn [map concat] in Hbits.
    unfold byte_bits in Hbits. rewrite value_bits_cons in Hbits.
    rewrite <- app_comm_cons in Hbits. injection Hbits as Hb Hrest.
    eexists. split.
    + rewrite land_1_testbit, Z.bit0_odd, Hb. reflexivity.
    + unfold rd_rel. cbn [r_in r_byte r_avail i_pos i_data]. rewrite Hmore.
      split; [reflexivity|]. split; [lia|]. exact Hrest.
  - taken.
    destruct (Z.to_nat (r_avail rd)) as [|a] eqn:Ea; [lia|].
    rewrite value_bits_cons, <- app_comm_cons in Hbits. injection Hbits as Hb Hrest.
    eexists. split.
    + rewrite land_1_testbit, Z.bit0_odd, Hb. reflexivity.
    + unfold rd_rel. cbn [r_in r_byte r_avail].
      replace (Z.to_nat (r_avail rd - 1)) with a by lia.
      split; [exact Hg|]. split; [lia|]. exact Hrest.
Qed.

(** ** The decoder *)

Lemma decode_loop_S c ob rounds st :
  decode_loop c ob (Datatypes.S rounds) st =
    let '(ok, rd, encoded_bit) := ReadNextEncodedBit (d_rd st) in
    if negb ok then
      (false, {| d_rd := rd; d_codeword := d_codeword st; d_collected := d_collected st;
                 d_w := d_w st; d_bits_written := d_bits_written st |})
    else
      let codeword_value :=
        if negb (encoded_bit =? 0) then Z.lor (d_codeword st) (shl1 (d_collected st))
        else d_codeword st in
      let collected := d_collected st + 1 in
      if negb (collected =? total_bits_ c) then
        decode_loop c ob rounds
          {| d_rd := rd; d_codeword := codeword_value; d_collected := collected;
             d_w := d_w st; d_bits_written := d_bits_written st |}
      else
        let '(decoded_data, has_error) := DecodeBlock c codeword_value in
        if has_error then
          (false, {| d_rd := rd; d_codeword := codeword_value; d_collected := collected;
                     d_w := d_w st; d_bits_written := d_bits_written st |})
        else
          let bits_to_output :=
            if u64 (d_bits_written st + data_bits_ c) >? ob
            then s32 (u64 (ob - d_bits_written st))
            else data_bits_ c in
          let '(okw, w) := write_data_bits (Z.to_nat bits_to_output) 0 decoded_data (d_w st) in
          if negb okw then
            (false, {| d_rd := rd; d_codeword := codeword_value; d_collected := collected;
                       d_w := w; d_bits_written := d_bits_written st |})
          else
            decode_loop c ob rounds
              {| d_rd := rd; d_codeword := 0; d_collected := 0; d_w := w;
                 d_bits_written := u64 (d_bits_written st + bits_to_output) |}.
Proof. reflexivity. Qed.

(** The rounds that complete one codeword and write its data bits. *)
Lemma decode_block_rounds c ob l :
  total_bits_ c <= 32 ->
  forall l0 st tail more ws data,
  l <> [] -> Z.of_nat (length l0 + length l) = total_bits_ c ->
  rd_rel (d_rd st) (l ++ tail) ->
  d_codeword st = bits_value l0 -> d_collected st = Z.of_nat (length l0) ->
  wr_rel (d_w st) ws ->
  DecodeBlock c (bits_value (l0 ++ l)) = (data, false) ->
  let bto := if u64 (d_bits_written st + data_bits_ c) >? ob
             then s32 (u64 (ob - d_bits_written st)) else data_bits_ c in
  exists st',
    decode_loop c ob (length l + more) st = decode_loop c ob more st' /\
    rd_rel (d_rd st') tail /\ d_codeword st' = 0 /\ d_collected st' = 0 /\
    wr_rel (d_w st') (fold_left push (value_bits (Z.to_nat bto) data) ws) /\
    d_bits_written st' = u64 (d_bits_written st + bto).
Proof.
  intros Hn. induction l as [|b l IH]; intros l0 st tail more ws data Hne Hlen Hrd Hcw Hcol Hw Hdec.
  - congruence.
  - cbv zeta.
    change (length (b :: l) + more)%nat with (Datatypes.S (length l + more)).
    rewrite decode_loop_S.
    rewrite <- app_comm_cons in Hrd.
    destruct (ReadNextEncodedBit_ok _ _ _ Hrd) as (rd' & Erd & Hrd').
    rewrite Erd. taken. cbv zeta.
    rewrite Hcw, Hcol.
    rewrite (bits_value_push l0 (Z.b2z b) b eq_refl) by (simpl length in Hlen; lia).
    simpl length in Hlen.
    destruct l as [|b' l'].
    + destruct (Z.eqb_spec (Z.of_nat (length l0) + 1) (total_bits_ c)) as [_|]; [|simpl in *; lia].
      taken. rewrite Hdec.
      destruct (write_data_bits_ok
                  (Z.to_nat (if u64 (d_bits_written st + data_bits_ c) >? ob
                             then s32 (u64 (ob - d_bits_written st)) else data_bits_ c))
                  0 data (d_w st) ws ltac:(lia) Hw) as (w' & Ew & Hw').
      rewrite Ew. taken.
      eexists. split; [reflexivity|]. cbn [d_rd d_codeword d_collected d_w d_bits_written].
      split; [exact Hrd'|]. split; [reflexivity|]. split; [reflexivity|].
      split; [exact Hw'|reflexivity].
    + destruct (Z.eqb_spec (Z.of_nat (length l0) + 1) (total_bits_ c)) as [|_];
        [simpl in *; lia|].
      taken.
      set (st1 := {| d_rd := rd'; d_codeword := bits_value (l0 ++ [b]);
                     d_collected := Z.of_nat (length l0) + 1; d_w := d_w st;
                     d_bits_written := d_bits_written st |}).
      destruct (IH (l0 ++ [b]) st1 tail more ws data) as (st' & E' & H').
      * discriminate.
      * rewrite length_app. simpl length in *. lia.
      * exact Hrd'.
      * reflexivity.
      * subst st1. cbn [d_collected]. rewrite length_app. simpl. lia.
      * exact Hw.
      * rewrite <- app_assoc. exact Hdec.
      * exists st'. split; [exact E'|exact H'].
Qed.

Lemma u64_small z : 0 <= z < 2 ^ 64 -> u64 z = z.
Proof. intros H. unfold u64. apply Z.mod_small. exact H. Qed.

Lemma s32_small z : 0 <= z < 2 ^ 31 -> s32 z = z.
Proof.
  intros H. unfold s32. rewrite Z.mod_small by lia.
  destruct (Z.ltb_spec z (2 ^ 31)); [reflexivity|lia].
Qed.

Section Decoder.
Variables k r : Z.
Hypothesis Hk : 1 <= k <= 16.
Hypothesis Hr : 1 <= r <= 8.
Hypothesis Hvalid : k + r + 1 <= 2 ^ r.

Lemma block_roundtrip blk :
  (length blk <= Z.to_nat k)%nat ->
  DecodeBlock (codec k r) (bits_value ([] ++ block_code (codec k r) blk))
    = (bits_value blk, false).
Proof.
  intros Hlen. simpl app. unfold block_code. simpl total_bits_.
  rewrite bits_value_value_bits, Z2Nat.id by lia.
  rewrite Z.mod_small by (apply EncodeBlock_range; lia).
  rewrite DecodeBlock_EncodeBlock by lia.
  rewrite mod_capacity_small; try assumption; [reflexivity|].
  pose proof (bits_value_bounds blk) as Hb. split; [lia|].
  apply Z.lt_le_trans with (2 ^ Z.of_nat (length blk)); [lia|].
  apply Z.pow_le_mono_r; lia.
Qed.

Lemma decode_blocks ob blocks :
  forall st tail ws,
  blocks_ok (Z.to_nat k) blocks ->
  rd_rel (d_rd st) (code_bits (codec k r) blocks ++ tail) ->
  d_codeword st = 0 -> d_collected st = 0 -> wr_rel (d_w st) ws ->
  0 <= d_bits_written st ->
  d_bits_written st + Z.of_nat (length (concat blocks)) = ob ->
  ob + 16 < 2 ^ 64 ->
  exists st',
    decode_loop (codec k r) ob (Z.to_nat (k + r) * length blocks) st = (true, st') /\
    wr_rel (d_w st') (fold_left push (concat blocks) ws) /\
    rd_rel (d_rd st') tail.
Proof.
  induction blocks as [|blk rest IH]; intros st tail ws Hok Hrd Hcw Hcol Hw Hbw Hob Hmax.
  - rewrite Nat.mul_0_r. simpl. exists st. auto.
  - replace (Z.to_nat (k + r) * length (blk :: rest))%nat
      with (length (block_code (codec k r) blk) + Z.to_nat (k + r) * length rest)%nat
      by (rewrite length_block_code; simpl; lia).
    unfold code_bits in Hrd. cbn [map concat] in Hrd. rewrite <- app_assoc in Hrd.
    fold (code_bits (codec k r) rest) in Hrd.
    assert (Hblk : (1 <= length blk <= Z.to_nat k)%nat).
    { simpl in Hok. destruct rest; [exact Hok|]. destruct Hok as [-> _]. lia. }
    cbn [concat] in Hob. rewrite length_app in Hob.
    assert (Hbto : (if u64 (d_bits_written st + data_bits_ (codec k r)) >? ob
                    then s32 (u64 (ob - d_bits_written st)) else data_bits_ (codec k r))
                   = Z.of_nat (length blk)).
    { simpl data_bits_. rewrite !u64_small by lia.
      simpl in Hok. destruct rest as [|b2 rest'].
      - simpl in Hob. destruct (Z.gtb_spec (d_bits_written st + k) ob); [|lia].
        rewrite s32_small by lia. lia.
      - destruct Hok as [E _]. destruct (Z.gtb_spec (d_bits_written st + k) ob); lia. }
    destruct (decode_block_rounds (codec k r) ob (block_code (codec k r) blk)
                ltac:(simpl; lia) [] st (code_bits (codec k r) rest ++ tail)
                (Z.to_nat (k + r) * length rest)%nat ws (bits_value blk))
      as (st1 & E1 & Hrd1 & Hcw1 & Hcol1 & Hw1 & Hbw1).
    + intros Hnil. apply (f_equal (@length bool)) in Hnil.
      rewrite length_block_code in Hnil. simpl in Hnil. lia.
    + rewrite length_block_code. simpl. lia.
    + exact Hrd.
    + rewrite Hcw. reflexivity.
    + rewrite Hcol. reflexivity.
    + exact Hw.
    + apply block_roundtrip. lia.
    + cbv zeta in Hw1, Hbw1. rewrite Hbto in Hw1, Hbw1.
      rewrite Nat2Z.id, value_bits_bits_value in Hw1.
      rewrite u64_small in Hbw1 by lia.
      destruct (IH st1 tail (fold_left push blk ws)) as (st2 & E2 & Hw2 & Hrd2);
        try assumption; try lia.
      * simpl in Hok. destruct rest; [exact I|]. apply Hok.
      * exists st2. split; [rewrite E1; exact E2|].
        split; [|exact Hrd2]. cbn [concat]. rewrite fold_left_app. exact Hw2.
Qed.

Lemma DecodeStream_ok bytes es :
  Z.of_nat (length bytes) < 2 ^ 56 ->
  exists ins out,
    DecodeStream (codec k r)
      (istream_of (pack (code_bits (codec k r) (enc_blocks (Z.to_nat k) [] (unpack bytes)))))
      empty_ostream (Z.of_nat (length bytes)) es = (true, ins, out) /\
    o_data out = bytes.
Proof.
  intros Hsize.
  set (blocks := enc_blocks (Z.to_nat k) [] (unpack bytes)).
  unfold DecodeStream. simpl negb. simpl orb. cbv iota.
  rewrite u64_small by lia.
  destruct (Z.eqb_spec (Z.of_nat (length bytes) * 8) 0) as [E0|E0].
  - do 2 eexists. split; [reflexivity|]. destruct bytes; [reflexivity|simpl in E0; lia].
  - simpl data_bits_. simpl total_bits_.
    assert (Hcount : Z.of_nat (length blocks) = (Z.of_nat (length bytes) * 8 + k - 1) / k).
    { subst blocks. rewrite enc_blocks_length by (simpl; lia).
      rewrite length_unpack. simpl length. rewrite Z2Nat.id by lia. do 2 f_equal. lia. }
    assert (Hcle : Z.of_nat (length blocks) <= Z.of_nat (length bytes) * 8).
    { rewrite Hcount. apply Z.div_le_upper_bound; nia. }
    rewrite (u64_small k), (u64_small (k + r)) by lia.
    rewrite (u64_small (Z.of_nat (length bytes) * 8 + k - 1)) by lia.
    rewrite <- Hcount. rewrite u64_small by nia.
    replace (Z.to_nat (Z.of_nat (length blocks) * (k + r)))
      with (Z.to_nat (k + r) * length blocks)%nat by nia.
    destruct (unpack_pack (code_bits (codec k r) blocks)) as (pad & Hpad).
    set (st0 := {| d_rd := {| r_in := istream_of (pack (code_bits (codec k r) blocks));
                              r_byte := 0; r_avail := 0 |};
                   d_codeword := 0; d_collected := 0;
                   d_w := {| w_byte := 0; w_count := 0; w_out := empty_ostream |};
                   d_bits_written := 0 |}).
    destruct (decode_blocks (Z.of_nat (length bytes) * 8) blocks st0 (repeat false pad) ([], []))
      as (st' & E & Hw & Hrd).
    + subst blocks. apply enc_blocks_ok. simpl. lia.
    + unfold rd_rel. simpl. rewrite drop_0. rewrite Hpad. auto with lia.
    + reflexivity.
    + reflexivity.
    + unfold wr_rel. simpl. repeat split; lia.
    + simpl. lia.
    + subst blocks. rewrite enc_blocks_concat. simpl. rewrite length_unpack. lia.
    + lia.
    + rewrite E. taken.
      subst blocks. rewrite enc_blocks_concat in Hw. simpl app in Hw.
      rewrite fold_push_bytes in Hw. simpl app in Hw.
      destruct (FlushOutputByte_ok _ _ Hw) as (out & Eo & Ho). rewrite Eo.
      do 2 eexists. split; [reflexivity|]. exact Ho.
Qed.
End Decoder.

(** ** Round trip, size and the empty file *)

Lemma encode_ok k r bytes :
  1 <= k <= 32 -> 0 <= k + r ->
  encode k r bytes
    = (true, pack (code_bits (codec k r) (enc_blocks (Z.to_nat k) [] (unpack bytes)))).
Proof.
  intros Hk Hn. unfold encode.
  destruct (EncodeStream_ok (codec k r) Hk Hn bytes) as (ins & out & E & Ho).
  rewrite E, Ho. reflexivity.
Qed.

(** C1, as stated, fails: with [k = 1], [r = 1] no data bit is stored in a
    codeword and the byte 1 comes back as the byte 0. *)
Lemma C1_counterexample_1_1 :
  ~ (forall k r (B : list byte),
       1 <= k <= 16 -> 1 <= r <= 8 ->
       fst (encode k r B) = true /\
       decode k r (snd (encode k r B)) (Z.of_nat (length B)) = (true, B)).
Proof.
  intros H. destruct (H 1 1 [x01] ltac:(lia) ltac:(lia)) as [_ H1].
  vm_compute in H1. discriminate H1.
Qed.

(** C1, amended: for the parameters of a proper Hamming code,
    [2^r >= k + r + 1], and a byte sequence shorter than [2^56] bytes (its
    bit counts fit in 64 bits), encoding succeeds and decoding the result
    with the original byte count gives back exactly the byte sequence. *)
Theorem C1_round_trip_valid_options k r (B : list byte) :
  1 <= k <= 16 -> 1 <= r <= 8 -> k + r + 1 <= 2 ^ r ->
  Z.of_nat (length B) < 2 ^ 56 ->
  fst (encode k r B) = true /\
  decode k r (snd (encode k r B)) (Z.of_nat (length B)) = (true, B).
Proof.
  intros Hk Hr Hv Hsize. rewrite encode_ok by lia. split; [reflexivity|].
  cbn [snd]. unfold decode.
  destruct (DecodeStream_ok k r Hk Hr Hv B
              (Z.of_nat (length (pack (code_bits (codec k r)
                                         (enc_blocks (Z.to_nat k) [] (unpack B))))))
              Hsize) as (ins & out & E & Ho).
  rewrite E, Ho. reflexivity.
Qed.

Lemma C1_witness_8_4 :
  1 <= 8 <= 16 /\ 1 <= 4 <= 8 /\ 8 + 4 + 1 <= 2 ^ 4 /\
  Z.of_nat (length [x48; x61; x6d]) < 2 ^ 56 /\
  fst (encode 8 4 [x48; x61; x6d]) = true /\
  decode 8 4 (snd (encode 8 4 [x48; x61; x6d])) (Z.of_nat (length [x48; x61; x6d]))
    = (true, [x48; x61; x6d]).
Proof.
  do 4 (split; [simpl; lia|]).
  apply C1_round_trip_valid_options; simpl; lia.
Defined.

Lemma ceil_div_spec a b :
  0 < b -> (ceil_div a b - 1) * b < a <= ceil_div a b * b.
Proof.
  intros Hb. unfold ceil_div.
  pose proof (Z.div_mod (a + b - 1) b ltac:(lia)) as Hd.
  pose proof (Z.mod_pos_bound (a + b - 1) b Hb). nia.
Qed.

(** C3: the encoded stream of [B] has
    [ceil(ceil(|B|*8 / k) * (k+r) / 8)] bytes, and [CalculateEncodedSize]
    computes the same number for an input of [|B|] bytes (below [2^56]
    bytes, where its 64-bit arithmetic does not wrap). *)
Theorem C3_encoded_size_formula k r (B : list byte) :
  1 <= k <= 16 -> 1 <= r <= 8 ->
  Z.of_nat (length (snd (encode k r B)))
    = ceil_div (ceil_div (Z.of_nat (length B) * 8) k * (k + r)) 8 /\
  (Z.of_nat (length B) < 2 ^ 56 ->
   CalculateEncodedSize (codec k r) (Z.of_nat (length B))
     = ceil_div (ceil_div (Z.of_nat (length B) * 8) k * (k + r)) 8).
Proof.
  intros Hk Hr. unfold ceil_div.
  assert (Hpos : 0 <= (Z.of_nat (length B) * 8 + k - 1) / k) by (apply Z.div_pos; lia).
  split.
  - rewrite encode_ok by lia. cbn [snd].
    rewrite length_pack, length_code_bits, Nat2Z.inj_mul, enc_blocks_length by (simpl; lia).
    simpl total_bits_. rewrite length_unpack. simpl (length []).
    rewrite !Z2Nat.id by lia.
    replace (Z.of_nat (0 + 8 * length B)) with (Z.of_nat (length B) * 8) by lia.
    f_equal. lia.
  - intros Hsize.
    assert (Hcle : (Z.of_nat (length B) * 8 + k - 1) / k <= Z.of_nat (length B) * 8).
    { destruct (Z.eq_dec (Z.of_nat (length B)) 0) as [E0|E0].
      - rewrite E0. rewrite Z.div_small by lia. lia.
      - apply Z.div_le_upper_bound; nia. }
    unfold CalculateEncodedSize. simpl data_bits_. simpl parity_bits_.
    rewrite (u64_small (Z.of_nat (length B) * 8)) by lia.
    rewrite (u64_small k), (u64_small r) by lia.
    rewrite (u64_small (k + r)) by lia.
    rewrite (u64_small (Z.of_nat (length B) * 8 + k - 1)) by lia.
    rewrite (u64_small (_ * (k + r))) by nia.
    rewrite u64_small by nia.
    f_equal. lia.
Qed.

Lemma C3_witness_three_bytes :
  1 <= 8 <= 16 /\ 1 <= 4 <= 8 /\ Z.of_nat (length [x48; x61; x6d]) < 2 ^ 56 /\
  Z.of_nat (length (snd (encode 8 4 [x48; x61; x6d])))
    = ceil_div (ceil_div (Z.of_nat (length [x48; x61; x6d]) * 8) 8 * (8 + 4)) 8 /\
  CalculateEncodedSize (codec 8 4) (Z.of_nat (length [x48; x61; x6d]))
    = ceil_div (ceil_div (Z.of_nat (length [x48; x61; x6d]) * 8) 8 * (8 + 4)) 8.
Proof.
  do 3 (split; [simpl; lia|]).
  destruct (C3_encoded_size_formula 8 4 [x48; x61; x6d]) as [H1 H2]; [lia|lia|].
  split; [exact H1|apply H2; simpl; lia].
Defined.

(** C9, as stated, fails: on an input stream whose [failbit] is set
    [DecodeStream] returns failure, also for [original_size = 0]. *)
Lemma C9_counterexample_failed_stream :
  ~ (forall c ins out encoded_size,
       DecodeStream c ins out 0 encoded_size = (true, ins, out)).
Proof.
  intros H.
  specialize (H (codec 8 4)
                {| i_data := []; i_pos := 0; i_eof := false; i_fail := true |}
                empty_ostream 0).
  discriminate H.
Qed.

(** C9, amended: when both streams are in a good state, [DecodeStream]
    with [original_size = 0] returns success at once, for every codec and
    whatever the input holds; both streams are left as they were, so that
    no byte is read and no byte is written.  When the input stream or the
    output stream is not in a good state, it returns failure instead, and
    leaves both streams as they were as well. *)
Theorem C9_empty_file_good_streams c ins out encoded_size :
  (i_good ins = true -> o_good out = true ->
   DecodeStream c ins out 0 encoded_size = (true, ins, out)) /\
  (i_good ins = false \/ o_good out = false ->
   DecodeStream c ins out 0 encoded_size = (false, ins, out)).
Proof.
  unfold DecodeStream. split.
  - intros Hi Ho. rewrite Hi, Ho. reflexivity.
  - intros [Hi|Ho].
    + rewrite Hi. reflexivity.
    + rewrite Ho. rewrite orb_true_r. reflexivity.
Qed.

Lemma C9_witness_unread_input :
  i_good (istream_of [xff; xff; xff]) = true /\ o_good empty_ostream = true /\
  DecodeStream (codec 8 4) (istream_of [xff; xff; xff]) empty_ostream 0 3
    = (true, istream_of [xff; xff; xff], empty_ostream) /\
  o_good {| o_data := []; o_room := None; o_fail := true |} = false /\
  DecodeStream (codec 8 4) (istream_of [xff; xff; xff])
    {| o_data := []; o_room := None; o_fail := true |} 0 3
    = (false, istream_of [xff; xff; xff], {| o_data := []; o_room := None; o_fail := true |}).
Proof.
  split; [reflexivity|]. split; [reflexivity|]. split.
  - apply (proj1 (C9_empty_file_good_streams (codec 8 4) (istream_of [xff; xff; xff])
                    empty_ostream 3)); reflexivity.
  - split; [reflexivity|].
    apply (proj2 (C9_empty_file_good_streams (codec 8 4) (istream_of [xff; xff; xff])
                    {| o_data := []; o_room := None; o_fail := true |} 3)).
    right. reflexivity.
Defined.

(** * Properties of the archive engine *)

(** ** Looking names up in a header *)

Lemma name_found_spec entries n : name_found entries n = true <-> n ∈ map name entries.
Proof.
  induction entries as [|e entries IH]; simpl.
  - split; [discriminate|]. intros H. apply elem_of_nil in H. contradiction.
  - destruct (String.eqb_spec (name e) n) as [E|E].
    + split; [|reflexivity]. intros _. rewrite E. apply list_elem_of_here.
    + rewrite IH. split.
      * intros H. apply list_elem_of_further. exact H.
      * intros H. apply elem_of_cons in H as [H|H]; [congruence|exact H].
Qed.

Lemma all_names_found_absent entries names n :
  n ∈ names -> n ∉ map name entries -> all_names_found entries names = false.
Proof.
  intros Hin Habs. induction names as [|m names IH]; simpl.
  - apply elem_of_nil in Hin. contradiction.
  - destruct (name_found entries m) eqn:E; [|reflexivity]. simpl.
    apply elem_of_cons in Hin as [->|Hin]; [|apply IH; exact Hin].
    apply name_found_spec in E. contradiction.
Qed.

Lemma find_matches_found entries n acc found :
  snd (find_matches entries n acc found) = found || name_found entries n.
Proof.
  revert acc found. induction entries as [|e entries IH]; intros acc found; simpl.
  - rewrite orb_false_r. reflexivity.
  - destruct (String.eqb (name e) n).
    + rewrite IH. rewrite orb_true_r. reflexivity.
    + apply IH.
Qed.

Lemma FindEntriesByNames_absent entries names n acc :
  n ∈ names -> n ∉ map name entries -> fst (FindEntriesByNames entries names acc) = false.
Proof.
  intros Hin Habs. revert acc. induction names as [|m names IH]; intros acc; simpl.
  - apply elem_of_nil in Hin. contradiction.
  - pose proof (find_matches_found entries m acc false) as Hf.
    destruct (find_matches entries m acc false) as [acc' found]. simpl in Hf. subst found.
    destruct (name_found entries m) eqn:E; [|reflexivity]. simpl.
    apply elem_of_cons in Hin as [->|Hin]; [|apply IH; exact Hin].
    apply name_found_spec in E. contradiction.
Qed.

(** ** Delete and Extract *)

Lemma read_archive_Some w archive entries :
  read_archive w archive = Some entries ->
  exists ins ins', open_ifstream w archive = Some ins /\
                   ReadArchiveHeader ins = (true, ins', entries).
Proof.
  unfold read_archive. destruct (open_ifstream w archive) as [ins|]; [|discriminate].
  destruct (ReadArchiveHeader ins) as [[ok ins'] es] eqn:E. destruct ok; [|discriminate].
  intros [= ->]. exists ins, ins'. split; [reflexivity|exact E].
Qed.

(** C5: [Delete] fails and leaves the file system, and so the archive
    file, unchanged when a name of the deletion list is not in the header of
    the archive, and also when the list of kept entries is as long as the
    list of entries. *)
Theorem C5_delete_rejects w archive c names entries :
  read_archive w archive = Some entries ->
  (exists n, n ∈ names /\ n ∉ map name entries) \/
    length (keep_entries entries names) = length entries ->
  Delete w archive c names = (false, w).
Proof.
  intros Hread Hcase. apply read_archive_Some in Hread as (ins & ins' & Hopen & Hread).
  unfold Delete. rewrite Hopen, Hread. taken.
  destruct (all_names_found entries names) eqn:Eall; [|reflexivity]. taken.
  destruct Hcase as [(n & Hin & Habs)|Hlen].
  - rewrite (all_names_found_absent entries names n Hin Habs) in Eall. discriminate.
  - rewrite Hlen, Nat.eqb_refl. reflexivity.
Qed.

Lemma C5_witness_absent_name :
  read_archive example_archive "a.haf" = Some example_entries /\
  (exists n, n ∈ ["absent.bin"%string] /\ (n ∉ map name example_entries)) /\
  length (keep_entries example_entries []) = length example_entries /\
  Delete example_archive "a.haf" (codec 8 4) ["absent.bin"%string] = (false, example_archive) /\
  Delete example_archive "a.haf" (codec 8 4) [] = (false, example_archive).
Proof.
  assert (Hread : read_archive example_archive "a.haf" = Some example_entries)
    by (vm_compute; reflexivity).
  assert (Habs : exists n, n ∈ ["absent.bin"%string] /\ n ∉ map name example_entries).
  { exists "absent.bin"%string. split; [apply list_elem_of_here|].
    apply (bool_decide_eq_true_1 _). vm_compute. reflexivity. }
  assert (Hlen : length (keep_entries example_entries []) = length example_entries)
    by reflexivity.
  repeat (split; [assumption|]). split.
  - apply (C5_delete_rejects _ _ _ _ example_entries Hread). left. exact Habs.
  - apply (C5_delete_rejects _ _ _ _ example_entries Hread). right. exact Hlen.
Defined.

(** C7: when a requested name is not in the header of the archive,
    [Extract] fails and the file system is as before: no output file was
    created or written. *)
Theorem C7_extract_rejects w archive c requested entries :
  read_archive w archive = Some entries ->
  (exists n, n ∈ requested /\ n ∉ map name entries) ->
  Extract w archive c requested = (false, w).
Proof.
  intros Hread (n & Hin & Habs).
  apply read_archive_Some in Hread as (ins & ins' & Hopen & Hread).
  unfold Extract. rewrite Hopen, Hread. taken.
  destruct requested as [|m requested]; [apply elem_of_nil in Hin; contradiction|].
  pose proof (FindEntriesByNames_absent entries (m :: requested) n [] Hin Habs) as Hf.
  destruct (FindEntriesByNames entries (m :: requested) []) as [ok sel]. simpl in Hf.
  subst ok. reflexivity.
Qed.

Lemma C7_witness_absent_name :
  read_archive example_archive "a.haf" = Some example_entries /\
  (exists n, n ∈ ["present.bin"; "absent.bin"]%string /\ n ∉ map name example_entries) /\
  Extract example_archive "a.haf" (codec 8 4) ["present.bin"; "absent.bin"]%string
    = (false, example_archive).
Proof.
  assert (Hread : read_archive example_archive "a.haf" = Some example_entries)
    by (vm_compute; reflexivity).
  assert (Habs : exists n, n ∈ ["present.bin"; "absent.bin"]%string /\
                           n ∉ map name example_entries).
  { exists "absent.bin"%string. split; [apply list_elem_of_further, list_elem_of_here|].
    apply (bool_decide_eq_true_1 _). vm_compute. reflexivity. }
  repeat (split; [assumption|]).
  apply (C7_extract_rejects _ _ _ _ example_entries Hread Habs).
Defined.

(** ** Create *)

Lemma mkdirs_lookup fuel p fs q :
  (mkdirs fuel p fs).2 !! q = fs !! q \/
  (fs !! q = None /\ (mkdirs fuel p fs).2 !! q = Some Dir).
Proof.
  revert p fs. induction fuel as [|fuel IH]; intros p fs; simpl.
  - destruct (fs !! p) as [[|]|]; left; reflexivity.
  - destruct (fs !! p) as [[|]|] eqn:Ep; try (left; reflexivity).
    assert (Hpar : exists ok fs1,
               (if has_parent_path p then mkdirs fuel (parent_path p) fs else (true, fs))
                 = (ok, fs1) /\
               (fs1 !! q = fs !! q \/ (fs !! q = None /\ fs1 !! q = Some Dir))).
    { destruct (has_parent_path p).
      - destruct (mkdirs fuel (parent_path p) fs) as [ok fs1] eqn:E.
        exists ok, fs1. split; [reflexivity|].
        specialize (IH (parent_path p) fs). rewrite E in IH. exact IH.
      - exists true, fs. split; [reflexivity|left; reflexivity]. }
    destruct Hpar as (ok & fs1 & -> & H1). destruct ok; simpl; [|exact H1].
    destruct (decide (p = q)) as [->|Hne].
    + right. split; [exact Ep|apply lookup_insert_eq].
    + rewrite lookup_insert_ne by exact Hne. exact H1.
Qed.

Lemma prepare_parent_lookup w p q :
  w_files (prepare_parent w p).2 !! q = w_files w !! q \/
  (w_files w !! q = None /\ w_files (prepare_parent w p).2 !! q = Some Dir).
Proof.
  unfold prepare_parent. destruct (has_parent_path p); [|left; reflexivity].
  unfold fs_create_directories.
  pose proof (mkdirs_lookup (Datatypes.S (String.length (parent_path p))) (parent_path p)
                (w_files w) q) as H.
  destruct (mkdirs _ _ _) as [ok fs1]. simpl in H.
  destruct (negb ok && negb (fs_exists (with_files w fs1) (parent_path p))); exact H.
Qed.

Lemma open_ofstream_lookup w p out w' q :
  open_ofstream w p = Some (out, w') -> q <> p -> w_files w' !! q = w_files w !! q.
Proof.
  unfold open_ofstream. intros H Hne.
  destruct (w_files w !! p) as [[|]|];
    try discriminate;
    destruct (negb (has_parent_path p) || fs_is_directory w (parent_path p));
    try discriminate; injection H as _ <-; simpl; apply lookup_insert_ne; congruence.
Qed.






(** ** Append *)

(** Whenever writing the new header fails, [Append] returns failure and the
    temporary file stays. *)
Lemma Append_header_failure w archive c inputs ins ins' old_entries new_entries out w1 out' :
  open_ifstream w archive = Some ins ->
  ReadArchiveHeader ins = (true, ins', old_entries) ->
  CollectNewEntries w inputs c [] = (true, new_entries) ->
  open_ofstream (fs_remove w (String.append archive ".tmp")) (String.append archive ".tmp")
    = Some (out, w1) ->
  WriteArchiveHeader out
    (AssignOffsets (old_entries ++ new_entries)
       (CalculateHeaderSize (old_entries ++ new_entries))) = (false, out') ->
  fst (Append w archive c inputs) = false /\
  w_files (snd (Append w archive c inputs)) !! String.append archive ".tmp"
    = Some (File (on_device out')).
Proof.
  intros Hopen Hread Hnew Htmp Hhdr. unfold Append.
  rewrite Hopen, Hread. taken.
  rewrite Hnew. taken.
  rewrite Htmp, Hhdr. simpl.
  split; [reflexivity|]. apply lookup_insert_eq.
Qed.

(** On a device with room for three more bytes, the archive of one entry,
    whose header fits into the buffer of the stream: no write shows an
    error, [Append] returns success, and the archive is replaced by the
    three bytes for which the device had room. *)
Lemma Append_short_header_full_device :
  fst (Append {| w_files := w_files example_archive; w_room := Some 3%nat |} "a.haf"
         (codec 8 4) ["present.bin"%string]) = true /\
  w_files (snd (Append {| w_files := w_files example_archive; w_room := Some 3%nat |} "a.haf"
                  (codec 8 4) ["present.bin"%string]))
    !! "a.haf"%string = Some (File magic).
Proof. vm_compute. split; reflexivity. Qed.

(** ** Concatenate *)

Lemma length_append s1 s2 :
  String.length (String.append s1 s2) = (String.length s1 + String.length s2)%nat.
Proof. induction s1 as [|a s1 IH]; simpl; [reflexivity|]. rewrite IH. reflexivity. Qed.

Lemma append_inj_r s1 s2 x : String.append s1 x = String.append s2 x -> s1 = s2.
Proof.
  revert s2. induction s1 as [|a s1 IH]; intros s2 H.
  - destruct s2 as [|b s2]; [reflexivity|].
    apply (f_equal String.length) in H. rewrite !length_append in H. simpl in H. lia.
  - destruct s2 as [|b s2].
    + apply (f_equal String.length) in H. rewrite !length_append in H. simpl in H. lia.
    + change (String a (String.append s1 x) = String b (String.append s2 x)) in H.
      injection H as -> H. f_equal. apply IH. exact H.
Qed.

Lemma suffixed_neq o s : suffixed o s <> o.
Proof.
  intros H. apply (f_equal String.length) in H. unfold suffixed in H.
  rewrite !length_append in H. simpl in H. lia.
Qed.

Lemma suffixed_inj o s t : suffixed o s = suffixed o t -> s = t.
Proof.
  unfold suffixed. intros H.
  apply String.app_inj in H. apply String.app_inj in H. apply append_inj_r in H.
  apply pretty_Z_inj in H. exact H.
Qed.

(** The loop either finds the first free candidate, or every candidate it
    had the fuel to test is in use. *)
Lemma rename_loop_spec used o fuel :
  forall new s,
  (fuel <> 0%nat /\ (new ∉ used) /\ rename_loop fuel used o new s = new) \/
  (new ∈ used /\ exists t, (s <= t < s + Z.of_nat fuel - 1) /\
     rename_loop fuel used o new s = suffixed o t /\ (suffixed o t ∉ used) /\
     forall u, s <= u < t -> suffixed o u ∈ used) \/
  (fuel = 0%nat \/
   (new ∈ used /\ forall i : nat, (Datatypes.S i < fuel)%nat -> suffixed o (s + Z.of_nat i) ∈ used)).
Proof.
  induction fuel as [|fuel IH]; intros new s.
  - right. right. left. reflexivity.
  - simpl. destruct (decide (new ∈ used)) as [Hin|Hout].
    + rewrite bool_decide_eq_true_2 by exact Hin.
      destruct (IH (suffixed o s) (s + 1)) as [(Hf & Hfree & Hres)|[(Hused & t & Ht & Hres & Hfree & Hbelow)|Hall]].
      * right. left. split; [exact Hin|]. exists s. split; [lia|].
        split; [exact Hres|]. split; [exact Hfree|]. intros u Hu. lia.
      * right. left. split; [exact Hin|]. exists t. split; [lia|].
        split; [exact Hres|]. split; [exact Hfree|]. intros u Hu.
        destruct (Z.eq_dec u s) as [->|Hne]; [exact Hused|apply Hbelow; lia].
      * right. right. right. split; [exact Hin|]. intros i Hi.
        destruct Hall as [->|[Hused Hall]]; [lia|].
        destruct i as [|i]; [rewrite Z.add_0_r; exact Hused|].
        replace (s + Z.of_nat (Datatypes.S i)) with (s + 1 + Z.of_nat i) by lia.
        apply Hall. lia.
    + rewrite bool_decide_eq_false_2 by exact Hout. left. auto.
Qed.

(** Pigeonhole: the original name and [size used] suffixed names cannot all
    be in [used]. *)
Lemma candidates_not_all_used (used : gset string) o :
  o ∈ used ->
  (forall i : nat, (i < size used)%nat -> suffixed o (2 + Z.of_nat i) ∈ used) -> False.
Proof.
  intros Ho Hall.
  set (l := o :: map (fun i : nat => suffixed o (2 + Z.of_nat i)) (seq 0 (size used))).
  assert (Hnd : NoDup l).
  { apply NoDup_cons. split.
    - intros Hin. apply list_elem_of_In, in_map_iff in Hin as (i & Hi & _).
      exact (suffixed_neq _ _ Hi).
    - apply NoDup_ListNoDup, Finite.Injective_map_NoDup; [|apply seq_NoDup].
      intros i j Hij. apply suffixed_inj in Hij. lia. }
  assert (Hsub : (list_to_set l : gset string) ⊆ used).
  { intros x Hx. apply elem_of_list_to_set in Hx. subst l.
    apply elem_of_cons in Hx as [->|Hx]; [exact Ho|].
    apply list_elem_of_In, in_map_iff in Hx as (i & <- & Hi).
    apply Hall. apply in_seq in Hi. lia. }
  apply subseteq_size in Hsub. rewrite size_list_to_set in Hsub by exact Hnd.
  subst l. simpl in Hsub. rewrite length_map, length_seq in Hsub. lia.
Qed.

Lemma free_name_fresh (used : gset string) n : n ∉ used -> free_name used n = n.
Proof. intros H. unfold free_name. rewrite bool_decide_eq_false_2 by exact H. reflexivity. Qed.

Lemma free_name_renamed (used : gset string) n :
  n ∈ used ->
  exists s, 2 <= s /\ free_name used n = suffixed n s /\ (suffixed n s ∉ used) /\
            forall t, 2 <= t < s -> suffixed n t ∈ used.
Proof.
  intros Hin. unfold free_name. rewrite bool_decide_eq_true_2 by exact Hin.
  destruct (rename_loop_spec used n (Datatypes.S (size used)) n 2)
    as [(_ & Hout & _)|[(_ & t & Ht & Hres & Hfree & Hbelow)|[Hz|[_ Hall]]]].
  - contradiction.
  - exists t. split; [lia|]. auto.
  - discriminate.
  - exfalso. apply (candidates_not_all_used used n Hin). intros i Hi. apply Hall. lia.
Qed.

Lemma free_name_not_used (used : gset string) n : free_name used n ∉ used.
Proof.
  destruct (decide (n ∈ used)) as [Hin|Hout].
  - destruct (free_name_renamed used n Hin) as (s & _ & -> & Hfree & _). exact Hfree.
  - rewrite free_name_fresh by exact Hout. exact Hout.
Qed.

Lemma collect_entries_cons e rest (used : gset string) combined :
  collect_entries (e :: rest) used combined
    = collect_entries rest ({[name (set_name e (free_name used (name e)))]} ∪ used)
        (combined ++ [set_name e (free_name used (name e))]).
Proof. reflexivity. Qed.

Lemma collect_entries_spec src :
  forall used combined,
  exists renamed,
    collect_entries src used combined
      = (list_to_set (map name renamed) ∪ used, combined ++ renamed) /\
    length renamed = length src /\
    forall i e e', src !! i = Some e -> renamed !! i = Some e' ->
      payload e' = payload e /\
      name e' = free_name (list_to_set (map name (take i renamed)) ∪ used) (name e).
Proof.
  induction src as [|e src IH]; intros used combined.
  - exists []. simpl. rewrite app_nil_r, (left_id_L ∅ (∪)).
    split; [reflexivity|]. split; [reflexivity|].
    intros i e e' H. discriminate H.
  - rewrite collect_entries_cons.
    set (e1 := set_name e (free_name used (name e))).
    destruct (IH ({[name e1]} ∪ used) (combined ++ [e1])) as (rr & Hres & Hlen & Hidx).
    exists (e1 :: rr). split; [|split].
    + rewrite Hres, <- app_assoc. cbn [map list_to_set].
      rewrite (assoc_L (∪)), (comm_L (∪) (list_to_set (map name rr)) {[name e1]}).
      reflexivity.
    + simpl. rewrite Hlen. reflexivity.
    + intros i x x' Hx Hx'. destruct i as [|i]; simpl in Hx, Hx'.
      * injection Hx as <-. injection Hx' as <-. split; [reflexivity|].
        cbn [take map list_to_set]. rewrite (left_id_L ∅ (∪)). reflexivity.
      * destruct (Hidx i x x' Hx Hx') as [Hp Hn]. split; [exact Hp|].
        rewrite Hn. cbn [take map list_to_set].
        rewrite (assoc_L (∪)), (comm_L (∪) (list_to_set (map name (take i rr))) {[name e1]}).
        reflexivity.
Qed.

Lemma collect_entries_app l1 l2 used combined :
  collect_entries (l1 ++ l2) used combined
    = collect_entries l2 (fst (collect_entries l1 used combined))
        (snd (collect_entries l1 used combined)).
Proof.
  revert used combined. induction l1 as [|e l1 IH]; intros used combined; [reflexivity|].
  simpl. apply IH.
Qed.

Lemma collect_sources_entries w srcs :
  forall used combined sources combined' sources',
  collect_sources w srcs used combined sources = Some (combined', sources') ->
  combined' = snd (collect_entries (concat (map (header_entries w) srcs)) used combined).
Proof.
  induction srcs as [|src srcs IH]; intros used combined sources combined' sources' H.
  - simpl in H. injection H as <- _. reflexivity.
  - simpl in H.
    destruct (open_ifstream w src) as [ins|] eqn:Eo; [|discriminate].
    destruct (ReadArchiveHeader ins) as [[ok ins'] es] eqn:Er. destruct ok; [|discriminate].
    taken in H.
    assert (Hh : header_entries w src = es)
      by (unfold header_entries, read_archive; rewrite Eo, Er; reflexivity).
    cbn [map concat]. rewrite collect_entries_app, Hh.
    destruct (collect_entries es used combined) as [u1 c1].
    apply IH in H. exact H.
Qed.

(** C8: [Concatenate] collects the entries of the source archives in
    input order; an entry whose name is free keeps it, and an entry whose
    name is in use gets the name with the smallest suffix [(s)], [s >= 2],
    that is free, where the names in use are those given to the entries
    collected before.  Two sources that each hold dup.bin give the entries
    dup.bin and dup.bin(2), in this order, and the second one extracts to
    the content of the second source. *)
Theorem C8_concatenate_renames :
  (forall (used : gset string) n, n ∉ used -> free_name used n = n) /\
  (forall (used : gset string) n, n ∈ used ->
     exists s, 2 <= s /\ free_name used n = suffixed n s /\ (suffixed n s ∉ used) /\
               forall t, 2 <= t < s -> suffixed n t ∈ used) /\
  (forall w srcs combined sources,
     collect_sources w srcs ∅ [] [] = Some (combined, sources) ->
     let originals := concat (map (header_entries w) srcs) in
     length combined = length originals /\
     forall i e e', originals !! i = Some e -> combined !! i = Some e' ->
       payload e' = payload e /\
       name e' = free_name (list_to_set (map name (take i combined))) (name e)) /\
  (fst example_concatenated = true /\
   map name <$> read_archive (snd example_concatenated) "c.haf"
     = Some ["dup.bin"; "dup.bin(2)"]%string /\
   w_files (snd (Extract (snd example_concatenated) "c.haf" (codec 8 4) []))
     !! "dup.bin(2)"%string = Some (File [x0a; x0b])).
Proof.
  split; [exact free_name_fresh|]. split; [exact free_name_renamed|]. split.
  - intros w srcs combined sources H originals.
    apply collect_sources_entries in H. fold originals in H.
    destruct (collect_entries_spec originals ∅ []) as (renamed & Hres & Hlen & Hidx).
    rewrite Hres in H. simpl in H. subst combined.
    split; [exact Hlen|]. intros i e e' He He'.
    destruct (Hidx i e e' He He') as [Hp Hn]. split; [exact Hp|].
    rewrite Hn, (right_id_L ∅ (∪)). reflexivity.
  - vm_compute. repeat split; reflexivity.
Qed.

Lemma C8_witness_dup :
  "dup.bin"%string ∈ ({["dup.bin"%string]} : gset string) /\
  ("other.bin"%string ∉ ({["dup.bin"%string]} : gset string)) /\
  free_name {["dup.bin"%string]} "dup.bin" = suffixed "dup.bin" 2 /\
  free_name {["dup.bin"%string]} "other.bin" = "other.bin"%string.
Proof.
  destruct C8_concatenate_renames as (Hfresh & Hrenamed & _).
  assert (Hin : "dup.bin"%string ∈ ({["dup.bin"%string]} : gset string))
    by (apply elem_of_singleton; reflexivity).
  assert (Hout : "other.bin"%string ∉ ({["dup.bin"%string]} : gset string))
    by (intros H; apply elem_of_singleton in H; discriminate H).
  repeat (split; [assumption|]). split.
  - destruct (Hrenamed {["dup.bin"%string]} "dup.bin"%string Hin)
      as (s & Hs & Hname & Hfree & Hbelow).
    rewrite Hname. f_equal.
    destruct (Z.eq_dec s 2) as [E|E]; [exact E|exfalso].
    assert (H2 : suffixed "dup.bin" 2 ∈ ({["dup.bin"%string]} : gset string))
      by (apply Hbelow; lia).
    apply elem_of_singleton in H2. discriminate H2.
  - apply Hfresh. exact Hout.
Defined.

(** * More on the block codec *)

(** ** Codewords without and with one error *)

(** A codeword decodes to the data bits it stores, without an error flag:
    all of [d] for the parameters of a proper Hamming code, its low
    [data_capacity (k + r)] bits in general. *)
Theorem DecodeBlock_inverts_EncodeBlock k r d :
  1 <= k <= 16 -> 1 <= r <= 8 ->
  DecodeBlock (codec k r) (EncodeBlock (codec k r) d)
    = (d mod 2 ^ data_capacity (k + r), false) /\
  (k + r + 1 <= 2 ^ r -> 0 <= d < 2 ^ k ->
   DecodeBlock (codec k r) (EncodeBlock (codec k r) d) = (d, false)).
Proof.
  intros Hk Hr. assert (Hn : 0 <= k + r <= 32) by lia.
  split; [apply DecodeBlock_EncodeBlock; exact Hn|].
  intros Hv Hd. rewrite DecodeBlock_EncodeBlock by exact Hn.
  rewrite mod_capacity_small by assumption. reflexivity.
Qed.

Lemma ex_clean_block_11_4 :
  1 <= 11 <= 16 /\ 1 <= 4 <= 8 /\ 11 + 4 + 1 <= 2 ^ 4 /\ 0 <= 1234 < 2 ^ 11 /\
  DecodeBlock (codec 11 4) (EncodeBlock (codec 11 4) 1234) = (1234, false).
Proof.
  do 4 (split; [simpl; lia|]).
  destruct (DecodeBlock_inverts_EncodeBlock 11 4 1234) as [_ H]; [lia|lia|].
  apply H; simpl; lia.
Defined.

(** The syndrome of a codeword is zero, and the syndrome of a codeword with
    the bit of index [i] flipped is the position [i + 1] of that bit. *)
Theorem CalculateSyndrome_locates_flip k r d :
  1 <= k <= 16 -> 1 <= r <= 8 ->
  CalculateSyndrome (EncodeBlock (codec k r) d) (k + r) = 0 /\
  forall i, 0 <= i < k + r ->
    CalculateSyndrome (Z.lxor (EncodeBlock (codec k r) d) (Z.shiftl 1 i)) (k + r) = i + 1.
Proof.
  intros Hk Hr. assert (Hn : 0 <= k + r <= 32) by lia.
  pose proof (EncodeBlock_checks k r d Hn) as Hc.
  split; [apply CalculateSyndrome_zero; assumption|].
  intros i Hi. rewrite Z.shiftl_1_l. replace i with (i + 1 - 1) at 1 by lia.
  apply CalculateSyndrome_flip; [exact Hn|exact Hc|lia].
Qed.

Lemma ex_syndrome_5_4 :
  1 <= 5 <= 16 /\ 1 <= 4 <= 8 /\ 0 <= 6 < 5 + 4 /\
  CalculateSyndrome (EncodeBlock (codec 5 4) 19) (5 + 4) = 0 /\
  CalculateSyndrome (Z.lxor (EncodeBlock (codec 5 4) 19) (Z.shiftl 1 6)) (5 + 4) = 6 + 1.
Proof.
  do 3 (split; [simpl; lia|]).
  destruct (CalculateSyndrome_locates_flip 5 4 19) as [H0 H1]; [lia|lia|].
  split; [exact H0|]. apply H1. simpl; lia.
Defined.

(** ** Two errors *)

(** The number of rounds of the doubling loop depends on [total] only. *)
Lemma doubling_rounds_unique n j1 j2 :
  0 <= n -> 0 <= j1 -> 0 <= j2 ->
  n < 2 ^ j1 -> (j1 = 0 \/ 2 ^ (j1 - 1) <= n) ->
  n < 2 ^ j2 -> (j2 = 0 \/ 2 ^ (j2 - 1) <= n) -> j1 = j2.
Proof.
  intros Hn H1 H2 Hlt1 Hle1 Hlt2 Hle2.
  assert (A : forall a b, 0 <= a -> 0 <= b -> n < 2 ^ b -> (a = 0 \/ 2 ^ (a - 1) <= n) -> a <= b).
  { intros a b Ha Hb Hlt [->|Hle]; [lia|].
    destruct (Z.le_gt_cases a b) as [|Hgt]; [assumption|exfalso].
    assert (2 ^ b <= 2 ^ (a - 1)) by (apply Z.pow_le_mono_r; lia). lia. }
  pose proof (A j1 j2 H1 H2 Hlt2 Hle1). pose proof (A j2 j1 H2 H1 Hlt1 Hle2). lia.
Qed.

(** The syndrome is linear: flipping the bit of position [q] adds [q]. *)
Lemma CalculateSyndrome_lxor_pow2 cw n q :
  0 <= n <= 32 -> 1 <= q <= n ->
  CalculateSyndrome (Z.lxor cw (2 ^ (q - 1))) n = Z.lxor (CalculateSyndrome cw n) q.
Proof.
  intros Hn Hq.
  destruct (CalculateSyndrome_bits (Z.lxor cw (2 ^ (q - 1))) n Hn) as (j & Hj & H1 & H2 & H3).
  destruct (CalculateSyndrome_bits cw n Hn) as (j' & Hj' & H1' & H2' & H3').
  assert (j' = j) by (apply (doubling_rounds_unique n); assumption || lia). subst j'.
  apply Z.bits_inj'. intros t Ht.
  rewrite Z.lxor_spec, H3, H3', cov_flip by lia.
  rewrite Z2Nat.id by lia. destruct (Z.leb_spec q n); [|lia]. simpl andb.
  rewrite covers_pow2 by lia.
  destruct (Z.ltb_spec t j) as [Hlt|Hge]; simpl andb; [reflexivity|].
  rewrite (Z.bits_above_log2 q t); [reflexivity|lia|].
  apply Z.log2_lt_pow2; [lia|].
  assert (2 ^ j <= 2 ^ t) by (apply Z.pow_le_mono_r; lia). lia.
Qed.

(** The sum of two different powers of two is not a parity position. *)
Lemma two_bits_not_parity a b :
  0 <= a < b -> is_parity_position (Z.lxor (2 ^ a) (2 ^ b)) = false.
Proof.
  intros Hab.
  pose proof (Z.pow_pos_nonneg 2 a ltac:(lia) ltac:(lia)) as Ha.
  assert (Hlt : 2 ^ a < 2 ^ b) by (apply Z.pow_lt_mono_r; lia).
  assert (E : Z.lxor (2 ^ a) (2 ^ b) = 2 ^ a + 2 ^ b).
  { rewrite <- lor_pow2_add by lia. symmetry. apply lor_pow2_fresh; [lia|].
    apply Z.pow2_bits_false. lia. }
  rewrite E. unfold is_parity_position. apply Z.eqb_neq. intros H0.
  assert (Hb : Z.testbit (Z.land (2 ^ a + 2 ^ b) (2 ^ a + 2 ^ b - 1)) b = true).
  { rewrite Z.land_spec.
    rewrite <- (lor_pow2_add (2 ^ a) b) by lia.
    replace (Z.lor (2 ^ a) (2 ^ b) - 1) with ((2 ^ a - 1) + 2 ^ b)
      by (rewrite lor_pow2_add by lia; lia).
    rewrite <- (lor_pow2_add (2 ^ a - 1) b) by lia.
    rewrite !Z.lor_spec, Z.pow2_bits_true by lia. rewrite !orb_true_r. reflexivity. }
  rewrite H0, Z.bits_0 in Hb. discriminate Hb.
Qed.

Lemma dcount_data_position t m :
  (t < m)%nat -> is_parity_position (Z.of_nat t + 1) = false -> dcount t + 1 <= dcount m.
Proof.
  intros Hlt Hpar.
  assert (H : dcount (Datatypes.S t) <= dcount m) by (apply dcount_mono; lia).
  simpl dcount in H.
  replace (Z.of_nat (Datatypes.S t)) with (Z.of_nat t + 1) in H by lia.
  rewrite Hpar in H. lia.
Qed.

(** The loop of [ExtractDataBits], bit by bit, on any word. *)
Lemma extract_loop_bits cw m :
  (m <= 32)%nat ->
  let st := for_range m 1 (extract_step cw) (0, 0) in
  snd st = dcount m /\
  (forall u, dcount m <= u -> Z.testbit (fst st) u = false) /\
  (forall t, (t < m)%nat -> is_parity_position (Z.of_nat t + 1) = false ->
     Z.testbit (fst st) (dcount t) = Z.testbit cw (Z.of_nat t)).
Proof.
  induction m as [|m IH]; intros Hm.
  - simpl. split; [reflexivity|]. split; [intros; apply Z.bits_0|]. intros t Ht. lia.
  - cbv zeta. rewrite for_range_snoc.
    destruct IH as (IH1 & IH2 & IH3); [lia|]. cbv zeta in IH1, IH2, IH3.
    destruct (for_range m 1 (extract_step cw) (0, 0)) as [v di]. simpl in IH1, IH2, IH3.
    subst di. unfold extract_step.
    replace (1 + Z.of_nat m) with (Z.of_nat (Datatypes.S m)) by lia.
    simpl dcount. pose proof (dcount_bounds m) as Hd.
    destruct (is_parity_position (Z.of_nat (Datatypes.S m))) eqn:Epar.
    + simpl. split; [lia|]. split; [intros u Hu; apply IH2; lia|].
      intros t Ht Hpar. apply IH3; [|exact Hpar].
      destruct (Nat.eq_dec t m) as [->|]; [|lia].
      replace (Z.of_nat m + 1) with (Z.of_nat (Datatypes.S m)) in Hpar by lia. congruence.
    + replace (Z.of_nat (Datatypes.S m) - 1) with (Z.of_nat m) by lia.
      rewrite land_shiftr_1_eqb, negb_involutive, shl1_pow2 by lia.
      simpl. split; [lia|]. split.
      * intros u Hu. destruct (Z.testbit cw (Z.of_nat m)); [|apply IH2; lia].
        rewrite Z.lor_spec, IH2, Z.pow2_bits_false by lia. reflexivity.
      * intros t Ht Hpar. destruct (Nat.eq_dec t m) as [->|Hne].
        -- destruct (Z.testbit cw (Z.of_nat m)).
           ++ rewrite Z.lor_spec, Z.pow2_bits_true by lia. apply orb_true_r.
           ++ apply IH2. lia.
        -- pose proof (dcount_data_position t m ltac:(lia) Hpar) as Hlt.
           pose proof (dcount_bounds t) as Hdt.
           rewrite <- (IH3 t) by (lia || exact Hpar).
           destruct (Z.testbit cw (Z.of_nat m)); [|reflexivity].
           rewrite Z.lor_spec, Z.pow2_bits_false by lia. apply orb_false_r.
Qed.

Lemma ExtractDataBits_bit cw n t :
  0 <= n <= 32 -> 0 <= t < n -> is_parity_position (t + 1) = false ->
  Z.testbit (ExtractDataBits cw n) (dcount (Z.to_nat t)) = Z.testbit cw t.
Proof.
  intros Hn Ht Hpar. unfold ExtractDataBits.
  destruct (extract_loop_bits cw (Z.to_nat n)) as (_ & _ & H); [lia|].
  rewrite (H (Z.to_nat t)) by (try lia; rewrite Z2Nat.id by lia; exact Hpar).
  rewrite Z2Nat.id by lia. reflexivity.
Qed.

(** Among two different positions and their XOR, one is a data position. *)
Lemma data_position_among p q :
  1 <= p -> 1 <= q -> p <> q ->
  is_parity_position p = false \/ is_parity_position q = false \/
  is_parity_position (Z.lxor p q) = false.
Proof.
  intros Hp Hq Hne.
  destruct (is_parity_position p) eqn:Ep; [|left; reflexivity].
  destruct (is_parity_position q) eqn:Eq; [|right; left; reflexivity].
  right. right.
  apply is_parity_position_pow2 in Ep as (a & Ha & ->); [|lia].
  apply is_parity_position_pow2 in Eq as (b & Hb & ->); [|lia].
  destruct (Z.lt_total a b) as [Hlt|[->|Hgt]]; [|congruence|].
  - apply two_bits_not_parity. lia.
  - rewrite Z.lxor_comm. apply two_bits_not_parity. lia.
Qed.

Lemma lxor_neq_l p q : q <> 0 -> Z.lxor p q <> p.
Proof.
  intros Hq H. apply Hq.
  assert (E : q = Z.lxor p (Z.lxor p q))
    by (rewrite <- Z.lxor_assoc, Z.lxor_nilpotent, Z.lxor_0_l; reflexivity).
  rewrite H, Z.lxor_nilpotent in E. exact E.
Qed.

Lemma lxor_positions_bound p q n j :
  0 <= j -> n < 2 ^ j -> 1 <= p <= n -> 1 <= q <= n -> 0 <= Z.lxor p q < 2 ^ j.
Proof.
  intros Hj Hn Hp Hq. apply bits_above_bound; [lia|]. intros t Ht.
  assert (2 ^ j <= 2 ^ t) by (apply Z.pow_le_mono_r; lia).
  rewrite Z.lxor_spec, !Z.bits_above_log2; try reflexivity; try lia;
    apply Z.log2_lt_pow2; lia.
Qed.

(** A codeword with the bits of two different indices flipped is never
    taken for the codeword it was: [DecodeBlock] either flags an error or
    returns data that differ from the data stored. *)
Theorem DecodeBlock_two_flips_not_original k r d i j :
  1 <= k <= 16 -> 1 <= r <= 8 -> 0 <= i < k + r -> 0 <= j < k + r -> i <> j ->
  let received :=
    Z.lxor (Z.lxor (EncodeBlock (codec k r) d) (Z.shiftl 1 i)) (Z.shiftl 1 j) in
  DecodeBlock (codec k r) received = (0, true) \/
  exists d', DecodeBlock (codec k r) received = (d', false) /\
             d' <> d mod 2 ^ data_capacity (k + r).
Proof.
  intros Hk Hr Hi Hj Hne received. subst received.
  assert (Hn : 0 <= k + r <= 32) by lia.
  pose proof (EncodeBlock_checks k r d Hn) as Hc.
  set (E := EncodeBlock (codec k r) d) in *.
  rewrite !Z.shiftl_1_l.
  set (s := Z.lxor (i + 1) (j + 1)).
  assert (Hs : CalculateSyndrome (Z.lxor (Z.lxor E (2 ^ i)) (2 ^ j)) (k + r) = s).
  { replace (2 ^ j) with (2 ^ (j + 1 - 1)) by (f_equal; lia).
    rewrite CalculateSyndrome_lxor_pow2 by lia.
    replace (2 ^ i) with (2 ^ (i + 1 - 1)) by (f_equal; lia).
    rewrite CalculateSyndrome_lxor_pow2 by lia.
    rewrite (CalculateSyndrome_zero _ _ Hn Hc), Z.lxor_0_l. reflexivity. }
  assert (Hs0 : s <> 0).
  { intros H0. apply Z.lxor_eq in H0. lia. }
  assert (Hspos : 0 <= s) by (apply Z.lxor_nonneg; lia).
  unfold DecodeBlock. simpl total_bits_. rewrite Hs.
  destruct (Z.eqb_spec s 0) as [|_]; [contradiction|]. taken.
  destruct (Z.leb_spec s (k + r)) as [Hle|Hgt]; [|left; reflexivity].
  right. taken. rewrite shl1_pow2 by lia.
  assert (Hv : CalculateSyndrome (Z.lxor (Z.lxor (Z.lxor E (2 ^ i)) (2 ^ j)) (2 ^ (s - 1))) (k + r)
               = 0).
  { rewrite CalculateSyndrome_lxor_pow2, Hs by lia. apply Z.lxor_nilpotent. }
  rewrite Hv. simpl. eexists. split; [reflexivity|].
  (* a flipped data position *)
  assert (Hsi : s <> i + 1) by (apply lxor_neq_l; lia).
  assert (Hsj : s <> j + 1) by (unfold s; rewrite Z.lxor_comm; apply lxor_neq_l; lia).
  assert (Hq : exists q, 1 <= q <= k + r /\ is_parity_position q = false /\
                         (q = i + 1 \/ q = j + 1 \/ q = s)).
  { destruct (data_position_among (i + 1) (j + 1)) as [H|[H|H]]; try lia.
    - exists (i + 1). split; [lia|]. auto.
    - exists (j + 1). split; [lia|]. auto.
    - exists s. split; [lia|]. auto. }
  destruct Hq as (q & Hqr & Hpar & Hwhich).
  intros Heq.
  assert (Hbit : Z.testbit (ExtractDataBits
                   (Z.lxor (Z.lxor (Z.lxor E (2 ^ i)) (2 ^ j)) (2 ^ (s - 1))) (k + r))
                   (dcount (Z.to_nat (q - 1)))
                 = negb (Z.testbit E (q - 1))).
  { rewrite ExtractDataBits_bit by (try lia; replace (q - 1 + 1) with q by lia; exact Hpar).
    rewrite !testbit_lxor_pow2 by lia.
    destruct (Z.eqb_spec i (q - 1)), (Z.eqb_spec j (q - 1)), (Z.eqb_spec (s - 1) (q - 1));
      try lia; destruct (Z.testbit E (q - 1)); reflexivity. }
  rewrite Heq in Hbit.
  pose proof (dcount_data_position (Z.to_nat (q - 1)) (Z.to_nat (k + r)) ltac:(lia)) as Hdc.
  rewrite Z2Nat.id in Hdc by lia. replace (q - 1 + 1) with q in Hdc by lia.
  specialize (Hdc Hpar). pose proof (dcount_bounds (Z.to_nat (q - 1))) as Hdb.
  rewrite Z.mod_pow2_bits_low in Hbit by (unfold data_capacity; lia).
  unfold E in Hbit.
  rewrite (EncodeBlock_data_bits k r d Hn) in Hbit
    by (try lia; replace (q - 1 + 1) with q by lia; exact Hpar).
  destruct (Z.testbit d (dcount (Z.to_nat (q - 1)))); discriminate Hbit.
Qed.

Lemma ex_two_flips_8_4 :
  1 <= 8 <= 16 /\ 1 <= 4 <= 8 /\ 0 <= 0 < 8 + 4 /\ 0 <= 1 < 8 + 4 /\ 0 <> 1 /\
  (DecodeBlock (codec 8 4)
     (Z.lxor (Z.lxor (EncodeBlock (codec 8 4) 173) (Z.shiftl 1 0)) (Z.shiftl 1 1)) = (0, true) \/
   exists d', DecodeBlock (codec 8 4)
                (Z.lxor (Z.lxor (EncodeBlock (codec 8 4) 173) (Z.shiftl 1 0)) (Z.shiftl 1 1))
              = (d', false) /\ d' <> 173 mod 2 ^ data_capacity (8 + 4)).
Proof.
  do 5 (split; [simpl; lia|]).
  apply (DecodeBlock_two_flips_not_original 8 4 173 0 1); simpl; lia.
Defined.

(** * More on the stream codec *)

(** ** Writing behind bytes that are already there *)

Lemma push_prefix pre a p b :
  push (pre ++ a, p) b = (pre ++ fst (push (a, p) b), snd (push (a, p) b)).
Proof.
  unfold push. cbn [fst snd]. destruct (length (p ++ [b]) =? 8)%nat; cbn [fst snd].
  - rewrite <- app_assoc. reflexivity.
  - reflexivity.
Qed.

Lemma fold_push_prefix bits pre a p :
  fold_left push bits (pre ++ a, p)
    = (pre ++ fst (fold_left push bits (a, p)), snd (fold_left push bits (a, p))).
Proof.
  revert a p. induction bits as [|b bits IH]; intros a p; [reflexivity|].
  cbn [fold_left]. rewrite push_prefix.
  destruct (push (a, p) b) as [a' p'] eqn:E. cbn [fst snd]. apply IH.
Qed.

Lemma flush_behind pre bits :
  flush_bytes (fold_left push bits (pre, [])) = pre ++ pack bits.
Proof.
  unfold pack. rewrite <- (app_nil_r pre) at 1. rewrite fold_push_prefix.
  destruct (fold_left push bits ([], [])) as [a p]. unfold flush_bytes. cbn [fst snd].
  destruct p; [reflexivity|]. rewrite <- app_assoc. reflexivity.
Qed.

Lemma FlushOutputByte_keeps w st :
  wr_rel w st ->
  exists out, FlushOutputByte w = (true, out) /\ o_data out = flush_bytes st /\
              o_room out = None /\ o_fail out = false.
Proof.
  intros (Hd & Hroom & Hfail & Hbyte & Hcnt & Hlen). unfold FlushOutputByte, flush_bytes.
  destruct (snd st) as [|b p] eqn:E.
  - rewrite Hcnt. simpl. eauto.
  - rewrite Hcnt. simpl length.
    destruct (Z.eqb_spec (Z.of_nat (Datatypes.S (length p))) 0); [lia|].
    unfold put, o_good. rewrite Hfail, Hroom. simpl. eexists. split; [reflexivity|].
    simpl. rewrite Hd, Hbyte. auto.
Qed.

Lemma unpack_app a b : unpack (a ++ b) = unpack a ++ unpack b.
Proof. unfold unpack. rewrite map_app, concat_app. reflexivity. Qed.

(** ** EncodeStream on any pair of streams *)

Lemma EncodeStream_general c ins out :
  1 <= data_bits_ c <= 32 -> 0 <= total_bits_ c ->
  i_good ins = true -> o_room out = None -> o_fail out = false ->
  exists ins' out',
    EncodeStream c ins out = (true, ins', out') /\
    o_data out'
      = o_data out ++ pack (code_bits c (enc_blocks (Z.to_nat (data_bits_ c)) []
                                           (unpack (drop (i_pos ins) (i_data ins))))) /\
    o_room out' = None /\ o_fail out' = false /\
    i_data ins' = i_data ins /\ i_eof ins' = true.
Proof.
  intros Hk Hn Hi Hroom Hfail. unfold EncodeStream, o_good. rewrite Hi, Hfail.
  simpl negb. simpl orb. cbv iota.
  set (st0 := {| e_block := 0; e_block_bits := 0;
                 e_w := {| w_byte := 0; w_count := 0; w_out := out |} |}).
  assert (H0 : enc_rel c st0 ([], (o_data out, []))).
  { unfold enc_rel, wr_rel. simpl. repeat split; auto; lia. }
  destruct (encode_loop_ok c Hk Hn (drop (i_pos ins) (i_data ins)) 0 st0 _ H0)
    as (st & E & Hrel).
  rewrite E. taken. simpl i_eof. taken.
  pose proof (afinish_blocks c (unpack (drop (i_pos ins) (i_data ins))) [] (o_data out, [])
                ltac:(lia) ltac:(simpl; lia)) as Hfin.
  rewrite <- flush_behind, <- Hfin.
  destruct Hrel as (Hb & Hc & Hlt & Hw). unfold afinish.
  destruct (fold_left (astep c) (unpack (drop (i_pos ins) (i_data ins))) ([], (o_data out, [])))
    as [pd ws] eqn:Ea.
  cbn [fst snd] in *.
  destruct pd as [|p0 pd].
  - simpl in Hc. rewrite Hc. simpl.
    destruct (FlushOutputByte_keeps _ _ Hw) as (out' & Eo & Ho & Hr' & Hf'). rewrite Eo.
    do 2 eexists. split; [reflexivity|]. simpl. auto.
  - rewrite Hc. simpl length.
    destruct (Z.ltb_spec 0 (Z.of_nat (Datatypes.S (length pd)))) as [_|]; [|lia].
    destruct (EncodeAndWriteBlock_ok c (e_block st) _ _ Hn Hw) as (w' & Ew & Hw').
    rewrite Ew. taken.
    destruct (FlushOutputByte_keeps _ _ Hw') as (out' & Eo & Ho & Hr' & Hf'). rewrite Eo.
    do 2 eexists. split; [reflexivity|]. rewrite Ho, Hb. simpl. auto.
Qed.

(** On streams in a good state, over a device that takes every byte,
    [EncodeStream] succeeds, reads its input to the end and appends to the
    output exactly the bytes that encoding the unread input gives. *)
Theorem EncodeStream_appends_encoding k r ins out :
  1 <= k <= 16 -> 1 <= r <= 8 ->
  i_good ins = true -> o_room out = None -> o_fail out = false ->
  exists ins' out',
    EncodeStream (codec k r) ins out = (true, ins', out') /\
    o_data out' = o_data out ++ snd (encode k r (drop (i_pos ins) (i_data ins))) /\
    o_room out' = None /\ o_fail out' = false /\
    i_data ins' = i_data ins /\ i_eof ins' = true.
Proof.
  intros Hk Hr Hi Hroom Hfail. rewrite encode_ok by lia. cbn [snd].
  apply (EncodeStream_general (codec k r)); simpl; auto; lia.
Qed.

Lemma ex_encode_behind_header :
  1 <= 8 <= 16 /\ 1 <= 4 <= 8 /\
  i_good {| i_data := [x00; x41; x42]; i_pos := 1; i_eof := false; i_fail := false |} = true /\
  o_room {| o_data := [xff]; o_room := None; o_fail := false |} = None /\
  o_fail {| o_data := [xff]; o_room := None; o_fail := false |} = false /\
  exists ins' out',
    EncodeStream (codec 8 4)
      {| i_data := [x00; x41; x42]; i_pos := 1; i_eof := false; i_fail := false |}
      {| o_data := [xff]; o_room := None; o_fail := false |} = (true, ins', out') /\
    o_data out' = [xff] ++ snd (encode 8 4 [x41; x42]).
Proof.
  do 2 (split; [lia|]). do 3 (split; [reflexivity|]).
  destruct (EncodeStream_appends_encoding 8 4
              {| i_data := [x00; x41; x42]; i_pos := 1; i_eof := false; i_fail := false |}
              {| o_data := [xff]; o_room := None; o_fail := false |})
    as (ins' & out' & E & Ho & _); [lia|lia|reflexivity|reflexivity|reflexivity|].
  exists ins', out'. split; [exact E|exact Ho].
Defined.

(** ** Decoding received blocks *)

Lemma decode_received k r ob blocks :
  1 <= k <= 16 -> 1 <= r <= 8 ->
  forall rcv st tail ws,
  blocks_ok (Z.to_nat k) blocks ->
  Forall2 (recv_ok (codec k r)) blocks rcv ->
  rd_rel (d_rd st) (concat rcv ++ tail) ->
  d_codeword st = 0 -> d_collected st = 0 -> wr_rel (d_w st) ws ->
  0 <= d_bits_written st ->
  d_bits_written st + Z.of_nat (length (concat blocks)) = ob ->
  ob + 16 < 2 ^ 64 ->
  exists st',
    decode_loop (codec k r) ob (Z.to_nat (k + r) * length blocks) st = (true, st') /\
    wr_rel (d_w st') (fold_left push (concat blocks) ws) /\
    rd_rel (d_rd st') tail.
Proof.
  intros Hk Hr.
  induction blocks as [|blk rest IH]; intros rcv st tail ws Hok Hrcv Hrd Hcw Hcol Hw Hbw Hob Hmax.
  - apply Forall2_nil_inv_l in Hrcv. subst rcv.
    rewrite Nat.mul_0_r. simpl. exists st. auto.
  - apply Forall2_cons_inv_l in Hrcv as (code & rcv' & [Hlen Hdec] & Hrcv' & ->).
    simpl total_bits_ in Hlen.
    replace (Z.to_nat (k + r) * length (blk :: rest))%nat
      with (length code + Z.to_nat (k + r) * length rest)%nat by (simpl; lia).
    cbn [concat] in Hrd. rewrite <- app_assoc in Hrd.
    assert (Hblk : (1 <= length blk <= Z.to_nat k)%nat).
    { simpl in Hok. destruct rest; [exact Hok|]. destruct Hok as [-> _]. lia. }
    cbn [concat] in Hob. rewrite length_app in Hob.
    assert (Hbto : (if u64 (d_bits_written st + data_bits_ (codec k r)) >? ob
                    then s32 (u64 (ob - d_bits_written st)) else data_bits_ (codec k r))
                   = Z.of_nat (length blk)).
    { simpl data_bits_. rewrite !u64_small by lia.
      simpl in Hok. destruct rest as [|b2 rest'].
      - simpl in Hob. destruct (Z.gtb_spec (d_bits_written st + k) ob); [|lia].
        rewrite s32_small by lia. lia.
      - destruct Hok as [E _]. destruct (Z.gtb_spec (d_bits_written st + k) ob); lia. }
    destruct (decode_block_rounds (codec k r) ob code
                ltac:(simpl; lia) [] st (concat rcv' ++ tail)
                (Z.to_nat (k + r) * length rest)%nat ws (bits_value blk))
      as (st1 & E1 & Hrd1 & Hcw1 & Hcol1 & Hw1 & Hbw1).
    + intros Hnil. subst code. simpl in Hlen. lia.
    + simpl. lia.
    + exact Hrd.
    + rewrite Hcw. reflexivity.
    + rewrite Hcol. reflexivity.
    + exact Hw.
    + exact Hdec.
    + cbv zeta in Hw1, Hbw1. rewrite Hbto in Hw1, Hbw1.
      rewrite Nat2Z.id, value_bits_bits_value in Hw1.
      rewrite u64_small in Hbw1 by lia.
      destruct (IH rcv' st1 tail (fold_left push blk ws)) as (st2 & E2 & Hw2 & Hrd2);
        try assumption; try lia.
      * simpl in Hok. destruct rest; [exact I|]. apply Hok.
      * exists st2. split; [rewrite E1; exact E2|].
        split; [|exact Hrd2]. cbn [concat]. rewrite fold_left_app. exact Hw2.
Qed.

Lemma rd_rel_data rd bits :
  rd_rel rd bits -> i_good (r_in rd) = true.
Proof. intros (H & _). exact H. Qed.

(** [DecodeStream] on an input whose unread bits are the received blocks of
    the data blocks of [B], followed by anything. *)
Lemma DecodeStream_received k r B rcv tail ins out es :
  1 <= k <= 16 -> 1 <= r <= 8 ->
  Z.of_nat (length B) < 2 ^ 56 ->
  i_good ins = true -> o_room out = None -> o_fail out = false ->
  Forall2 (recv_ok (codec k r)) (enc_blocks (Z.to_nat k) [] (unpack B)) rcv ->
  unpack (drop (i_pos ins) (i_data ins)) = concat rcv ++ tail ->
  exists ins' out',
    DecodeStream (codec k r) ins out (Z.of_nat (length B)) es = (true, ins', out') /\
    o_data out' = o_data out ++ B /\ o_room out' = None /\ o_fail out' = false /\
    i_good ins' = true.
Proof.
  intros Hk Hr Hsize Hi Hroom Hfail Hrcv Hbits.
  set (blocks := enc_blocks (Z.to_nat k) [] (unpack B)) in *.
  unfold DecodeStream, o_good. rewrite Hi, Hfail. simpl negb. simpl orb. cbv iota.
  rewrite u64_small by lia.
  destruct (Z.eqb_spec (Z.of_nat (length B) * 8) 0) as [E0|E0].
  - do 2 eexists. split; [reflexivity|].
    destruct B; [|simpl in E0; lia]. rewrite app_nil_r. auto.
  - simpl data_bits_. simpl total_bits_.
    assert (Hcount : Z.of_nat (length blocks) = (Z.of_nat (length B) * 8 + k - 1) / k).
    { subst blocks. rewrite enc_blocks_length by (simpl; lia).
      rewrite length_unpack. simpl length. rewrite Z2Nat.id by lia. do 2 f_equal. lia. }
    assert (Hcle : Z.of_nat (length blocks) <= Z.of_nat (length B) * 8).
    { rewrite Hcount. apply Z.div_le_upper_bound; nia. }
    rewrite (u64_small k), (u64_small (k + r)) by lia.
    rewrite (u64_small (Z.of_nat (length B) * 8 + k - 1)) by lia.
    rewrite <- Hcount. rewrite u64_small by nia.
    replace (Z.to_nat (Z.of_nat (length blocks) * (k + r)))
      with (Z.to_nat (k + r) * length blocks)%nat by nia.
    set (st0 := {| d_rd := {| r_in := ins; r_byte := 0; r_avail := 0 |};
                   d_codeword := 0; d_collected := 0;
                   d_w := {| w_byte := 0; w_count := 0; w_out := out |};
                   d_bits_written := 0 |}).
    destruct (decode_received k r (Z.of_nat (length B) * 8) blocks Hk Hr rcv st0 tail
                (o_data out, []))
      as (st' & E & Hw & Hrd).
    + subst blocks. apply enc_blocks_ok. simpl. lia.
    + exact Hrcv.
    + unfold rd_rel. simpl. rewrite Hbits. auto with lia.
    + reflexivity.
    + reflexivity.
    + unfold wr_rel. simpl. repeat split; auto; lia.
    + simpl. lia.
    + subst blocks. rewrite enc_blocks_concat. simpl. rewrite length_unpack. lia.
    + lia.
    + rewrite E. taken.
      subst blocks. rewrite enc_blocks_concat in Hw. simpl app in Hw.
      rewrite fold_push_bytes in Hw.
      destruct (FlushOutputByte_keeps _ _ Hw) as (out' & Eo & Ho & Hr' & Hf'). rewrite Eo.
      do 2 eexists. split; [reflexivity|]. rewrite Ho.
      split; [reflexivity|]. split; [exact Hr'|]. split; [exact Hf'|].
      apply (rd_rel_data _ _ Hrd).
Qed.

Lemma recv_ok_intact k r blk :
  1 <= k <= 16 -> 1 <= r <= 8 -> k + r + 1 <= 2 ^ r ->
  (length blk <= Z.to_nat k)%nat ->
  recv_ok (codec k r) blk (block_code (codec k r) blk).
Proof.
  intros Hk Hr Hv Hlen. split.
  - rewrite length_block_code. simpl. lia.
  - apply (block_roundtrip k r Hk Hr Hv blk Hlen).
Qed.

Lemma blocks_ok_lengths k blocks blk :
  blocks_ok k blocks -> blk ∈ blocks -> (length blk <= k)%nat.
Proof.
  induction blocks as [|b rest IH]; intros Hok Hin.
  - apply elem_of_nil in Hin. contradiction.
  - simpl in Hok. apply elem_of_cons in Hin as [->|Hin].
    + destruct rest; [lia|]. destruct Hok as [-> _]. lia.
    + destruct rest as [|b2 rest']; [apply elem_of_nil in Hin; contradiction|].
      apply IH; [apply Hok|exact Hin].
Qed.

Lemma recv_ok_all_intact k r blocks :
  1 <= k <= 16 -> 1 <= r <= 8 -> k + r + 1 <= 2 ^ r ->
  blocks_ok (Z.to_nat k) blocks ->
  Forall2 (recv_ok (codec k r)) blocks (map (block_code (codec k r)) blocks).
Proof.
  intros Hk Hr Hv Hok.
  assert (Hlen : forall blk, blk ∈ blocks -> (length blk <= Z.to_nat k)%nat)
    by (intros blk; apply blocks_ok_lengths; exact Hok).
  clear Hok. induction blocks as [|blk rest IH]; [constructor|].
  cbn [map]. constructor.
  - apply recv_ok_intact; try assumption. apply Hlen. apply list_elem_of_here.
  - apply IH. intros b Hb. apply Hlen. apply list_elem_of_further. exact Hb.
Qed.

(** For the parameters of a proper Hamming code, [DecodeStream] started
    anywhere in an input stream where the encoding of [B] begins succeeds and
    appends exactly [B] to the output, whatever follows the encoding; the
    input stream stays in a good state. *)
Theorem DecodeStream_inverts_encoding k r B ins out rest es :
  1 <= k <= 16 -> 1 <= r <= 8 -> k + r + 1 <= 2 ^ r ->
  Z.of_nat (length B) < 2 ^ 56 ->
  i_good ins = true -> o_room out = None -> o_fail out = false ->
  drop (i_pos ins) (i_data ins) = snd (encode k r B) ++ rest ->
  exists ins' out',
    DecodeStream (codec k r) ins out (Z.of_nat (length B)) es = (true, ins', out') /\
    o_data out' = o_data out ++ B /\ o_room out' = None /\ o_fail out' = false /\
    i_good ins' = true.
Proof.
  intros Hk Hr Hv Hsize Hi Hroom Hfail Hdata.
  rewrite encode_ok in Hdata by lia. cbn [snd] in Hdata.
  destruct (unpack_pack (code_bits (codec k r) (enc_blocks (Z.to_nat k) [] (unpack B))))
    as (pad & Hpad).
  apply (DecodeStream_received k r B
           (map (block_code (codec k r)) (enc_blocks (Z.to_nat k) [] (unpack B)))
           (repeat false pad ++ unpack rest)); try assumption.
  - apply recv_ok_all_intact; try assumption. apply enc_blocks_ok. simpl. lia.
  - rewrite Hdata, unpack_app, Hpad, <- app_assoc. reflexivity.
Qed.

Lemma ex_decode_inside_stream :
  1 <= 8 <= 16 /\ 1 <= 4 <= 8 /\ 8 + 4 + 1 <= 2 ^ 4 /\
  Z.of_nat (length [x41; x42]) < 2 ^ 56 /\
  exists ins' out',
    DecodeStream (codec 8 4)
      {| i_data := [x00] ++ snd (encode 8 4 [x41; x42]) ++ [x07; x08]; i_pos := 1;
         i_eof := false; i_fail := false |}
      {| o_data := [xff]; o_room := None; o_fail := false |}
      (Z.of_nat (length [x41; x42])) 0 = (true, ins', out') /\
    o_data out' = [xff] ++ [x41; x42].
Proof.
  do 3 (split; [simpl; lia|]). split; [simpl; lia|].
  destruct (DecodeStream_inverts_encoding 8 4 [x41; x42]
              {| i_data := [x00] ++ snd (encode 8 4 [x41; x42]) ++ [x07; x08]; i_pos := 1;
                 i_eof := false; i_fail := false |}
              {| o_data := [xff]; o_room := None; o_fail := false |} [x07; x08] 0)
    as (ins' & out' & E & Ho & _);
    [lia|lia|simpl; lia|simpl; lia|reflexivity|reflexivity|reflexivity|reflexivity|].
  exists ins', out'. split; [exact E|exact Ho].
Defined.

(** ** One damaged bit in the encoded stream *)

Lemma length_flip_nth j l : length (flip_nth j l) = length l.
Proof.
  revert j. induction l as [|b l IH]; intros j; [reflexivity|].
  destruct j; simpl; [reflexivity|]. rewrite IH. reflexivity.
Qed.

Lemma flip_nth_app_l j l1 l2 :
  (j < length l1)%nat -> flip_nth j (l1 ++ l2) = flip_nth j l1 ++ l2.
Proof.
  revert j. induction l1 as [|b l1 IH]; intros j Hj; [simpl in Hj; lia|].
  destruct j; simpl; [reflexivity|]. rewrite IH by (simpl in Hj; lia). reflexivity.
Qed.

Lemma flip_nth_app_r j l1 l2 :
  (length l1 <= j)%nat -> flip_nth j (l1 ++ l2) = l1 ++ flip_nth (j - length l1) l2.
Proof.
  revert j. induction l1 as [|b l1 IH]; intros j Hj.
  - simpl. rewrite Nat.sub_0_r. reflexivity.
  - destruct j; simpl in *; [lia|]. rewrite IH by lia. reflexivity.
Qed.

Lemma value_bits_flip len z j :
  (j < len)%nat ->
  value_bits len (Z.lxor z (2 ^ Z.of_nat j)) = flip_nth j (value_bits len z).
Proof.
  revert z j. induction len as [|len IH]; intros z j Hj; [lia|].
  rewrite !value_bits_cons. destruct j as [|j].
  - simpl flip_nth. f_equal.
    + rewrite testbit_lxor_pow2 by lia. simpl. destruct (Z.testbit z 0); reflexivity.
    + f_equal. rewrite Z.shiftr_lxor. change (Z.shiftr (2 ^ Z.of_nat 0) 1) with 0.
      apply Z.lxor_0_r.
  - simpl flip_nth. f_equal.
    + rewrite testbit_lxor_pow2 by lia.
      destruct (Z.eqb_spec (Z.of_nat (Datatypes.S j)) 0); [lia|]. apply xorb_false_r.
    + rewrite <- IH by lia. f_equal. rewrite Z.shiftr_lxor. f_equal.
      rewrite Z.shiftr_div_pow2, Z.pow_1_r by lia.
      rewrite Nat2Z.inj_succ, Z.pow_succ_r by lia.
      rewrite Z.mul_comm, Z.div_mul by lia. reflexivity.
Qed.

Lemma lxor_pow2_bound z j n :
  0 <= j < n -> 0 <= z < 2 ^ n -> 0 <= Z.lxor z (2 ^ j) < 2 ^ n.
Proof.
  intros Hj Hz. apply bits_above_bound; [lia|]. intros t Ht.
  rewrite testbit_lxor_pow2 by lia.
  destruct (Z.eqb_spec j t); [lia|]. rewrite xorb_false_r.
  destruct (Z.eq_dec z 0) as [->|]; [apply Z.bits_0|].
  apply Z.bits_above_log2; [lia|].
  apply Z.lt_le_trans with n; [|exact Ht]. apply Z.log2_lt_pow2; lia.
Qed.

Lemma bits_value_flip j l :
  (j < length l)%nat -> bits_value (flip_nth j l) = Z.lxor (bits_value l) (2 ^ Z.of_nat j).
Proof.
  intros Hj. pose proof (bits_value_bounds l) as Hb.
  rewrite <- (value_bits_bits_value l) at 1.
  rewrite <- value_bits_flip by exact Hj.
  rewrite bits_value_value_bits. apply Z.mod_small. apply lxor_pow2_bound; lia.
Qed.

Lemma byte_bits_of_Z z : 0 <= z < 256 -> byte_bits (byte_of_Z z) = value_bits 8 z.
Proof.
  intros Hz. unfold byte_bits. f_equal.
  unfold byte_of_Z, u8. rewrite Z.mod_small by (simpl; lia).
  destruct (Byte.of_N (Z.to_N z)) as [b|] eqn:E.
  - simpl. apply Byte.to_of_N in E. unfold byte_to_Z. rewrite E. lia.
  - apply Byte.of_N_None_iff in E. lia.
Qed.

Lemma unpack_flip_bit bs :
  forall j, unpack (flip_bit j bs) = flip_nth j (unpack bs).
Proof.
  induction bs as [|b bs IH]; intros j; [reflexivity|].
  cbn [flip_bit]. destruct (Nat.ltb_spec j 8) as [Hlt|Hge].
  - unfold unpack. cbn [map concat].
    rewrite flip_nth_app_l by (rewrite length_byte_bits; exact Hlt). f_equal.
    rewrite Z.shiftl_1_l. pose proof (byte_to_Z_range b) as Hb.
    rewrite byte_bits_of_Z by (change 256 with (2 ^ 8); apply lxor_pow2_bound; simpl; lia).
    apply value_bits_flip. exact Hlt.
  - unfold unpack. cbn [map concat]. fold (unpack bs). fold (unpack (flip_bit (j - 8) bs)).
    rewrite flip_nth_app_r by (rewrite length_byte_bits; exact Hge).
    rewrite length_byte_bits, IH. reflexivity.
Qed.

Lemma recv_ok_flipped k r blk i :
  1 <= k <= 16 -> 1 <= r <= 8 -> k + r + 1 <= 2 ^ r ->
  (length blk <= Z.to_nat k)%nat -> (i < length (block_code (codec k r) blk))%nat ->
  recv_ok (codec k r) blk (flip_nth i (block_code (codec k r) blk)).
Proof.
  intros Hk Hr Hv Hlen Hi. pose proof Hi as Hi'. rewrite length_block_code in Hi'.
  simpl total_bits_ in Hi'. split.
  - rewrite length_flip_nth, length_block_code. simpl. lia.
  - rewrite bits_value_flip by exact Hi. unfold block_code. simpl total_bits_.
    rewrite bits_value_value_bits, Z2Nat.id by lia.
    rewrite Z.mod_small by (apply EncodeBlock_range; lia).
    rewrite <- Z.shiftl_1_l.
    rewrite DecodeBlock_flipped by lia.
    rewrite mod_capacity_small; try assumption; [reflexivity|].
    pose proof (bits_value_bounds blk) as Hb. split; [lia|].
    apply Z.lt_le_trans with (2 ^ Z.of_nat (length blk)); [lia|].
    apply Z.pow_le_mono_r; lia.
Qed.

(** One inverted bit inside a sequence of blocks damages one block. *)
Lemma flip_nth_concat {A} (f : A -> list bool) (P : A -> list bool -> Prop) xs :
  (forall x, x ∈ xs -> P x (f x)) ->
  (forall x i, x ∈ xs -> (i < length (f x))%nat -> P x (flip_nth i (f x))) ->
  forall j, (j < length (concat (map f xs)))%nat ->
  exists rcv, flip_nth j (concat (map f xs)) = concat rcv /\ Forall2 P xs rcv.
Proof.
  induction xs as [|x xs IH]; intros Hsame Hflip j Hj; [simpl in Hj; lia|].
  assert (Hrefl : Forall2 P xs (map f xs)).
  { clear -Hsame. induction xs as [|y xs IH]; [constructor|]. cbn [map]. constructor.
    - apply Hsame. apply list_elem_of_further, list_elem_of_here.
    - apply IH. intros z Hz. apply elem_of_cons in Hz as [->|Hz].
      + apply Hsame, list_elem_of_here.
      + apply Hsame. do 2 apply list_elem_of_further. exact Hz. }
  cbn [map concat] in *. rewrite length_app in Hj.
  destruct (Nat.lt_ge_cases j (length (f x))) as [Hlt|Hge].
  - exists (flip_nth j (f x) :: map f xs). rewrite flip_nth_app_l by exact Hlt.
    split; [reflexivity|]. constructor; [|exact Hrefl].
    apply Hflip; [apply list_elem_of_here|exact Hlt].
  - destruct (IH ltac:(intros; apply Hsame, list_elem_of_further; assumption)
                 ltac:(intros; apply Hflip; [apply list_elem_of_further|]; assumption)
                 (j - length (f x))%nat ltac:(lia)) as (rcv & E & HF).
    exists (f x :: rcv). rewrite flip_nth_app_r by exact Hge. rewrite E.
    split; [reflexivity|]. constructor; [|exact HF].
    apply Hsame, list_elem_of_here.
Qed.

(** For the parameters of a proper Hamming code, the encoding of [B] with
    any one of its bits inverted still decodes to exactly [B]. *)
Theorem single_damaged_bit_corrected k r B j :
  1 <= k <= 16 -> 1 <= r <= 8 -> k + r + 1 <= 2 ^ r ->
  Z.of_nat (length B) < 2 ^ 56 ->
  (j < 8 * length (snd (encode k r B)))%nat ->
  decode k r (flip_bit j (snd (encode k r B))) (Z.of_nat (length B)) = (true, B).
Proof.
  intros Hk Hr Hv Hsize Hj. unfold decode.
  rewrite encode_ok in * by lia. cbn [snd] in *.
  set (blocks := enc_blocks (Z.to_nat k) [] (unpack B)) in *.
  assert (Hok : blocks_ok (Z.to_nat k) blocks) by (apply enc_blocks_ok; simpl; lia).
  destruct (unpack_pack (code_bits (codec k r) blocks)) as (pad & Hpad).
  assert (Hrcv : exists rcv tail,
             Forall2 (recv_ok (codec k r)) blocks rcv /\
             unpack (drop 0 (flip_bit j (pack (code_bits (codec k r) blocks))))
               = concat rcv ++ tail).
  { rewrite drop_0, unpack_flip_bit, Hpad.
    destruct (Nat.lt_ge_cases j (length (code_bits (codec k r) blocks))) as [Hlt|Hge].
    - rewrite flip_nth_app_l by exact Hlt. unfold code_bits in *.
      destruct (flip_nth_concat (block_code (codec k r)) (recv_ok (codec k r)) blocks)
        with (j := j) as (rcv & E & HF).
      + intros blk Hblk. apply recv_ok_intact; try assumption.
        apply (blocks_ok_lengths _ _ _ Hok Hblk).
      + intros blk i Hblk Hi. apply recv_ok_flipped; try assumption.
        apply (blocks_ok_lengths _ _ _ Hok Hblk).
      + exact Hlt.
      + exists rcv, (repeat false pad). split; [exact HF|]. rewrite E. reflexivity.
    - exists (map (block_code (codec k r)) blocks),
             (flip_nth (j - length (code_bits (codec k r) blocks)) (repeat false pad)).
      split; [apply recv_ok_all_intact; assumption|].
      rewrite flip_nth_app_r by exact Hge. reflexivity. }
  destruct Hrcv as (rcv & tail & HF & Hbits).
  destruct (DecodeStream_received k r B rcv tail
              (istream_of (flip_bit j (pack (code_bits (codec k r) blocks)))) empty_ostream
              (Z.of_nat (length (flip_bit j (pack (code_bits (codec k r) blocks))))))
    as (ins' & out' & E & Ho & _); try assumption; try reflexivity.
  rewrite E, Ho. reflexivity.
Qed.

Lemma ex_damaged_bit_8_4 :
  1 <= 8 <= 16 /\ 1 <= 4 <= 8 /\ 8 + 4 + 1 <= 2 ^ 4 /\
  Z.of_nat (length [x48; x61; x6d]) < 2 ^ 56 /\
  (17 < 8 * length (snd (encode 8 4 [x48; x61; x6d])))%nat /\
  decode 8 4 (flip_bit 17 (snd (encode 8 4 [x48; x61; x6d])))
    (Z.of_nat (length [x48; x61; x6d])) = (true, [x48; x61; x6d]).
Proof.
  do 4 (split; [simpl; lia|]).
  assert (Hj : (17 < 8 * length (snd (encode 8 4 [x48; x61; x6d])))%nat)
    by (vm_compute; lia).
  split; [exact Hj|].
  apply single_damaged_bit_corrected; [lia|lia|simpl; lia|simpl; lia|exact Hj].
Defined.

(** ** What every successful run of DecodeStream has done *)

Lemma ReadNextEncodedBit_takes rd rd' bit :
  rd_inv rd -> ReadNextEncodedBit rd = (true, rd', bit) ->
  rd_inv rd' /\ i_data (r_in rd') = i_data (r_in rd) /\
  bits_left rd' = bits_left rd - 1 /\
  (i_pos (r_in rd') <= length (i_data (r_in rd')))%nat.
Proof.
  intros (Hg & Ha & Hp) H. unfold ReadNextEncodedBit in H.
  destruct (Z.eqb_spec (r_avail rd) 0) as [E0|E0].
  - unfold read_byte in H. rewrite Hg in H. taken in H.
    destruct (i_data (r_in rd) !! i_pos (r_in rd)) as [b|] eqn:El; taken in H;
      [|discriminate H].
    injection H as <- _. unfold rd_inv, bits_left. cbn [r_in r_avail r_byte i_data i_pos].
    apply lookup_lt_Some in El.
    repeat split; try reflexivity; lia.
  - taken in H. injection H as <- _. unfold rd_inv, bits_left. cbn [r_in r_avail r_byte].
    repeat split; try assumption; lia.
Qed.

(** A round of the loop of [DecodeStream] that does not return failure. *)
Lemma decode_loop_round c ob rounds st st' :
  decode_loop c ob (Datatypes.S rounds) st = (true, st') ->
  exists rd bit st1,
    ReadNextEncodedBit (d_rd st) = (true, rd, bit) /\ d_rd st1 = rd /\
    decode_loop c ob rounds st1 = (true, st') /\
    ((d_collected st + 1 <> total_bits_ c /\ d_collected st1 = d_collected st + 1 /\
      d_w st1 = d_w st /\ d_bits_written st1 = d_bits_written st) \/
     (d_collected st + 1 = total_bits_ c /\ d_collected st1 = 0 /\
      exists data,
        let bto := if u64 (d_bits_written st + data_bits_ c) >? ob
                   then s32 (u64 (ob - d_bits_written st)) else data_bits_ c in
        write_data_bits (Z.to_nat bto) 0 data (d_w st) = (true, d_w st1) /\
        d_bits_written st1 = u64 (d_bits_written st + bto))).
Proof.
  intros H. rewrite decode_loop_S in H.
  destruct (ReadNextEncodedBit (d_rd st)) as [[ok rd] bit].
  destruct ok; taken in H; [|discriminate H]. cbv zeta in H.
  destruct (Z.eqb_spec (d_collected st + 1) (total_bits_ c)) as [E|E]; taken in H.
  - destruct (DecodeBlock c _) as [data err]. destruct err; [discriminate H|].
    destruct (write_data_bits _ 0 data (d_w st)) as [okw w] eqn:Ew.
    destruct okw; taken in H; [|discriminate H].
    eexists rd, bit, _. split; [reflexivity|]. split; [|split; [exact H|]].
    + reflexivity.
    + right. split; [exact E|]. split; [reflexivity|].
      exists data. cbv zeta. split; [exact Ew|reflexivity].
  - eexists rd, bit, _. split; [reflexivity|]. split; [|split; [exact H|]].
    + reflexivity.
    + left. auto.
Qed.

Lemma decode_loop_reads c ob rounds :
  forall st st',
  rd_inv (d_rd st) -> decode_loop c ob rounds st = (true, st') ->
  rd_inv (d_rd st') /\ i_data (r_in (d_rd st')) = i_data (r_in (d_rd st)) /\
  bits_left (d_rd st') = bits_left (d_rd st) - Z.of_nat rounds /\
  (rounds <> 0%nat ->
   (i_pos (r_in (d_rd st')) <= length (i_data (r_in (d_rd st'))))%nat).
Proof.
  induction rounds as [|rounds IH]; intros st st' Hinv H.
  - simpl in H. injection H as <-. repeat split; try apply Hinv; try lia.
  - apply decode_loop_round in H as (rd & bit & st1 & Hrd & E1 & Hrest & _).
    destruct (ReadNextEncodedBit_takes _ _ _ Hinv Hrd) as (Hinv1 & Hd1 & Hb1 & Hp1).
    rewrite <- E1 in Hinv1, Hd1, Hb1, Hp1.
    destruct (IH st1 st' Hinv1 Hrest) as (Hinv' & Hd' & Hb' & Hp').
    split; [exact Hinv'|]. split; [congruence|]. split; [lia|].
    intros _. destruct rounds as [|rounds'].
    + simpl in Hrest. injection Hrest as <-. exact Hp1.
    + apply Hp'. discriminate.
Qed.

Lemma CalculateEncodedSize_small k r os :
  1 <= k <= 16 -> 1 <= r <= 8 -> 0 <= os < 2 ^ 56 ->
  CalculateEncodedSize (codec k r) os = ((os * 8 + k - 1) / k * (k + r) + 7) / 8 /\
  0 <= (os * 8 + k - 1) / k <= os * 8.
Proof.
  intros Hk Hr Hos.
  assert (Hpos : 0 <= (os * 8 + k - 1) / k) by (apply Z.div_pos; lia).
  assert (Hcle : (os * 8 + k - 1) / k <= os * 8).
  { destruct (Z.eq_dec os 0) as [->|E0].
    - rewrite Z.div_small by lia. lia.
    - apply Z.div_le_upper_bound; nia. }
  split; [|lia].
  unfold CalculateEncodedSize. simpl data_bits_. simpl parity_bits_.
  rewrite (u64_small (os * 8)) by lia.
  rewrite (u64_small k), (u64_small r) by lia.
  rewrite (u64_small (k + r)) by lia.
  rewrite (u64_small (os * 8 + k - 1)) by lia.
  rewrite (u64_small (_ * (k + r))) by nia.
  rewrite u64_small by nia. reflexivity.
Qed.

(** The loop that a successful [DecodeStream] has run. *)
Lemma DecodeStream_run k r ins out os es ins' out' :
  1 <= k <= 16 -> 1 <= r <= 8 -> 0 < os < 2 ^ 56 ->
  DecodeStream (codec k r) ins out os es = (true, ins', out') ->
  i_good ins = true /\ o_fail out = false /\
  exists st',
    decode_loop (codec k r) (os * 8) (Z.to_nat ((os * 8 + k - 1) / k * (k + r)))
      {| d_rd := {| r_in := ins; r_byte := 0; r_avail := 0 |};
         d_codeword := 0; d_collected := 0;
         d_w := {| w_byte := 0; w_count := 0; w_out := out |};
         d_bits_written := 0 |} = (true, st') /\
    ins' = r_in (d_rd st') /\ FlushOutputByte (d_w st') = (true, out').
Proof.
  intros Hk Hr Hos H. unfold DecodeStream in H.
  destruct (i_good ins) eqn:Hi; [|discriminate H].
  unfold o_good in H at 1. destruct (o_fail out) eqn:Hf; [discriminate H|].
  simpl negb in H. simpl orb in H. cbv iota in H.
  rewrite u64_small in H by lia.
  destruct (Z.eqb_spec (os * 8) 0) as [E0|E0]; [lia|].
  simpl data_bits_ in H. simpl total_bits_ in H.
  destruct (CalculateEncodedSize_small k r os Hk Hr ltac:(lia)) as [_ Hc].
  rewrite (u64_small k), (u64_small (k + r)) in H by lia.
  rewrite (u64_small (os * 8 + k - 1)) in H by lia.
  rewrite u64_small in H by nia.
  split; [reflexivity|]. split; [reflexivity|].
  destruct (decode_loop _ _ _ _) as [ok st'] eqn:E.
  destruct ok; taken in H; [|discriminate H].
  destruct (FlushOutputByte (d_w st')) as [ok2 out2] eqn:Ef.
  injection H as -> <- <-. exists st'. auto.
Qed.

Lemma DecodeStream_reads k r ins out os es ins' out' :
  1 <= k <= 16 -> 1 <= r <= 8 -> 0 <= os < 2 ^ 56 ->
  DecodeStream (codec k r) ins out os es = (true, ins', out') ->
  i_data ins' = i_data ins /\ i_good ins' = true /\
  Z.of_nat (i_pos ins') = Z.of_nat (i_pos ins) + CalculateEncodedSize (codec k r) os /\
  (0 < os -> (i_pos ins' <= length (i_data ins))%nat).
Proof.
  intros Hk Hr Hos H.
  destruct (CalculateEncodedSize_small k r os Hk Hr Hos) as [Hces Hc]. rewrite Hces.
  destruct (Z.eq_dec os 0) as [->|Hne].
  - unfold DecodeStream in H.
    destruct (i_good ins) eqn:Hi; [|discriminate H].
    destruct (o_good out); [|discriminate H]. simpl in H. injection H as <- <-.
    split; [reflexivity|]. split; [exact Hi|]. split; [|lia].
    rewrite (Z.div_small (0 * 8 + k - 1)) by lia. rewrite Z.mul_0_l.
    change ((0 + 7) / 8) with 0. lia.
  - destruct (DecodeStream_run k r ins out os es ins' out' Hk Hr ltac:(lia) H)
      as (Hi & Hf & st' & E & -> & _).
    apply decode_loop_reads in E as ((Hg' & Ha' & _) & Hd' & Hb' & Hp').
    2: { unfold rd_inv. simpl. repeat split; try assumption; lia. }
    cbn [d_rd r_in] in Hd', Hb', Hp'. unfold bits_left in Hb'.
    cbn [r_in r_avail] in Hb'. rewrite Hd' in Hb', Hp'.
    split; [exact Hd'|]. split; [exact Hg'|].
    assert (Hcpos : 0 < (os * 8 + k - 1) / k).
    { apply Z.div_str_pos. lia. }
    rewrite Z2Nat.id in Hb' by nia.
    split.
    + assert (E8 : ((os * 8 + k - 1) / k * (k + r) + 7) / 8
                   = Z.of_nat (i_pos (r_in (d_rd st'))) - Z.of_nat (i_pos ins)).
      { symmetry. apply Z.div_unique with (7 - r_avail (d_rd st')); lia. }
      lia.
    + intros _. apply Hp'. nia.
Qed.

(** A successful [DecodeStream] has read exactly as many bytes as
    [CalculateEncodedSize] computes for the original size, all of them
    inside the input, and leaves the input stream in a good state. *)
Theorem DecodeStream_reads_encoded_size k r ins out os es ins' out' :
  1 <= k <= 16 -> 1 <= r <= 8 -> 0 <= os < 2 ^ 56 ->
  DecodeStream (codec k r) ins out os es = (true, ins', out') ->
  i_data ins' = i_data ins /\ i_good ins' = true /\
  Z.of_nat (i_pos ins') = Z.of_nat (i_pos ins) + CalculateEncodedSize (codec k r) os /\
  (0 < os -> (i_pos ins' <= length (i_data ins))%nat).
Proof. exact (DecodeStream_reads k r ins out os es ins' out'). Qed.

Lemma ex_reads_encoded_size :
  1 <= 8 <= 16 /\ 1 <= 4 <= 8 /\ 0 <= 2 < 2 ^ 56 /\
  DecodeStream (codec 8 4) (istream_of (snd (encode 8 4 [x41; x42]) ++ [x09; x05]))
    empty_ostream 2 0
    = (true,
       {| i_data := snd (encode 8 4 [x41; x42]) ++ [x09; x05]; i_pos := 3;
          i_eof := false; i_fail := false |},
       {| o_data := [x41; x42]; o_room := None; o_fail := false |}) /\
  Z.of_nat 3 = Z.of_nat 0 + CalculateEncodedSize (codec 8 4) 2.
Proof.
  do 3 (split; [lia|]).
  assert (H : DecodeStream (codec 8 4) (istream_of (snd (encode 8 4 [x41; x42]) ++ [x09; x05]))
                empty_ostream 2 0
              = (true,
                 {| i_data := snd (encode 8 4 [x41; x42]) ++ [x09; x05]; i_pos := 3;
                    i_eof := false; i_fail := false |},
                 {| o_data := [x41; x42]; o_room := None; o_fail := false |}))
    by (vm_compute; reflexivity).
  split; [exact H|].
  apply (DecodeStream_reads_encoded_size 8 4 _ _ 2 0 _ _ ltac:(lia) ltac:(lia) ltac:(lia) H).
Defined.



(** *** The bytes written *)

Lemma put_good b s :
  o_fail (put b s) = false -> o_data (put b s) = o_data s ++ [b].
Proof.
  unfold put. destruct (o_fail s) eqn:Ef; [congruence|].
  destruct (o_room s) as [m|]; [|reflexivity].
  cbv zeta. destruct (_ && _); simpl; [discriminate|reflexivity].
Qed.

Lemma WriteDecodedBitToStream_counts bit w w' :
  w_inv w -> WriteDecodedBitToStream bit w = (true, w') ->
  w_inv w' /\ wbits w' = wbits w + 1 /\
  o_data (w_out w) `prefix_of` o_data (w_out w').
Proof.
  intros [Hc Hf] H. unfold WriteDecodedBitToStream in H.
  destruct (Z.eqb_spec (w_count w + 1) 8) as [E|E]; taken in H.
  - destruct (o_good (put _ (w_out w))) eqn:Eg; taken in H; [|discriminate H].
    injection H as <-. unfold o_good in Eg. apply negb_true_iff in Eg.
    pose proof (put_good _ _ Eg) as Hd.
    unfold w_inv, wbits. cbn [w_count w_out]. rewrite Hd, length_app. simpl length.
    split; [split; [lia|exact Eg]|]. split; [lia|]. eexists. reflexivity.
  - injection H as <-. unfold w_inv, wbits. cbn [w_count w_out].
    split; [split; [lia|exact Hf]|]. split; [lia|]. reflexivity.
Qed.

Lemma write_data_bits_counts len :
  forall i data w w',
  w_inv w -> write_data_bits len i data w = (true, w') ->
  w_inv w' /\ wbits w' = wbits w + Z.of_nat len /\
  o_data (w_out w) `prefix_of` o_data (w_out w').
Proof.
  induction len as [|len IH]; intros i data w w' Hinv H.
  - simpl in H. injection H as <-. split; [exact Hinv|]. split; [lia|reflexivity].
  - simpl write_data_bits in H.
    destruct (WriteDecodedBitToStream _ w) as [ok w1] eqn:E1.
    destruct ok; taken in H; [|discriminate H].
    destruct (WriteDecodedBitToStream_counts _ _ _ Hinv E1) as (Hinv1 & Hb1 & Hp1).
    destruct (IH _ _ _ _ Hinv1 H) as (Hinv' & Hb' & Hp').
    split; [exact Hinv'|]. split; [lia|]. etrans; eassumption.
Qed.

Lemma decode_loop_writes k r ob rounds :
  1 <= k <= 16 -> 1 <= r <= 8 -> 0 <= ob < 2 ^ 60 ->
  forall st st' m,
  w_inv (d_w st) -> 0 <= d_collected st < k + r ->
  Z.of_nat rounds + d_collected st = m * (k + r) ->
  0 <= d_bits_written st <= ob ->
  decode_loop (codec k r) ob rounds st = (true, st') ->
  w_inv (d_w st') /\
  o_data (w_out (d_w st)) `prefix_of` o_data (w_out (d_w st')) /\
  d_bits_written st' = Z.min (d_bits_written st + m * k) ob /\
  wbits (d_w st') = wbits (d_w st) + (d_bits_written st' - d_bits_written st).
Proof.
  intros Hk Hr Hob.
  induction rounds as [|rounds IH]; intros st st' m Hinv Hcol Hm Hbw H.
  - simpl in H. injection H as <-.
    assert (m = 0) by nia. subst m.
    split; [exact Hinv|]. split; [reflexivity|]. split; lia.
  - apply decode_loop_round in H as (rd & bit & st1 & _ & _ & Hrest & Hcase).
    simpl total_bits_ in Hcase. simpl data_bits_ in Hcase.
    destruct Hcase as [(Hne & Hc1 & Hw1 & Hb1)|(Heq & Hc1 & data & Hwr & Hb1)].
    + destruct (IH st1 st' m) as (Hinv' & Hp' & Hbw' & Hwb');
        try assumption; try (rewrite ?Hw1, ?Hc1, ?Hb1; assumption || lia).
      rewrite Hw1, Hb1 in *. auto.
    + cbv zeta in Hwr, Hb1.
      assert (Hbto : (if u64 (d_bits_written st + k) >? ob
                      then s32 (u64 (ob - d_bits_written st)) else k)
                     = Z.min (d_bits_written st + k) ob - d_bits_written st).
      { rewrite !u64_small by lia.
        destruct (Z.gtb_spec (d_bits_written st + k) ob); [|lia].
        rewrite s32_small by lia. lia. }
      rewrite Hbto in Hwr, Hb1.
      rewrite u64_small in Hb1 by lia.
      destruct (write_data_bits_counts _ _ _ _ _ Hinv Hwr) as (Hinv1 & Hwb1 & Hp1).
      rewrite Z2Nat.id in Hwb1 by lia.
      assert (Hm1 : 1 <= m) by nia.
      destruct (IH st1 st' (m - 1)) as (Hinv' & Hp' & Hbw' & Hwb'); try assumption; try lia.
      split; [exact Hinv'|]. split; [etrans; eassumption|].
      split; [|lia]. rewrite Hbw', Hb1.
      replace ((m - 1) * k) with (m * k - k) by lia.
      assert (0 <= m * k - k) by nia. lia.
Qed.

(** A successful [DecodeStream] has appended exactly [original_size] bytes
    to the output, whatever the input held. *)
Theorem DecodeStream_writes_original_size k r ins out os es ins' out' :
  1 <= k <= 16 -> 1 <= r <= 8 -> 0 <= os < 2 ^ 56 ->
  DecodeStream (codec k r) ins out os es = (true, ins', out') ->
  exists written, o_data out' = o_data out ++ written /\ Z.of_nat (length written) = os.
Proof.
  intros Hk Hr Hos H.
  destruct (Z.eq_dec os 0) as [->|Hne].
  - unfold DecodeStream in H.
    destruct (i_good ins); [|discriminate H].
    destruct (o_good out); [|discriminate H]. simpl in H. injection H as <- <-.
    exists []. rewrite app_nil_r. auto.
  - destruct (DecodeStream_run k r ins out os es ins' out' Hk Hr ltac:(lia) H)
      as (Hi & Hf & st' & E & _ & Hflush).
    destruct (CalculateEncodedSize_small k r os Hk Hr Hos) as [_ Hc].
    pose proof (ceil_div_spec (os * 8) k ltac:(lia)) as Hceil. unfold ceil_div in Hceil.
    apply (decode_loop_writes k r (os * 8) _ Hk Hr ltac:(lia) _ _ ((os * 8 + k - 1) / k))
      in E as (Hinv' & [ext Hext] & Hbw' & Hwb').
    2: { split; [simpl; lia|exact Hf]. }
    2: { simpl. lia. }
    2: { simpl. rewrite Z2Nat.id by nia. lia. }
    2: { simpl. lia. }
    cbn [d_w d_bits_written w_out] in Hext, Hbw', Hwb'.
    unfold wbits in Hwb'. cbn [w_out w_count] in Hwb'.
    rewrite Hext, length_app, Hbw' in Hwb'. destruct Hinv' as [Hc' Hf'].
    assert (Hcount : w_count (d_w st') = 0) by lia.
    unfold FlushOutputByte in Hflush. rewrite Hcount in Hflush. simpl in Hflush.
    injection Hflush as <-. exists ext. split; [exact Hext|]. lia.
Qed.

Lemma ex_writes_original_size :
  1 <= 8 <= 16 /\ 1 <= 4 <= 8 /\ 0 <= 2 < 2 ^ 56 /\
  DecodeStream (codec 8 4) (istream_of [x00; x00; x00; x09; x05]) empty_ostream 2 0
    = (true,
       {| i_data := [x00; x00; x00; x09; x05]; i_pos := 3; i_eof := false; i_fail := false |},
       {| o_data := [x00; x00]; o_room := None; o_fail := false |}) /\
  exists written, [x00; x00] = [] ++ written /\ Z.of_nat (length written) = 2.
Proof.
  do 3 (split; [lia|]).
  assert (H : DecodeStream (codec 8 4) (istream_of [x00; x00; x00; x09; x05]) empty_ostream 2 0
              = (true,
                 {| i_data := [x00; x00; x00; x09; x05]; i_pos := 3; i_eof := false;
                    i_fail := false |},
                 {| o_data := [x00; x00]; o_room := None; o_fail := false |}))
    by (vm_compute; reflexivity).
  split; [exact H|].
  apply (DecodeStream_writes_original_size 8 4 _ _ 2 0 _ _ ltac:(lia) ltac:(lia) ltac:(lia) H).
Defined.

(** * More on the archive format *)

(** ** Byte streams *)

Lemma fold_left_cons {A B} (f : A -> B -> A) x l a :
  fold_left f (x :: l) a = fold_left f l (f a x).
Proof. reflexivity. Qed.

Lemma put_unlimited b out :
  o_room out = None -> o_fail out = false ->
  put b out = {| o_data := o_data out ++ [b]; o_room := None; o_fail := false |}.
Proof. intros Hr Hf. unfold put. rewrite Hf, Hr. reflexivity. Qed.

Lemma write_bytes_unlimited bs out :
  o_room out = None -> o_fail out = false ->
  write_bytes bs out = {| o_data := o_data out ++ bs; o_room := None; o_fail := false |}.
Proof.
  unfold write_bytes. revert out. induction bs as [|b bs IH]; intros out Hr Hf.
  - cbn [fold_left]. rewrite app_nil_r.
    destruct out as [d rm fl]; cbn [o_data o_room o_fail] in *; subst; reflexivity.
  - rewrite fold_left_cons, put_unlimited by assumption. rewrite IH by reflexivity.
    cbn [o_data]. rewrite <- app_assoc. reflexivity.
Qed.

Lemma on_device_unlimited out : o_room out = None -> on_device out = o_data out.
Proof. intros Hr. unfold on_device. rewrite Hr. reflexivity. Qed.

Lemma room_left_unlimited out : o_room out = None -> room_left out = None.
Proof. intros Hr. unfold room_left. rewrite Hr. reflexivity. Qed.

Lemma moved_good s s' n : moved s s' n -> i_good s' = true.
Proof. intros (_ & _ & He & Hf). unfold i_good. rewrite He, Hf. reflexivity. Qed.

Lemma moved_trans s s1 s2 a b :
  moved s s1 a -> moved s1 s2 b -> moved s s2 (a + b).
Proof.
  intros (Hd1 & Hp1 & _) (Hd2 & Hp2 & He & Hf).
  unfold moved. rewrite Hd2, Hd1, Hp2, Hp1. repeat split; try assumption. lia.
Qed.

Lemma moved_refl s : i_eof s = false -> i_fail s = false -> moved s s 0.
Proof. intros He Hf. unfold moved. rewrite Nat.add_0_r. auto. Qed.

Lemma read_bytes_prefix n bs rest s :
  i_good s = true -> unread s = bs ++ rest -> length bs = n -> (0 < n)%nat ->
  exists s', read_bytes n s = (Some bs, s') /\ moved s s' (length bs) /\ unread s' = rest.
Proof.
  intros Hg Hu <- Hpos. unfold read_bytes. rewrite Hg. taken. unfold unread in Hu.
  assert (Hlen : (i_pos s + length bs <= length (i_data s))%nat).
  { apply (f_equal length) in Hu. rewrite length_drop, length_app in Hu. lia. }
  destruct (Nat.leb_spec (i_pos s + length bs) (length (i_data s))); [|lia].
  rewrite Hu, take_app_length. eexists. split; [reflexivity|].
  unfold moved, unread. cbn [i_data i_pos i_eof i_fail].
  split; [auto|]. rewrite <- drop_drop, Hu. apply drop_app_length.
Qed.

(** ** Little-endian integers *)

Lemma byte_to_of_Z z : byte_to_Z (byte_of_Z z) = z mod 256.
Proof.
  unfold byte_of_Z, u8. change (2 ^ 8) with 256.
  pose proof (Z.mod_pos_bound z 256 ltac:(lia)) as Hb.
  destruct (Byte.of_N (Z.to_N (z mod 256))) as [b|] eqn:E.
  - simpl. apply Byte.to_of_N in E. unfold byte_to_Z. rewrite E. lia.
  - apply Byte.of_N_None_iff in E. lia.
Qed.

Lemma le_bytes_S width z :
  le_bytes (Datatypes.S width) z = byte_of_Z z :: le_bytes width (Z.shiftr z 8).
Proof.
  unfold le_bytes. cbn [seq map]. f_equal.
  rewrite <- seq_shift, map_map. apply map_ext. intros i.
  rewrite Z.shiftr_shiftr by lia. do 2 f_equal. lia.
Qed.

Lemma length_le_bytes width z : length (le_bytes width z) = width.
Proof. unfold le_bytes. rewrite length_map, length_seq. reflexivity. Qed.

Lemma le_value_cons b bs : le_value (b :: bs) = byte_to_Z b + 256 * le_value bs.
Proof. reflexivity. Qed.

Lemma le_value_le_bytes width z :
  0 <= z -> le_value (le_bytes width z) = z mod 2 ^ (8 * Z.of_nat width).
Proof.
  revert z. induction width as [|width IH]; intros z Hz.
  - cbn. rewrite Z.mod_1_r. reflexivity.
  - rewrite le_bytes_S, le_value_cons, IH by (apply Z.shiftr_nonneg; lia).
    rewrite byte_to_of_Z, Z.shiftr_div_pow2 by lia.
    replace (8 * Z.of_nat (Datatypes.S width)) with (8 + 8 * Z.of_nat width) by lia.
    rewrite Z.pow_add_r by lia. change (2 ^ 8) with 256.
    pose proof (Z.pow_pos_nonneg 2 (8 * Z.of_nat width) ltac:(lia) ltac:(lia)).
    rewrite Z.rem_mul_r by lia. reflexivity.
Qed.

Lemma le_value_le_bytes_small width z :
  0 <= z < 2 ^ (8 * Z.of_nat width) -> le_value (le_bytes width z) = z.
Proof. intros Hz. rewrite le_value_le_bytes by lia. apply Z.mod_small. exact Hz. Qed.


Lemma length_list_byte_of_string s :
  length (String.list_byte_of_string s) = String.length s.
Proof. induction s as [|a s IH]; [reflexivity|]. cbn. rewrite <- IH. reflexivity. Qed.

(** ** The bytes of a header *)

Lemma write_entry_unlimited out e :
  o_room out = None -> o_fail out = false ->
  write_entry out e
    = {| o_data := o_data out ++ entry_bytes e; o_room := None; o_fail := false |}.
Proof.
  intros Hr Hf. unfold write_entry, entry_bytes.
  rewrite (write_bytes_unlimited _ out) by assumption.
  repeat (rewrite (write_bytes_unlimited _ {| o_data := _; o_room := None; o_fail := false |})
            by reflexivity; cbn [o_data]).
  rewrite <- !app_assoc. reflexivity.
Qed.

Lemma write_entries_unlimited entries out :
  o_room out = None -> o_fail out = false ->
  fold_left write_entry entries out
    = {| o_data := o_data out ++ concat (map entry_bytes entries);
         o_room := None; o_fail := false |}.
Proof.
  revert out. induction entries as [|e entries IH]; intros out Hr Hf.
  - cbn [fold_left map concat]. rewrite app_nil_r.
    destruct out as [d rm fl]; cbn [o_data o_room o_fail] in *; subst; reflexivity.
  - rewrite fold_left_cons, write_entry_unlimited by assumption.
    rewrite IH by reflexivity. cbn [map concat o_data]. rewrite <- app_assoc. reflexivity.
Qed.

Lemma WriteArchiveHeader_unlimited out entries :
  o_room out = None -> o_fail out = false ->
  WriteArchiveHeader out entries
    = (true, {| o_data := o_data out ++ header_bytes entries;
                o_room := None; o_fail := false |}).
Proof.
  intros Hr Hf. unfold WriteArchiveHeader, header_bytes.
  rewrite (write_bytes_unlimited _ out) by assumption.
  rewrite (write_bytes_unlimited _ {| o_data := _; o_room := None; o_fail := false |})
    by reflexivity.
  rewrite write_entries_unlimited by reflexivity. cbn [o_data o_good o_fail negb].
  rewrite <- !app_assoc. reflexivity.
Qed.

Lemma name_size_range e : 0 <= name_size e.
Proof. unfold name_size. lia. Qed.

Lemma length_entry_bytes e :
  name_size e < 2 ^ 16 -> Z.of_nat (length (entry_bytes e)) = 2 + name_size e + 24.
Proof.
  intros Hn. pose proof (name_size_range e) as H0. unfold entry_bytes.
  rewrite Z.mod_small by lia.
  rewrite !length_app, !length_le_bytes, length_take, length_list_byte_of_string.
  unfold name_size in *. lia.
Qed.

Lemma read_entry_stored s e rest :
  i_good s = true -> unread s = entry_bytes e ++ rest -> entry_fits e ->
  exists s', read_entry s = (Some (stored e), s') /\ moved s s' (length (entry_bytes e)) /\
             unread s' = rest.
Proof.
  intros Hg Hu (Hn & Ho & He & Hf). pose proof (name_size_range e) as Hn0.
  unfold entry_bytes in *. rewrite Z.mod_small in * by lia.
  assert (Hname : take (Z.to_nat (name_size e)) (String.list_byte_of_string (name e))
                  = String.list_byte_of_string (name e)).
  { apply take_ge. rewrite length_list_byte_of_string. unfold name_size. lia. }
  rewrite Hname in *.
  assert (HlenN : Z.of_nat (length (String.list_byte_of_string (name e))) = name_size e)
    by (rewrite length_list_byte_of_string; reflexivity).
  assert (Hlv : le_value (le_bytes 2 (name_size e)) = name_size e)
    by (apply le_value_le_bytes_small; change (2 ^ (8 * Z.of_nat 2)) with (2 ^ 16); lia).
  assert (Hlo : le_value (le_bytes 8 (original_size e)) = original_size e)
    by (apply le_value_le_bytes_small; change (2 ^ (8 * Z.of_nat 8)) with (2 ^ 64); lia).
  assert (Hle : le_value (le_bytes 8 (encoded_size e)) = encoded_size e)
    by (apply le_value_le_bytes_small; change (2 ^ (8 * Z.of_nat 8)) with (2 ^ 64); lia).
  assert (Hlf : le_value (le_bytes 8 (offset e)) = offset e)
    by (apply le_value_le_bytes_small; change (2 ^ (8 * Z.of_nat 8)) with (2 ^ 64); lia).
  revert Hu Hlv Hlo Hle Hlf HlenN.
  generalize (le_bytes 2 (name_size e)) (length_le_bytes 2 (name_size e)).
  generalize (le_bytes 8 (original_size e)) (length_le_bytes 8 (original_size e)).
  generalize (le_bytes 8 (encoded_size e)) (length_le_bytes 8 (encoded_size e)).
  generalize (le_bytes 8 (offset e)) (length_le_bytes 8 (offset e)).
  generalize (String.string_of_list_byte_of_string (name e)).
  generalize (String.list_byte_of_string (name e)).
  intros N HN F8 HF8 E8 HE8 O8 HO8 L HL Hu Hlv Hlo Hle Hlf HlenN.
  rewrite <- !app_assoc in Hu. unfold read_entry.
  destruct (read_bytes_prefix 2 L _ s Hg Hu HL ltac:(lia)) as (s1 & -> & Hm1 & Hu1).
  rewrite Hlv.
  assert (Hr2 : exists s2,
             (if 0 <? name_size e then read_bytes (Z.to_nat (name_size e)) s1
              else (Some [], s1)) = (Some N, s2) /\ moved s1 s2 (length N) /\
             unread s2 = O8 ++ E8 ++ F8 ++ rest).
  { destruct (Z.ltb_spec 0 (name_size e)) as [Hpos|Hz].
    - apply read_bytes_prefix; [apply (moved_good _ _ _ Hm1)|exact Hu1|lia|lia].
    - assert (HN0 : N = []) by (apply length_zero_iff_nil; lia).
      subst N. exists s1. split; [reflexivity|]. split; [|exact Hu1].
      apply moved_refl; apply Hm1. }
  destruct Hr2 as (s2 & -> & Hm2 & Hu2).
  destruct (read_bytes_prefix 8 O8 _ s2 (moved_good _ _ _ Hm2) Hu2 HO8 ltac:(lia))
    as (s3 & -> & Hm3 & Hu3).
  destruct (read_bytes_prefix 8 E8 _ s3 (moved_good _ _ _ Hm3) Hu3 HE8 ltac:(lia))
    as (s4 & -> & Hm4 & Hu4).
  destruct (read_bytes_prefix 8 F8 _ s4 (moved_good _ _ _ Hm4) Hu4 HF8 ltac:(lia))
    as (s5 & -> & Hm5 & Hu5).
  exists s5. split; [|split; [|exact Hu5]].
  - unfold stored. rewrite HN, Hlo, Hle, Hlf. reflexivity.
  - rewrite !length_app.
    apply (moved_trans _ _ _ _ _ Hm1 (moved_trans _ _ _ _ _ Hm2
             (moved_trans _ _ _ _ _ Hm3 (moved_trans _ _ _ _ _ Hm4 Hm5)))).
Qed.

Lemma read_entries_stored entries :
  forall s acc rest,
  i_eof s = false -> i_fail s = false ->
  unread s = concat (map entry_bytes entries) ++ rest ->
  Forall entry_fits entries ->
  exists s', read_entries (length entries) s acc = (true, s', acc ++ map stored entries) /\
             moved s s' (length (concat (map entry_bytes entries))) /\ unread s' = rest.
Proof.
  induction entries as [|e entries IH]; intros s acc rest He Hf Hu Hfit.
  - cbn [map concat length read_entries app] in *. rewrite app_nil_r. exists s.
    split; [reflexivity|]. split; [apply moved_refl; assumption|exact Hu].
  - apply Forall_cons in Hfit as [Hfit1 Hfit]. cbn [map concat] in *.
    rewrite <- app_assoc in Hu.
    assert (Hg : i_good s = true) by (unfold i_good; rewrite He, Hf; reflexivity).
    destruct (read_entry_stored s e _ Hg Hu Hfit1) as (s1 & E1 & Hm1 & Hu1).
    cbn [length read_entries]. rewrite E1.
    destruct (IH s1 (acc ++ [stored e]) rest) as (s2 & E2 & Hm2 & Hu2); try assumption;
      try apply Hm1.
    exists s2. split; [|split; [|exact Hu2]].
    + rewrite E2, <- app_assoc. reflexivity.
    + rewrite length_app. apply (moved_trans _ _ _ _ _ Hm1 Hm2).
Qed.

Lemma length_magic : length magic = 3%nat.
Proof. reflexivity. Qed.

Lemma ReadArchiveHeader_stored s entries rest :
  i_good s = true -> unread s = header_bytes entries ++ rest ->
  Forall entry_fits entries -> Z.of_nat (length entries) < 2 ^ 32 ->
  exists s', ReadArchiveHeader s = (true, s', map stored entries) /\
             moved s s' (length (header_bytes entries)) /\ unread s' = rest.
Proof.
  intros Hg Hu Hfit Hcount. unfold header_bytes in *. rewrite <- !app_assoc in Hu.
  unfold u32 in *. rewrite (Z.mod_small (Z.of_nat (length entries))) in * by lia.
  assert (Hlv : le_value (le_bytes 4 (Z.of_nat (length entries))) = Z.of_nat (length entries))
    by (apply le_value_le_bytes_small; change (2 ^ (8 * Z.of_nat 4)) with (2 ^ 32); lia).
  revert Hu Hlv.
  generalize (le_bytes 4 (Z.of_nat (length entries)))
             (length_le_bytes 4 (Z.of_nat (length entries))).
  intros C HC Hu Hlv.
  unfold ReadArchiveHeader.
  destruct (read_bytes_prefix 3 magic _ s Hg Hu length_magic ltac:(lia))
    as (s1 & -> & Hm1 & Hu1).
  rewrite bool_decide_eq_true_2 by reflexivity. taken.
  destruct (read_bytes_prefix 4 C _ s1 (moved_good _ _ _ Hm1) Hu1 HC ltac:(lia))
    as (s2 & -> & Hm2 & Hu2).
  rewrite Hlv, Nat2Z.id.
  destruct (read_entries_stored entries s2 [] rest) as (s3 & E3 & Hm3 & Hu3);
    try assumption; try apply Hm2.
  exists s3. split; [exact E3|]. split; [|exact Hu3].
  rewrite !length_app.
  apply (moved_trans _ _ _ _ _ Hm1 (moved_trans _ _ _ _ _ Hm2 Hm3)).
Qed.

(** A header that [WriteArchiveHeader] has written is read back by
    [ReadArchiveHeader], entry by entry and whatever follows it, when there
    are fewer than [2^32] entries, the names are shorter than [2^16] bytes
    and the sizes and offsets are 64-bit values; the source paths, which are
    not written, come back empty, and the read position is behind the header. *)
Theorem header_round_trip entries rest :
  Forall entry_fits entries -> Z.of_nat (length entries) < 2 ^ 32 ->
  exists header s',
    WriteArchiveHeader empty_ostream entries
      = (true, {| o_data := header; o_room := None; o_fail := false |}) /\
    ReadArchiveHeader (istream_of (header ++ rest)) = (true, s', map stored entries) /\
    i_pos s' = length header /\ i_good s' = true.
Proof.
  intros Hfit Hcount. exists (header_bytes entries).
  destruct (ReadArchiveHeader_stored (istream_of (header_bytes entries ++ rest)) entries rest)
    as (s' & E & Hm & _); try assumption; try reflexivity.
  exists s'. split; [|split; [exact E|]].
  - rewrite WriteArchiveHeader_unlimited by reflexivity. reflexivity.
  - split; [apply Hm|apply (moved_good _ _ _ Hm)].
Qed.

Lemma ex_header_two_entries :
  Forall entry_fits example_header_entries /\
  Z.of_nat (length example_header_entries) < 2 ^ 32 /\
  exists header s',
    WriteArchiveHeader empty_ostream example_header_entries
      = (true, {| o_data := header; o_room := None; o_fail := false |}) /\
    ReadArchiveHeader (istream_of (header ++ [x01; x02]))
      = (true, s', map stored example_header_entries) /\
    i_pos s' = length header /\ i_good s' = true.
Proof.
  assert (Hfit : Forall entry_fits example_header_entries).
  { unfold example_header_entries.
    repeat constructor; cbn [name_size name original_size encoded_size offset]; cbn; lia. }
  assert (Hlen : Z.of_nat (length example_header_entries) < 2 ^ 32) by (cbn; lia).
  split; [exact Hfit|]. split; [exact Hlen|].
  apply header_round_trip; [exact Hfit|exact Hlen].
Defined.

(** * More on the archive engine *)

(** ** Selecting entries by name *)

Lemma find_matches_filter all n :
  forall acc found,
  find_matches all n acc found
    = (acc ++ filter (fun e => name e = n) all, found || name_found all n).
Proof.
  induction all as [|e all IH]; intros acc found.
  - simpl. rewrite app_nil_r, orb_false_r. reflexivity.
  - simpl find_matches. simpl name_found.
    destruct (String.eqb_spec (name e) n) as [E|E].
    + rewrite IH, filter_cons_True by exact E.
      rewrite <- app_assoc, orb_true_r. reflexivity.
    + rewrite IH, filter_cons_False by exact E. reflexivity.
Qed.

Lemma FindEntriesByNames_filter all requested :
  forall acc,
  (forall n, n ∈ requested -> n ∈ map name all) ->
  FindEntriesByNames all requested acc
    = (true, acc ++ concat (map (fun n => filter (fun e => name e = n) all) requested)).
Proof.
  induction requested as [|n requested IH]; intros acc Hall.
  - simpl. rewrite app_nil_r. reflexivity.
  - simpl FindEntriesByNames. rewrite find_matches_filter. simpl orb.
    assert (Hn : name_found all n = true)
      by (apply name_found_spec, Hall, list_elem_of_here).
    rewrite Hn. taken. rewrite IH by (intros m Hm; apply Hall, list_elem_of_further, Hm).
    cbn [map concat]. rewrite <- app_assoc. reflexivity.
Qed.

(** [FindEntriesByNames] succeeds exactly when every requested name is the
    name of an entry; it then returns, for every requested name in the order
    of the request, all the entries of that name in the order of the
    archive: a name requested twice is selected twice, and a name carried
    by two entries selects both. *)
Theorem FindEntriesByNames_selects all requested :
  (fst (FindEntriesByNames all requested []) = true <->
   forall n, n ∈ requested -> n ∈ map name all) /\
  (fst (FindEntriesByNames all requested []) = true ->
   snd (FindEntriesByNames all requested [])
     = concat (map (fun n => filter (fun e => name e = n) all) requested)).
Proof.
  assert (Hok : (forall n, n ∈ requested -> n ∈ map name all) ->
                FindEntriesByNames all requested []
                  = (true, concat (map (fun n => filter (fun e => name e = n) all) requested))).
  { intros Hall. rewrite FindEntriesByNames_filter by exact Hall. reflexivity. }
  assert (Hconv : fst (FindEntriesByNames all requested []) = true ->
                  forall n, n ∈ requested -> n ∈ map name all).
  { intros Ht n Hn. destruct (decide (n ∈ map name all)) as [|Habs]; [assumption|].
    rewrite (FindEntriesByNames_absent all requested n [] Hn Habs) in Ht. discriminate Ht. }
  split.
  - split; [exact Hconv|]. intros Hall. rewrite Hok by exact Hall. reflexivity.
  - intros Ht. rewrite Hok by (apply Hconv; exact Ht). reflexivity.
Qed.

(** ** The checks of Delete *)

Lemma should_delete_spec names e : should_delete names e = true <-> name e ∈ names.
Proof.
  induction names as [|n names IH]; simpl.
  - split; [discriminate|]. intros H. apply elem_of_nil in H. contradiction.
  - destruct (String.eqb_spec (name e) n) as [E|E].
    + split; [|reflexivity]. intros _. rewrite E. apply list_elem_of_here.
    + rewrite IH. split.
      * intros H. apply list_elem_of_further. exact H.
      * intros H. apply elem_of_cons in H as [H|H]; [congruence|exact H].
Qed.

Lemma keep_entries_filter old names :
  keep_entries old names = filter (fun e => name e ∉ names) old.
Proof.
  induction old as [|e old IH]; [reflexivity|]. simpl keep_entries.
  destruct (should_delete names e) eqn:E.
  - apply should_delete_spec in E. rewrite filter_cons_False by (intros H; apply H, E).
    simpl. exact IH.
  - rewrite filter_cons_True.
    + simpl. rewrite IH. reflexivity.
    + intros H. apply should_delete_spec in H. congruence.
Qed.

Lemma all_names_found_spec old names :
  all_names_found old names = true <-> forall n, n ∈ names -> n ∈ map name old.
Proof.
  induction names as [|n names IH]; simpl.
  - split; [|reflexivity]. intros _ m Hm. apply elem_of_nil in Hm. contradiction.
  - destruct (name_found old n) eqn:E; simpl.
    + rewrite IH. apply name_found_spec in E. split.
      * intros H m Hm. apply elem_of_cons in Hm as [->|Hm]; [exact E|apply H, Hm].
      * intros H m Hm. apply H, list_elem_of_further, Hm.
    + split; [discriminate|]. intros H.
      assert (Hn : name_found old n = true)
        by (apply name_found_spec, H, list_elem_of_here).
      congruence.
Qed.

Lemma length_keep_entries old names : (length (keep_entries old names) <= length old)%nat.
Proof. rewrite keep_entries_filter. apply length_filter. Qed.

Lemma keep_entries_drops old names n :
  n ∈ names -> n ∈ map name old -> (length (keep_entries old names) < length old)%nat.
Proof.
  intros Hn Hin. induction old as [|e old IH].
  - apply elem_of_nil in Hin. contradiction.
  - simpl keep_entries. cbn [map] in Hin.
    destruct (should_delete names e) eqn:E; simpl.
    + pose proof (length_keep_entries old names). lia.
    + apply elem_of_cons in Hin as [Hin|Hin].
      * assert (Hd : should_delete names e = true)
          by (apply should_delete_spec; rewrite <- Hin; exact Hn).
        congruence.
      * specialize (IH Hin). lia.
Qed.

(** The entries that [Delete] keeps are the entries whose names are not in
    the deletion list, in the order of the archive; its first check passes
    exactly when every name of the list is the name of an entry; and when
    it has passed, the second check ("no specified files were deleted")
    fails the operation exactly for the empty list. *)
Theorem Delete_checks old names :
  keep_entries old names = filter (fun e => name e ∉ names) old /\
  (all_names_found old names = true <-> forall n, n ∈ names -> n ∈ map name old) /\
  (all_names_found old names = true ->
   (length (keep_entries old names) = length old <-> names = [])).
Proof.
  split; [apply keep_entries_filter|]. split; [apply all_names_found_spec|].
  intros Hall. split.
  - intros Hlen. destruct names as [|n names]; [reflexivity|exfalso].
    assert (Hn : n ∈ map name old)
      by (apply (proj1 (all_names_found_spec old (n :: names)) Hall), list_elem_of_here).
    pose proof (keep_entries_drops old (n :: names) n ltac:(apply list_elem_of_here) Hn). lia.
  - intros ->. clear Hall. induction old as [|e old IH]; [reflexivity|].
    simpl. rewrite IH. reflexivity.
Qed.

(** ** The entries of new files *)

Lemma is_file_test w p :
  negb (fs_exists w p) || fs_is_directory w p = false <-> is_file w p.
Proof.
  unfold fs_exists, fs_is_directory, is_file. destruct (w_files w !! p) as [[content|]|] eqn:E.
  - rewrite bool_decide_eq_true_2 by eauto. simpl. split; [eauto|reflexivity].
  - rewrite bool_decide_eq_true_2 by eauto. simpl. split; [discriminate|].
    intros [content H]. discriminate H.
  - rewrite bool_decide_eq_false_2 by (intros [x Hx]; discriminate Hx). simpl.
    split; [discriminate|]. intros [content H]. discriminate H.
Qed.

Lemma CollectNewEntries_map w c inputs :
  forall acc,
  (forall p, p ∈ inputs -> is_file w p) ->
  CollectNewEntries w inputs c acc = (true, acc ++ map (new_entry w c) inputs).
Proof.
  induction inputs as [|p inputs IH]; intros acc Hall.
  - simpl. rewrite app_nil_r. reflexivity.
  - simpl CollectNewEntries.
    rewrite (proj2 (is_file_test w p) (Hall p ltac:(apply list_elem_of_here))).
    rewrite IH by (intros q Hq; apply Hall, list_elem_of_further, Hq).
    cbn [map]. rewrite <- app_assoc. reflexivity.
Qed.

Lemma CollectNewEntries_files w c inputs :
  forall acc,
  fst (CollectNewEntries w inputs c acc) = true -> forall p, p ∈ inputs -> is_file w p.
Proof.
  induction inputs as [|q inputs IH]; intros acc Ht p Hp.
  - apply elem_of_nil in Hp. contradiction.
  - simpl in Ht. destruct (negb (fs_exists w q) || fs_is_directory w q) eqn:E;
      [discriminate Ht|].
    apply elem_of_cons in Hp as [->|Hp].
    + apply is_file_test. exact E.
    + apply (IH _ Ht p Hp).
Qed.

(** [CollectNewEntries] succeeds exactly when every input path names a
    regular file; it then returns one entry for every input path, in input
    order: named by the last component of the path, with the size of the
    file, the encoded size that [CalculateEncodedSize] gives for it, and
    offset 0.  Two paths with the same last component give two entries of
    the same name. *)
Theorem CollectNewEntries_spec w c inputs :
  (fst (CollectNewEntries w inputs c []) = true <-> forall p, p ∈ inputs -> is_file w p) /\
  (fst (CollectNewEntries w inputs c []) = true ->
   snd (CollectNewEntries w inputs c []) = map (new_entry w c) inputs).
Proof.
  split.
  - split; [apply CollectNewEntries_files|].
    intros Hall. rewrite CollectNewEntries_map by exact Hall. reflexivity.
  - intros Ht. rewrite CollectNewEntries_map by (apply (CollectNewEntries_files _ _ _ _ Ht)).
    reflexivity.
Qed.

(** ** Paths *)

Lemma split_last_slash_post p pre post :
  split_last_slash p = Some (pre, post) -> split_last_slash post = None.
Proof.
  revert pre post. induction p as [|a p IH]; intros pre post H; [discriminate H|].
  simpl in H. destruct (split_last_slash p) as [[pre' post']|] eqn:E.
  - injection H as _ <-. apply (IH _ _ eq_refl).
  - destruct (Ascii.eqb a "/"); [|discriminate H]. injection H as _ <-. exact E.
Qed.

Lemma filename_no_parent p : has_parent_path (filename p) = false.
Proof.
  assert (H : split_last_slash (filename p) = None).
  { unfold filename. destruct (split_last_slash p) as [[pre post]|] eqn:E.
    - apply (split_last_slash_post _ _ _ E).
    - exact E. }
  unfold has_parent_path, parent_path. rewrite H. reflexivity.
Qed.

(** ** Archives that cannot be read *)

Lemma ReadArchiveHeader_bad_magic s :
  take 3 (unread s) <> magic -> fst (fst (ReadArchiveHeader s)) = false.
Proof.
  intros Hbad. unfold ReadArchiveHeader, read_bytes.
  destruct (i_good s); [|reflexivity]. taken.
  destruct (i_pos s + 3 <=? length (i_data s))%nat; [|reflexivity].
  rewrite bool_decide_eq_false_2 by exact Hbad. reflexivity.
Qed.

(** On a path that is not a regular file, and on a file that does not
    begin with the three bytes [HAF], the header cannot be read; and
    whenever the header cannot be read, [List], [Extract], [Append] and
    [Delete] fail and leave the file system as it was. *)
Theorem unreadable_archive_rejected w archive c names :
  ((~ is_file w archive \/
    exists content, w_files w !! archive = Some (File content) /\ take 3 content <> magic) ->
   read_archive w archive = None) /\
  (read_archive w archive = None ->
   List w archive = (false, []) /\
   Extract w archive c names = (false, w) /\
   Append w archive c names = (false, w) /\
   Delete w archive c names = (false, w)).
Proof.
  split.
  - intros [Hno|(content & Hc & Hbad)]; unfold read_archive, open_ifstream.
    + destruct (w_files w !! archive) as [[content|]|] eqn:E; try reflexivity.
      exfalso. apply Hno. exists content. exact E.
    + rewrite Hc.
      pose proof (ReadArchiveHeader_bad_magic
                    {| i_data := content; i_pos := 0; i_eof := false; i_fail := false |}
                    Hbad) as H.
      destruct (ReadArchiveHeader _) as [[ok s'] es]. simpl in H. subst ok. reflexivity.
  - unfold read_archive, List, Extract, Append, Delete.
    destruct (open_ifstream w archive) as [ins|]; [|auto].
    destruct (ReadArchiveHeader ins) as [[ok s'] es]. destruct ok; [discriminate|].
    auto.
Qed.

Lemma ex_not_an_archive :
  (exists content,
     w_files example_inputs !! "present.bin"%string = Some (File content) /\
     take 3 content <> magic) /\
  read_archive example_inputs "present.bin" = None /\
  Delete example_inputs "present.bin" (codec 8 4) ["present.bin"%string]
    = (false, example_inputs).
Proof.
  assert (H : exists content,
             w_files example_inputs !! "present.bin"%string = Some (File content) /\
             take 3 content <> magic).
  { exists [x10; x20; x30]. split; [reflexivity|]. discriminate. }
  destruct (unreadable_archive_rejected example_inputs "present.bin" (codec 8 4)
              ["present.bin"%string]) as [H1 H2].
  split; [exact H|]. split; [apply H1; right; exact H|].
  apply H2. apply H1. right. exact H.
Defined.

(** * What Create writes *)

(** ** Sizes *)

Lemma encoded_length k r B :
  1 <= k <= 16 -> 1 <= r <= 8 -> Z.of_nat (length B) < 2 ^ 56 ->
  Z.of_nat (length (snd (encode k r B)))
    = CalculateEncodedSize (codec k r) (Z.of_nat (length B)).
Proof.
  intros Hk Hr Hsize.
  destruct (CalculateEncodedSize_small k r (Z.of_nat (length B)) Hk Hr ltac:(lia)) as [-> _].
  rewrite encode_ok by lia. cbn [snd].
  rewrite length_pack, length_code_bits, Nat2Z.inj_mul, enc_blocks_length
    by (cbn [data_bits_ codec mkHammingCodec opt_data_bits length]; lia).
  cbn [total_bits_ data_bits_ codec mkHammingCodec opt_data_bits opt_parity_bits].
  rewrite length_unpack. cbn [length].
  rewrite !Z2Nat.id by lia.
  replace (Z.of_nat (0 + 8 * length B)) with (Z.of_nat (length B) * 8) by lia.
  f_equal. lia.
Qed.

Lemma CalculateEncodedSize_range c n : 0 <= CalculateEncodedSize c n < 2 ^ 64.
Proof.
  unfold CalculateEncodedSize.
  match goal with |- 0 <= u64 ?x / 8 < _ => generalize x end.
  intros x. unfold u64. pose proof (Z.mod_pos_bound x (2 ^ 64) ltac:(lia)) as Hx.
  split; [apply Z.div_pos; lia|].
  apply Z.div_lt_upper_bound; lia.
Qed.

Lemma length_header_bytes entries :
  length (header_bytes entries)
    = (7 + length (concat (map entry_bytes entries)))%nat.
Proof.
  unfold header_bytes. rewrite !length_app, length_magic, length_le_bytes. lia.
Qed.

Lemma length_entries_bytes entries :
  Forall (fun e => name_size e < 2 ^ 16) entries ->
  Z.of_nat (length (concat (map entry_bytes entries)))
    <= Z.of_nat (length entries) * (26 + 2 ^ 16).
Proof.
  induction 1 as [|e entries He _ IH]; [cbn; lia|].
  cbn [map concat length]. rewrite length_app, Nat2Z.inj_add, length_entry_bytes by exact He.
  lia.
Qed.

Lemma CalculateHeaderSize_from entries :
  forall acc,
  Forall (fun e => name_size e < 2 ^ 16) entries -> 0 <= acc ->
  acc + Z.of_nat (length (concat (map entry_bytes entries))) < 2 ^ 64 ->
  fold_left
    (fun header_size entry => u64 (u64 (u64 (header_size + 2) + name_size entry) + (8 + 8 + 8)))
    entries acc
    = acc + Z.of_nat (length (concat (map entry_bytes entries))).
Proof.
  induction entries as [|e entries IH]; intros acc Hn Hacc Hmax.
  - cbn. lia.
  - apply Forall_cons in Hn as [He Hn]. rewrite fold_left_cons.
    cbn [map concat] in *. rewrite length_app, Nat2Z.inj_add in *.
    rewrite length_entry_bytes in * by exact He.
    pose proof (name_size_range e) as H0.
    rewrite (u64_small (acc + 2)) by lia.
    rewrite (u64_small (acc + 2 + name_size e)) by lia.
    rewrite (u64_small (acc + 2 + name_size e + (8 + 8 + 8))) by lia.
    rewrite IH by (try assumption; lia). lia.
Qed.

Lemma CalculateHeaderSize_length entries :
  Forall (fun e => name_size e < 2 ^ 16) entries -> Z.of_nat (length entries) < 2 ^ 32 ->
  CalculateHeaderSize entries = Z.of_nat (length (header_bytes entries)).
Proof.
  intros Hn Hcount. pose proof (length_entries_bytes entries Hn) as Hb.
  unfold CalculateHeaderSize. rewrite CalculateHeaderSize_from by (try assumption; nia).
  rewrite length_header_bytes. lia.
Qed.

(** [CalculateHeaderSize] is the number of bytes that [WriteArchiveHeader]
    writes for the same entries, when there are fewer than [2^32] of them and
    their names are shorter than [2^16] bytes. *)
Theorem CalculateHeaderSize_is_written_length entries :
  Forall (fun e => name_size e < 2 ^ 16) entries -> Z.of_nat (length entries) < 2 ^ 32 ->
  CalculateHeaderSize entries
    = Z.of_nat (length (o_data (snd (WriteArchiveHeader empty_ostream entries)))).
Proof.
  intros Hn Hcount. rewrite WriteArchiveHeader_unlimited by reflexivity.
  cbn [snd o_data empty_ostream app]. apply CalculateHeaderSize_length; assumption.
Qed.

Lemma ex_header_size :
  Forall (fun e => name_size e < 2 ^ 16) example_header_entries /\
  Z.of_nat (length example_header_entries) < 2 ^ 32 /\
  CalculateHeaderSize example_header_entries
    = Z.of_nat (length (o_data (snd (WriteArchiveHeader empty_ostream example_header_entries)))).
Proof.
  assert (Hn : Forall (fun e => name_size e < 2 ^ 16) example_header_entries).
  { unfold example_header_entries. repeat constructor; cbn; lia. }
  assert (Hlen : Z.of_nat (length example_header_entries) < 2 ^ 32) by (cbn; lia).
  split; [exact Hn|]. split; [exact Hlen|].
  apply CalculateHeaderSize_is_written_length; assumption.
Defined.

(** ** Offsets *)

Lemma assign_offsets_cons cur e es :
  assign_offsets_from cur (e :: es)
    = set_offset e cur :: assign_offsets_from (u64 (cur + encoded_size e)) es.
Proof. reflexivity. Qed.

Lemma assign_offsets_same (f : FileEntry -> string) es :
  (forall e o, f (set_offset e o) = f e) ->
  forall cur, map f (assign_offsets_from cur es) = map f es.
Proof.
  intros Hf. induction es as [|e es IH]; intros cur; [reflexivity|].
  rewrite assign_offsets_cons. cbn [map]. rewrite Hf, IH. reflexivity.
Qed.

Lemma length_assign_offsets es : forall cur, length (assign_offsets_from cur es) = length es.
Proof.
  induction es as [|e es IH]; intros cur; [reflexivity|].
  rewrite assign_offsets_cons. cbn [length]. rewrite IH. reflexivity.
Qed.

Lemma assign_offsets_name_sizes es :
  forall cur,
  Forall (fun e => name_size e < 2 ^ 16) es ->
  Forall (fun e => name_size e < 2 ^ 16) (assign_offsets_from cur es).
Proof.
  induction es as [|e es IH]; intros cur H; [constructor|].
  apply Forall_cons in H as [He H]. rewrite assign_offsets_cons.
  constructor; [exact He|apply IH; exact H].
Qed.

Lemma entry_bytes_length_offset e o :
  length (entry_bytes (set_offset e o)) = length (entry_bytes e).
Proof.
  unfold entry_bytes. rewrite !length_app, !length_le_bytes. reflexivity.
Qed.

Lemma assign_offsets_bytes_length es :
  forall cur,
  length (concat (map entry_bytes (assign_offsets_from cur es)))
    = length (concat (map entry_bytes es)).
Proof.
  induction es as [|e es IH]; intros cur; [reflexivity|].
  rewrite assign_offsets_cons. cbn [map concat]. rewrite !length_app, IH.
  rewrite entry_bytes_length_offset. reflexivity.
Qed.

(** ** One inverted bit in a sequence of bytes *)

Lemma length_flip_bit bs : forall j, length (flip_bit j bs) = length bs.
Proof.
  induction bs as [|b bs IH]; intros j; [reflexivity|].
  cbn [flip_bit]. destruct (j <? 8)%nat; cbn [length]; [reflexivity|].
  rewrite IH. reflexivity.
Qed.

Lemma flip_bit_beyond bs : forall j, (8 * length bs <= j)%nat -> flip_bit j bs = bs.
Proof.
  induction bs as [|b bs IH]; intros j Hj; [reflexivity|].
  cbn [flip_bit length] in *. destruct (Nat.ltb_spec j 8) as [Hlt|Hge]; [lia|].
  rewrite IH by lia. reflexivity.
Qed.

Lemma flip_bit_app_l a b : forall j, (j < 8 * length a)%nat -> flip_bit j (a ++ b) = flip_bit j a ++ b.
Proof.
  induction a as [|x a IH]; intros j Hj; [cbn [length] in Hj; lia|].
  cbn [app flip_bit length] in *. destruct (Nat.ltb_spec j 8) as [Hlt|Hge]; [reflexivity|].
  rewrite IH by lia. reflexivity.
Qed.

Lemma flip_bit_app_r a b :
  forall j, (8 * length a <= j)%nat -> flip_bit j (a ++ b) = a ++ flip_bit (j - 8 * length a) b.
Proof.
  induction a as [|x a IH]; intros j Hj.
  - cbn [app length]. rewrite Nat.mul_0_r, Nat.sub_0_r. reflexivity.
  - cbn [app flip_bit length] in *. destruct (Nat.ltb_spec j 8) as [Hlt|Hge]; [lia|].
    rewrite IH by lia. do 3 f_equal. lia.
Qed.

(** One inverted bit of [a ++ b] is in [a] or in [b]. *)
Lemma flip_bit_app_split a b j :
  exists j1 j2, flip_bit j (a ++ b) = flip_bit j1 a ++ flip_bit j2 b.
Proof.
  destruct (Nat.lt_ge_cases j (8 * length a)) as [Hlt|Hge].
  - exists j, (8 * length b)%nat. rewrite flip_bit_app_l by exact Hlt.
    rewrite (flip_bit_beyond b) by lia. reflexivity.
  - exists (8 * length a)%nat, (j - 8 * length a)%nat. rewrite flip_bit_app_r by exact Hge.
    rewrite (flip_bit_beyond a) by lia. reflexivity.
Qed.

(** ** Entries and the payloads they point to *)

Lemma fs_file_size_content w p : fs_file_size w p = Z.of_nat (length (file_content w p)).
Proof.
  unfold fs_file_size, file_content. destruct (w_files w !! p) as [[content|]|]; reflexivity.
Qed.

Lemma Forall2_impl_elem {A B} (P Q : A -> B -> Prop) l k :
  Forall2 P l k -> (forall x y, y ∈ k -> P x y -> Q x y) -> Forall2 Q l k.
Proof.
  induction 1 as [|x y l k Hxy _ IH]; intros Himp; constructor.
  - apply Himp; [apply list_elem_of_here|exact Hxy].
  - apply IH. intros a b Hb. apply Himp, list_elem_of_further, Hb.
Qed.

(** The code blocks of an encoding, with at most one bit inverted, decode to
    the data blocks. *)
Lemma received_flipped k r B j rest :
  1 <= k <= 16 -> 1 <= r <= 8 -> k + r + 1 <= 2 ^ r ->
  exists rcv tail,
    Forall2 (recv_ok (codec k r)) (enc_blocks (Z.to_nat k) [] (unpack B)) rcv /\
    unpack (flip_bit j (snd (encode k r B)) ++ rest) = concat rcv ++ tail.
Proof.
  intros Hk Hr Hv. rewrite encode_ok by lia. cbn [snd].
  set (blocks := enc_blocks (Z.to_nat k) [] (unpack B)).
  assert (Hok : blocks_ok (Z.to_nat k) blocks) by (apply enc_blocks_ok; simpl; lia).
  destruct (unpack_pack (code_bits (codec k r) blocks)) as (pad & Hpad).
  rewrite unpack_app, unpack_flip_bit, Hpad.
  destruct (Nat.lt_ge_cases j (length (code_bits (codec k r) blocks))) as [Hlt|Hge].
  - rewrite flip_nth_app_l by exact Hlt. unfold code_bits in *.
    destruct (flip_nth_concat (block_code (codec k r)) (recv_ok (codec k r)) blocks)
      with (j := j) as (rcv & E & HF).
    + intros blk Hblk. apply recv_ok_intact; try assumption.
      apply (blocks_ok_lengths _ _ _ Hok Hblk).
    + intros blk i Hblk Hi. apply recv_ok_flipped; try assumption.
      apply (blocks_ok_lengths _ _ _ Hok Hblk).
    + exact Hlt.
    + exists rcv, (repeat false pad ++ unpack rest). split; [exact HF|].
      rewrite E, <- app_assoc. reflexivity.
  - exists (map (block_code (codec k r)) blocks),
           (flip_nth (j - length (code_bits (codec k r) blocks)) (repeat false pad)
              ++ unpack rest).
    split; [apply recv_ok_all_intact; assumption|].
    rewrite flip_nth_app_r by exact Hge. rewrite <- app_assoc. reflexivity.
Qed.

Lemma stores_readable k r data e B :
  1 <= k <= 16 -> 1 <= r <= 8 -> k + r + 1 <= 2 ^ r ->
  stores k r data e B -> readable k r data e B.
Proof.
  intros Hk Hr Hv (Ho & Hlt & _ & Hoff & rest & Hd).
  split; [exact Ho|]. split; [exact Hlt|]. split; [exact Hoff|].
  rewrite Hd, <- (flip_bit_beyond (snd (encode k r B)) (8 * length (snd (encode k r B)))) by lia.
  apply received_flipped; assumption.
Qed.

(** The entries that [Create] writes for its inputs store their contents. *)
Lemma layout_stores k r w data tail inputs :
  1 <= k <= 16 -> 1 <= r <= 8 ->
  (forall p, p ∈ inputs -> fs_file_size w p < 2 ^ 56) ->
  forall cur pre,
  data = pre ++ created_payload k r w inputs ++ tail ->
  cur = Z.of_nat (length pre) ->
  cur + Z.of_nat (length (created_payload k r w inputs)) < 2 ^ 63 ->
  Forall2 (fun e p => stores k r data e (file_content w p))
    (assign_offsets_from cur (map (new_entry w (codec k r)) inputs)) inputs.
Proof.
  intros Hk Hr. unfold created_payload.
  induction inputs as [|p inputs IH]; intros Hsizes cur pre Hdata Hcur Hmax.
  - constructor.
  - cbn [map concat] in *. rewrite assign_offsets_cons.
    assert (Hp : Z.of_nat (length (file_content w p)) < 2 ^ 56).
    { rewrite <- fs_file_size_content. apply Hsizes, list_elem_of_here. }
    assert (Henc : encoded_size (new_entry w (codec k r) p)
                   = Z.of_nat (length (snd (encode k r (file_content w p))))).
    { cbn [encoded_size new_entry]. rewrite fs_file_size_content.
      symmetry. apply encoded_length; assumption. }
    rewrite length_app, Nat2Z.inj_add in Hmax.
    constructor.
    + unfold stores. cbn [set_offset original_size encoded_size offset].
      split; [cbn [new_entry original_size]; apply fs_file_size_content|].
      split; [exact Hp|]. split; [exact Henc|]. split; [lia|].
      rewrite Hdata, Hcur, Nat2Z.id, drop_app_length, <- app_assoc. eauto.
    + rewrite Henc, u64_small by lia.
      apply IH with (pre := pre ++ snd (encode k r (file_content w p))).
      * intros q Hq. apply Hsizes, list_elem_of_further, Hq.
      * rewrite Hdata, <- !app_assoc. reflexivity.
      * rewrite length_app. lia.
      * lia.
Qed.

(** With one bit of the payload inverted, the decoder can still read every
    content at the offset of its entry. *)
Lemma layout_readable k r w data inputs :
  1 <= k <= 16 -> 1 <= r <= 8 -> k + r + 1 <= 2 ^ r ->
  (forall p, p ∈ inputs -> fs_file_size w p < 2 ^ 56) ->
  forall cur pre j,
  data = pre ++ flip_bit j (created_payload k r w inputs) ->
  cur = Z.of_nat (length pre) ->
  cur + Z.of_nat (length (created_payload k r w inputs)) < 2 ^ 63 ->
  Forall2 (fun e p => readable k r data e (file_content w p))
    (assign_offsets_from cur (map (new_entry w (codec k r)) inputs)) inputs.
Proof.
  intros Hk Hr Hv. unfold created_payload.
  induction inputs as [|p inputs IH]; intros Hsizes cur pre j Hdata Hcur Hmax.
  - constructor.
  - cbn [map concat] in *. rewrite assign_offsets_cons.
    assert (Hp : Z.of_nat (length (file_content w p)) < 2 ^ 56).
    { rewrite <- fs_file_size_content. apply Hsizes, list_elem_of_here. }
    assert (Henc : encoded_size (new_entry w (codec k r) p)
                   = Z.of_nat (length (snd (encode k r (file_content w p))))).
    { cbn [encoded_size new_entry]. rewrite fs_file_size_content.
      symmetry. apply encoded_length; assumption. }
    rewrite length_app, Nat2Z.inj_add in Hmax.
    destruct (flip_bit_app_split (snd (encode k r (file_content w p)))
                (concat (map (fun p => snd (encode k r (file_content w p))) inputs)) j)
      as (j1 & j2 & Hsplit).
    rewrite Hsplit in Hdata.
    constructor.
    + unfold readable. cbn [set_offset original_size offset].
      split; [cbn [new_entry original_size]; apply fs_file_size_content|].
      split; [exact Hp|]. split; [lia|].
      rewrite Hdata, Hcur, Nat2Z.id, drop_app_length.
      apply received_flipped; assumption.
    + rewrite Henc, u64_small by lia.
      apply IH with (pre := pre ++ flip_bit j1 (snd (encode k r (file_content w p)))) (j := j2).
      * intros q Hq. apply Hsizes, list_elem_of_further, Hq.
      * rewrite Hdata, <- !app_assoc. reflexivity.
      * rewrite length_app, length_flip_bit. lia.
      * lia.
Qed.

(** ** Encoding the inputs *)

Lemma is_file_content w p : is_file w p -> w_files w !! p = Some (File (file_content w p)).
Proof. intros [content H]. unfold file_content. rewrite H. reflexivity. Qed.

Lemma EncodeFileToArchive_unlimited k r w e out :
  1 <= k <= 16 -> 1 <= r <= 8 ->
  is_file w (source_path e) -> o_room out = None -> o_fail out = false ->
  EncodeFileToArchive w e (codec k r) out
    = (true, {| o_data := o_data out ++ snd (encode k r (file_content w (source_path e)));
                o_room := None; o_fail := false |}).
Proof.
  intros Hk Hr Hfile Hroom Hfail.
  unfold EncodeFileToArchive, open_ifstream. rewrite (is_file_content _ _ Hfile).
  destruct (EncodeStream_general (codec k r)
              {| i_data := file_content w (source_path e); i_pos := 0;
                 i_eof := false; i_fail := false |} out)
    as (ins' & out' & -> & Hd & Hr' & Hf' & _);
    try assumption; try reflexivity;
    try (cbn [data_bits_ total_bits_ codec mkHammingCodec opt_data_bits opt_parity_bits]; lia).
  cbn [i_pos i_data data_bits_ codec mkHammingCodec opt_data_bits] in Hd.
  rewrite drop_0 in Hd. rewrite encode_ok by lia. cbn [snd].
  destruct out' as [d rm fl]. cbn [o_data o_room o_fail] in *. subst. reflexivity.
Qed.

Lemma encode_entries_cons w e rest c out :
  encode_entries w (e :: rest) c out
    = let '(ok, out) := EncodeFileToArchive w e c out in
      if negb ok then (false, out) else encode_entries w rest c out.
Proof. reflexivity. Qed.

Lemma encode_entries_unlimited k r w entries :
  1 <= k <= 16 -> 1 <= r <= 8 ->
  forall out,
  (forall e, e ∈ entries -> is_file w (source_path e)) ->
  o_room out = None -> o_fail out = false ->
  encode_entries w entries (codec k r) out
    = (true,
       {| o_data := o_data out
                      ++ concat (map (fun e => snd (encode k r (file_content w (source_path e))))
                                   entries);
          o_room := None; o_fail := false |}).
Proof.
  intros Hk Hr. induction entries as [|e entries IH]; intros out Hall Hroom Hfail.
  - cbn [encode_entries map concat]. rewrite app_nil_r.
    destruct out as [d rm fl]. cbn [o_data o_room o_fail] in *. subst. reflexivity.
  - rewrite encode_entries_cons, EncodeFileToArchive_unlimited
      by (try assumption; apply Hall, list_elem_of_here).
    taken. rewrite IH by (try reflexivity; intros x Hx; apply Hall, list_elem_of_further, Hx).
    cbn [map concat o_data]. rewrite <- app_assoc. reflexivity.
Qed.

(** ** The file system around Create *)

Lemma prepare_parent_room w p : w_room (prepare_parent w p).2 = w_room w.
Proof.
  unfold prepare_parent. destruct (has_parent_path p); [|reflexivity].
  unfold fs_create_directories. destruct (mkdirs _ _ _) as [ok fs1].
  destruct (negb ok && negb (fs_exists (with_files w fs1) (parent_path p))); reflexivity.
Qed.

Lemma open_ofstream_Some w p out w' :
  open_ofstream w p = Some (out, w') ->
  out = {| o_data := []; o_room := w_room w; o_fail := false |} /\
  w' = with_files w (<[p := File []]> (w_files w)).
Proof.
  unfold open_ofstream. intros H.
  destruct (w_files w !! p) as [[content|]|];
    try discriminate H;
    destruct (negb (has_parent_path p) || fs_is_directory w (parent_path p));
    try discriminate H; injection H as <- <-; auto.
Qed.

(** What a successful [Create] leaves, on a device that takes every byte:
    the archive file is the header of the created entries followed by the
    encodings of the inputs; every other path is as before or is a
    directory made for the archive. *)
Lemma Create_written w archive k r inputs w' :
  1 <= k <= 16 -> 1 <= r <= 8 ->
  w_room w = None ->
  Create w archive (codec k r) inputs = (true, w') ->
  archive ∉ inputs ->
  (forall p, p ∈ inputs -> is_file w p) /\
  (forall q, q <> archive ->
     w_files w' !! q = w_files w !! q \/
     (w_files w !! q = None /\ w_files w' !! q = Some Dir)) /\
  w_files w' !! archive
    = Some (File (header_bytes (created_entries w (codec k r) inputs)
                    ++ created_payload k r w inputs)) /\
  w_room w' = None.
Proof.
  intros Hk Hr Hroom Hcreate Hnotin.
  unfold Create in Hcreate. fold (prepare_parent w archive) in Hcreate.
  pose proof (prepare_parent_lookup w archive) as Hprep.
  pose proof (prepare_parent_room w archive) as Hroom1.
  destruct (prepare_parent w archive) as [dir_ok w1]. cbn [snd] in Hprep, Hroom1.
  destruct dir_ok; taken in Hcreate; [|discriminate Hcreate].
  destruct (open_ofstream w1 archive) as [[out0 w2]|] eqn:Eopen; [|discriminate Hcreate].
  pose proof (fun q => open_ofstream_lookup _ _ _ _ q Eopen) as Hframe.
  apply open_ofstream_Some in Eopen as [-> ->].
  rewrite Hroom1, Hroom in Hcreate.
  set (w2 := with_files w1 (<[archive := File []]> (w_files w1))) in *.
  destruct (CollectNewEntries w2 inputs (codec k r) []) as [ok1 entries] eqn:Ecollect.
  destruct ok1; taken in Hcreate; [|discriminate Hcreate].
  assert (Hfiles2 : forall p, p ∈ inputs -> is_file w2 p).
  { apply (CollectNewEntries_files w2 (codec k r) inputs []). rewrite Ecollect. reflexivity. }
  rewrite (CollectNewEntries_map w2 (codec k r) inputs [] Hfiles2) in Ecollect.
  injection Ecollect as <-. cbn [app] in Hcreate.
  (* the inputs are what they were *)
  assert (Hsame : forall p, p ∈ inputs -> w_files w2 !! p = w_files w !! p).
  { intros p Hp. assert (Hne : p <> archive) by (intros ->; contradiction).
    rewrite (Hframe p Hne). destruct (Hprep p) as [E|[_ E]]; [exact E|].
    destruct (Hfiles2 p Hp) as [content Hc]. rewrite (Hframe p Hne), E in Hc.
    discriminate Hc. }
  assert (Hnew : map (new_entry w2 (codec k r)) inputs = map (new_entry w (codec k r)) inputs).
  { apply map_ext_in. intros p Hp. apply list_elem_of_In in Hp.
    unfold new_entry, fs_file_size. rewrite (Hsame p Hp). reflexivity. }
  rewrite Hnew in Hcreate. fold (created_entries w (codec k r) inputs) in Hcreate.
  set (es := created_entries w (codec k r) inputs) in *.
  rewrite WriteArchiveHeader_unlimited in Hcreate by reflexivity. taken in Hcreate.
  cbn [o_data] in Hcreate. rewrite (app_nil_l (header_bytes es)) in Hcreate.
  assert (Hsrc : map source_path es = inputs).
  { unfold es, created_entries, AssignOffsets.
    rewrite (assign_offsets_same source_path) by reflexivity.
    rewrite map_map. cbn [new_entry source_path]. apply map_id. }
  rewrite (encode_entries_unlimited k r w2 es Hk Hr) in Hcreate; try reflexivity.
  2: { intros e He. apply Hfiles2. rewrite <- Hsrc.
       apply list_elem_of_fmap. exists e. auto. }
  cbv beta iota in Hcreate. cbn [negb o_data] in Hcreate.
  apply (f_equal snd) in Hcreate. cbn [snd] in Hcreate. subst w'.
  assert (Hpay : concat (map (fun e => snd (encode k r (file_content w2 (source_path e)))) es)
                 = created_payload k r w inputs).
  { unfold created_payload. f_equal.
    transitivity (map (fun p => snd (encode k r (file_content w2 p))) (map source_path es));
      [rewrite map_map; reflexivity|].
    rewrite Hsrc. apply map_ext_in. intros p Hp. apply list_elem_of_In in Hp.
    unfold file_content. rewrite (Hsame p Hp). reflexivity. }
  rewrite Hpay.
  split; [|split; [|split]].
  - intros p Hp. destruct (Hfiles2 p Hp) as [content Hc]. exists content.
    rewrite <- (Hsame p Hp). exact Hc.
  - intros q Hq. unfold close_ofstream. cbn [w_files].
    rewrite lookup_insert_ne by congruence.
    change (w_files w2 !! q) with ((<[archive := File []]> (w_files w1)) !! q).
    rewrite lookup_insert_ne by congruence. apply Hprep.
  - unfold close_ofstream. cbn [w_files o_data]. apply lookup_insert_eq.
  - reflexivity.
Qed.

Lemma created_entries_fit k r w inputs :
  1 <= k <= 16 -> 1 <= r <= 8 ->
  Z.of_nat (length inputs) < 2 ^ 32 ->
  (forall p, p ∈ inputs ->
     Z.of_nat (String.length (filename p)) < 2 ^ 16 /\ fs_file_size w p < 2 ^ 56) ->
  Z.of_nat (length (header_bytes (created_entries w (codec k r) inputs)
                      ++ created_payload k r w inputs)) < 2 ^ 63 ->
  CalculateHeaderSize (map (new_entry w (codec k r)) inputs)
    = Z.of_nat (length (header_bytes (created_entries w (codec k r) inputs))) /\
  Forall2 (fun e p =>
             stores k r (header_bytes (created_entries w (codec k r) inputs)
                           ++ created_payload k r w inputs) e (file_content w p))
    (created_entries w (codec k r) inputs) inputs /\
  Forall entry_fits (created_entries w (codec k r) inputs) /\
  Z.of_nat (length (created_entries w (codec k r) inputs)) < 2 ^ 32.
Proof.
  intros Hk Hr Hcount Hin Hsize.
  set (es0 := map (new_entry w (codec k r)) inputs).
  set (es := created_entries w (codec k r) inputs) in *.
  assert (Hnames0 : Forall (fun e => name_size e < 2 ^ 16) es0).
  { apply Forall_forall. intros e He. apply list_elem_of_In, in_map_iff in He as (p & <- & Hp).
    apply list_elem_of_In in Hp. apply (Hin p Hp). }
  assert (Hlen0 : length es0 = length inputs) by (unfold es0; apply length_map).
  assert (Hhs : CalculateHeaderSize es0 = Z.of_nat (length (header_bytes es))).
  { rewrite CalculateHeaderSize_length by (try assumption; lia).
    rewrite !length_header_bytes. unfold es, created_entries, AssignOffsets.
    rewrite assign_offsets_bytes_length. reflexivity. }
  assert (Hstores : Forall2 (fun e p =>
                               stores k r (header_bytes es ++ created_payload k r w inputs) e
                                 (file_content w p)) es inputs).
  { unfold es at 2, created_entries, AssignOffsets.
    apply layout_stores with (tail := []) (pre := header_bytes es); try assumption.
    - intros p Hp. apply (Hin p Hp).
    - rewrite app_nil_r. reflexivity.
    - fold es0. rewrite Hhs. rewrite length_app in Hsize. lia. }
  split; [exact Hhs|]. split; [exact Hstores|]. split.
  - apply Forall_forall. intros e He.
    assert (Hn : name_size e < 2 ^ 16).
    { assert (Hnn : Forall (fun e => name_size e < 2 ^ 16) es)
        by (apply assign_offsets_name_sizes; exact Hnames0).
      apply (proj1 (Forall_forall _ _) Hnn e He). }
    apply list_elem_of_lookup in He as [i Hi].
    destruct (Forall2_lookup_l _ _ _ _ _ Hstores Hi) as (p & Hp & Ho & Hlt & He2 & Hoff & _).
    pose proof (CalculateEncodedSize_range (codec k r) (Z.of_nat (length (file_content w p))))
      as Hrange.
    rewrite <- encoded_length in Hrange by assumption.
    unfold entry_fits. rewrite Ho, He2. repeat split; try lia.
  - unfold es, created_entries, AssignOffsets. rewrite length_assign_offsets.
    fold es0. rewrite Hlen0. exact Hcount.
Qed.

Lemma created_names w c inputs :
  map name (created_entries w c inputs) = map filename inputs.
Proof.
  unfold created_entries, AssignOffsets.
  rewrite (assign_offsets_same name) by reflexivity.
  rewrite map_map. reflexivity.
Qed.

Lemma file_content_lookup w p data :
  w_files w !! p = Some (File data) -> file_content w p = data.
Proof. intros H. unfold file_content. rewrite H. reflexivity. Qed.

(** What a successful [Create] has done, on a device that takes every
    byte: the archive file holds a header that reads back as one entry for
    every input path, in input order and named by the last component of the
    path (two inputs with the same last component give two entries of the
    same name), and every entry stores the content of its input file: with
    its size, the size of its encoding, and the encoding at its offset.
    Every other path is as before, or is a directory made for the archive. *)
Theorem Create_archive_layout w archive k r inputs w' :
  1 <= k <= 16 -> 1 <= r <= 8 ->
  w_room w = None ->
  Create w archive (codec k r) inputs = (true, w') ->
  archive ∉ inputs ->
  Z.of_nat (length inputs) < 2 ^ 32 ->
  (forall p, p ∈ inputs ->
     Z.of_nat (String.length (filename p)) < 2 ^ 16 /\ fs_file_size w p < 2 ^ 56) ->
  fs_file_size w' archive < 2 ^ 63 ->
  exists entries,
    read_archive w' archive = Some entries /\
    map name entries = map filename inputs /\
    Forall2 (fun e p => stores k r (file_content w' archive) e (file_content w p))
      entries inputs /\
    w_room w' = None /\
    (forall q, q <> archive ->
       w_files w' !! q = w_files w !! q \/
       (w_files w !! q = None /\ w_files w' !! q = Some Dir)).
Proof.
  intros Hk Hr Hroom Hcreate Hnotin Hcount Hin Hsize.
  destruct (Create_written w archive k r inputs w' Hk Hr Hroom Hcreate Hnotin)
    as (Hfiles & Hframe & Hdata & Hroom').
  rewrite fs_file_size_content, (file_content_lookup _ _ _ Hdata) in Hsize.
  rewrite (file_content_lookup _ _ _ Hdata).
  destruct (created_entries_fit k r w inputs Hk Hr Hcount Hin Hsize)
    as (_ & Hstores & Hfits & Hlen).
  set (es := created_entries w (codec k r) inputs) in *.
  exists (map stored es). split; [|split; [|split; [|split]]].
  - unfold read_archive, open_ifstream. rewrite Hdata.
    destruct (ReadArchiveHeader_stored
                {| i_data := header_bytes es ++ created_payload k r w inputs; i_pos := 0;
                   i_eof := false; i_fail := false |} es (created_payload k r w inputs))
      as (s' & E & _); try assumption; try reflexivity.
    rewrite E. reflexivity.
  - rewrite map_map. cbn [stored name]. apply created_names.
  - apply Forall2_fmap_l. apply (Forall2_impl _ _ _ _ Hstores). intros e p Hst. exact Hst.
  - exact Hroom'.
  - exact Hframe.
Qed.

Lemma ex_create_two_inputs :
  exists entries,
    read_archive
      (snd (Create example_two_inputs "a.haf" (codec 8 4) ["one/dup.bin"; "two/dup.bin"]%string))
      "a.haf" = Some entries /\
    map name entries = ["dup.bin"; "dup.bin"]%string.
Proof.
  destruct (Create_archive_layout example_two_inputs "a.haf" 8 4
              ["one/dup.bin"; "two/dup.bin"]%string
              (snd (Create example_two_inputs "a.haf" (codec 8 4)
                      ["one/dup.bin"; "two/dup.bin"]%string)))
    as (entries & Hread & Hnames & _).
  - lia.
  - lia.
  - reflexivity.
  - vm_compute. reflexivity.
  - intros H. apply elem_of_cons in H as [H|H]; [discriminate H|].
    apply elem_of_cons in H as [H|H]; [discriminate H|].
    apply elem_of_nil in H. exact H.
  - simpl. lia.
  - intros p H. apply elem_of_cons in H as [->|H]; [vm_compute; split; reflexivity|].
    apply elem_of_cons in H as [->|H]; [vm_compute; split; reflexivity|].
    apply elem_of_nil in H. contradiction.
  - vm_compute. reflexivity.
  - exists entries. split; [exact Hread|exact Hnames].
Defined.

(** * What Extract restores *)

(** ** The input stream behind the header *)

Lemma read_bytes_Some n s bs s' :
  read_bytes n s = (Some bs, s') ->
  i_data s' = i_data s /\ i_eof s' = false /\ i_fail s' = false.
Proof.
  unfold read_bytes. destruct (negb (i_good s)); [discriminate|].
  destruct (i_pos s + n <=? length (i_data s))%nat; [|discriminate].
  intros H. injection H as _ <-. auto.
Qed.

Lemma read_entry_Some s e s' :
  read_entry s = (Some e, s') ->
  i_data s' = i_data s /\ i_eof s' = false /\ i_fail s' = false.
Proof.
  unfold read_entry. intros H.
  destruct (read_bytes 2 s) as [[b1|] s1] eqn:E1; [|discriminate H].
  apply read_bytes_Some in E1 as (D1 & He1 & Hf1).
  destruct (if 0 <? le_value b1 then read_bytes (Z.to_nat (le_value b1)) s1 else (Some [], s1))
    as [[nb|] s2] eqn:E2; [|discriminate H].
  assert (D2 : i_data s2 = i_data s1).
  { destruct (0 <? le_value b1).
    - apply read_bytes_Some in E2 as (D & _). exact D.
    - injection E2 as _ <-. reflexivity. }
  destruct (read_bytes 8 s2) as [[b3|] s3] eqn:E3; [|discriminate H].
  destruct (read_bytes 8 s3) as [[b4|] s4] eqn:E4; [|discriminate H].
  destruct (read_bytes 8 s4) as [[b5|] s5] eqn:E5; [|discriminate H].
  injection H as _ <-.
  apply read_bytes_Some in E3 as (D3 & _).
  apply read_bytes_Some in E4 as (D4 & _).
  apply read_bytes_Some in E5 as (D5 & He & Hf).
  split; [congruence|auto].
Qed.

Lemma read_entries_true count :
  forall s acc s' entries,
  read_entries count s acc = (true, s', entries) ->
  i_eof s = false -> i_fail s = false ->
  i_data s' = i_data s /\ i_eof s' = false /\ i_fail s' = false.
Proof.
  induction count as [|count IH]; intros s acc s' entries H He Hf.
  - cbn [read_entries] in H. injection H as <- _. auto.
  - cbn [read_entries] in H. destruct (read_entry s) as [[e|] s1] eqn:E1; [|discriminate H].
    apply read_entry_Some in E1 as (D1 & He1 & Hf1).
    destruct (IH _ _ _ _ H He1 Hf1) as (D & He' & Hf'). split; [congruence|auto].
Qed.

Lemma ReadArchiveHeader_true s s' entries :
  ReadArchiveHeader s = (true, s', entries) ->
  i_data s' = i_data s /\ i_eof s' = false /\ i_fail s' = false.
Proof.
  unfold ReadArchiveHeader. intros H.
  destruct (read_bytes 3 s) as [[sig|] s1] eqn:E1; [|discriminate H].
  destruct (negb (bool_decide (sig = magic))); [discriminate H|].
  destruct (read_bytes 4 s1) as [[cnt|] s2] eqn:E2; [|discriminate H].
  apply read_bytes_Some in E1 as (D1 & _).
  apply read_bytes_Some in E2 as (D2 & He2 & Hf2).
  destruct (read_entries_true _ _ _ _ _ H He2 Hf2) as (D & He & Hf).
  split; [congruence|auto].
Qed.

(** ** The files that a run of Extract writes *)

Lemma put_files_other names :
  forall contents fs q, q ∉ names -> put_files fs names contents !! q = fs !! q.
Proof.
  induction names as [|n names IH]; intros contents fs q Hq; [reflexivity|].
  destruct contents as [|B contents]; [reflexivity|]. cbn [put_files].
  apply not_elem_of_cons in Hq as [Hne Hq].
  rewrite IH by exact Hq. apply lookup_insert_ne. congruence.
Qed.

Lemma put_files_nodup names :
  forall contents fs,
  NoDup names -> length names = length contents ->
  Forall2 (fun n B => put_files fs names contents !! n = Some (File B)) names contents.
Proof.
  induction names as [|n names IH]; intros contents fs Hnd Hlen;
    destruct contents as [|B contents]; try discriminate Hlen; [constructor|].
  apply NoDup_cons in Hnd as [Hn Hnd]. constructor.
  - cbn [put_files]. rewrite put_files_other by exact Hn. apply lookup_insert_eq.
  - apply (IH contents (<[n := File B]> fs) Hnd). cbn [length] in Hlen. lia.
Qed.

Lemma open_ofstream_here w p :
  has_parent_path p = false -> w_files w !! p <> Some Dir ->
  open_ofstream w p
    = Some ({| o_data := []; o_room := w_room w; o_fail := false |},
            with_files w (<[p := File []]> (w_files w))).
Proof.
  intros Hnp Hnd. unfold open_ofstream. rewrite Hnp.
  destruct (w_files w !! p) as [[content|]|]; try reflexivity. contradiction.
Qed.

Lemma extract_entries_cons w c ins entry rest :
  extract_entries w c ins (entry :: rest)
    = let ins := seekg (offset entry) ins in
      if negb (i_good ins) then (false, w)
      else
        let out_path := name entry in
        let '(ok, w) := EnsureParentDirectoryExists w out_path in
        if negb ok then (false, w)
        else
          match open_ofstream w out_path with
          | None => (false, w)
          | Some (out_file, w) =>
              let '(ok, ins, out_file) :=
                DecodeStream c ins out_file (original_size entry) (encoded_size entry) in
              let w := close_ofstream w out_path out_file in
              if negb ok then (false, w) else extract_entries w c ins rest
          end.
Proof. reflexivity. Qed.

Lemma i_good_fail s : i_good s = true -> i_fail s = false.
Proof. unfold i_good. destruct (i_eof s), (i_fail s); cbn; congruence. Qed.

(** [Extract]'s loop over entries whose contents the decoder can read, for
    names without a directory part, on a device that takes every byte. *)
Lemma extract_entries_readable k r data sel contents :
  1 <= k <= 16 -> 1 <= r <= 8 ->
  Forall2 (readable k r data) sel contents ->
  forall w ins,
  i_data ins = data -> i_fail ins = false -> w_room w = None ->
  (forall e, e ∈ sel -> has_parent_path (name e) = false) ->
  (forall e, e ∈ sel -> w_files w !! name e <> Some Dir) ->
  extract_entries w (codec k r) ins sel
    = (true, {| w_files := put_files (w_files w) (map name sel) contents; w_room := None |}).
Proof.
  intros Hk Hr. induction 1 as [|e B sel contents Hread _ IH];
    intros w ins Hdata Hfail Hroom Hnp Hnd.
  - cbn [extract_entries map put_files]. destruct w as [fs rm]. cbn [w_room] in Hroom.
    subst rm. reflexivity.
  - destruct Hread as (Hos & Hlt & Hoff & rcv & tail & Hrcv & Hbits).
    rewrite extract_entries_cons. cbv zeta.
    assert (Hseek : seekg (offset e) ins
                    = {| i_data := data; i_pos := Z.to_nat (offset e);
                         i_eof := false; i_fail := false |}).
    { unfold seekg. rewrite Hfail, Hdata.
      destruct (Z.ltb_spec (offset e) (2 ^ 63)) as [_|Hge]; [reflexivity|lia]. }
    rewrite Hseek.
    set (ins1 := {| i_data := data; i_pos := Z.to_nat (offset e);
                    i_eof := false; i_fail := false |}).
    assert (Hg1 : i_good ins1 = true) by reflexivity.
    rewrite Hg1. taken.
    unfold EnsureParentDirectoryExists.
    rewrite (Hnp e (list_elem_of_here _ _)). taken.
    rewrite open_ofstream_here
      by (try apply Hnp; try apply Hnd; apply list_elem_of_here).
    rewrite Hroom, Hos.
    destruct (DecodeStream_received k r B rcv tail ins1
                {| o_data := []; o_room := None; o_fail := false |} (encoded_size e))
      as (ins' & out' & E & Ho & Hro & Hfo & Hg'); try assumption; try reflexivity.
    rewrite E. taken.
    assert (Hrange : 0 <= Z.of_nat (length B) < 2 ^ 56) by lia.
    destruct (DecodeStream_reads k r _ _ _ _ _ _ Hk Hr Hrange E) as (Hd' & _).
    cbn [o_data app] in Ho.
    rewrite (IH (close_ofstream _ (name e) out') ins').
    + unfold close_ofstream. cbn [w_files with_files map put_files].
      rewrite (on_device_unlimited _ Hro), Ho, insert_insert_eq. reflexivity.
    + rewrite Hd'. reflexivity.
    + apply i_good_fail, Hg'.
    + unfold close_ofstream. cbn [w_room]. apply room_left_unlimited, Hro.
    + intros e' He'. apply Hnp, list_elem_of_further, He'.
    + intros e' He'. unfold close_ofstream. cbn [w_files with_files].
      rewrite insert_insert_eq.
      destruct (decide (name e' = name e)) as [->|Hne].
      * rewrite lookup_insert_eq. discriminate.
      * rewrite lookup_insert_ne by congruence. apply Hnd, list_elem_of_further, He'.
Qed.

(** [Extract] on an archive whose selected entries the decoder can read. *)
Lemma Extract_readable w archive k r requested entries sel contents :
  1 <= k <= 16 -> 1 <= r <= 8 ->
  w_room w = None ->
  read_archive w archive = Some entries ->
  (requested = [] /\ sel = entries) \/
    (requested <> [] /\ FindEntriesByNames entries requested [] = (true, sel)) ->
  Forall2 (readable k r (file_content w archive)) sel contents ->
  (forall e, e ∈ sel -> has_parent_path (name e) = false) ->
  (forall e, e ∈ sel -> w_files w !! name e <> Some Dir) ->
  Extract w archive (codec k r) requested
    = (true, {| w_files := put_files (w_files w) (map name sel) contents; w_room := None |}).
Proof.
  intros Hk Hr Hroom Hread Hsel Hall Hnp Hnd.
  destruct (read_archive_Some _ _ _ Hread) as (ins & ins' & Hopen & Hhead).
  unfold Extract. rewrite Hopen, Hhead. taken.
  destruct (ReadArchiveHeader_true _ _ _ Hhead) as (Hd & _ & Hf).
  assert (Hdata : i_data ins' = file_content w archive).
  { rewrite Hd. unfold open_ifstream in Hopen. unfold file_content.
    destruct (w_files w !! archive) as [[content|]|]; try discriminate Hopen.
    injection Hopen as <-. reflexivity. }
  assert (Hpick : match requested with
                  | [] => (true, entries)
                  | _ :: _ => FindEntriesByNames entries requested []
                  end = (true, sel)).
  { destruct Hsel as [[-> ->]|[Hne Hfind]]; [reflexivity|].
    destruct requested; [contradiction|exact Hfind]. }
  rewrite Hpick. taken.
  apply (extract_entries_readable k r (file_content w archive)); assumption.
Qed.

(** [Extract] writes what the archive stores.  Let the header of the
    archive be readable, let the selected entries (all of them for an empty
    request, those that [FindEntriesByNames] finds otherwise) store the
    given contents, encoded with the codec's parameters, which are those of
    a proper Hamming code, and let the names of the selected entries be
    names that the file system takes for a file in the current directory:
    without a directory part, not empty, without a NUL byte, at most 255
    bytes long, and neither the archive nor a directory.  Then, on a device
    that takes every byte, [Extract] succeeds; it writes the contents at the
    names of the entries, in the order of the entries, and touches no other
    path.  When the names are distinct, every name ends up holding the
    content of its entry. *)
Theorem Extract_restores w archive k r requested entries sel contents :
  1 <= k <= 16 -> 1 <= r <= 8 -> k + r + 1 <= 2 ^ r ->
  w_room w = None ->
  read_archive w archive = Some entries ->
  (requested = [] /\ sel = entries) \/
    (requested <> [] /\ FindEntriesByNames entries requested [] = (true, sel)) ->
  Forall2 (stores k r (file_content w archive)) sel contents ->
  (forall e, e ∈ sel ->
     has_parent_path (name e) = false /\ name e <> ""%string /\ has_nul (name e) = false /\
     (String.length (name e) <= 255)%nat /\
     name e <> archive /\ w_files w !! name e <> Some Dir) ->
  exists w',
    Extract w archive (codec k r) requested = (true, w') /\
    w_files w' = put_files (w_files w) (map name sel) contents /\
    (forall q, q ∉ map name sel -> w_files w' !! q = w_files w !! q) /\
    (NoDup (map name sel) ->
     Forall2 (fun e B => w_files w' !! name e = Some (File B)) sel contents).
Proof.
  intros Hk Hr Hv Hroom Hread Hsel Hstores Hnames.
  eexists. split; [|split; [|split]].
  - apply (Extract_readable w archive k r requested entries sel contents);
      try assumption.
    + apply (Forall2_impl _ _ _ _ Hstores). intros e B. apply stores_readable; assumption.
    + intros e He. apply (Hnames e He).
    + intros e He. apply (Hnames e He).
  - reflexivity.
  - intros q Hq. cbn [w_files]. apply put_files_other. exact Hq.
  - intros Hnd. cbn [w_files].
    refine (proj1 (Forall2_fmap_l name
                     (fun n B => put_files (w_files w) (map name sel) contents !! n
                                 = Some (File B)) sel contents) _).
    apply put_files_nodup; [exact Hnd|].
    rewrite length_map. apply (Forall2_length _ _ _ Hstores).
Qed.

(** ** Create, then Extract *)

Lemma header_bytes_stored es : header_bytes (map stored es) = header_bytes es.
Proof.
  unfold header_bytes. rewrite length_map, map_map. reflexivity.
Qed.

Lemma put_files_pairs {A} (f : A -> string) (g : A -> list byte) l :
  forall fs,
  NoDup (map f l) ->
  forall x, x ∈ l -> put_files fs (map f l) (map g l) !! f x = Some (File (g x)).
Proof.
  intros fs Hnd x Hx.
  assert (HF : Forall2 (fun n C => put_files fs (map f l) (map g l) !! n = Some (File C))
                 (map f l) (map g l))
    by (apply put_files_nodup; [exact Hnd|rewrite !length_map; reflexivity]).
  apply list_elem_of_lookup in Hx as [i Hi].
  apply (Forall2_lookup_lr _ _ _ i (f x) (g x) HF); rewrite list_lookup_fmap, Hi; reflexivity.
Qed.

(** [Extract] of everything from the archive that [Create] has made, after
    the bit [j] of the archive file was inverted, where [j] is any position
    behind the header (for a position behind the end of the file nothing is
    inverted). *)
Lemma Create_flip_Extract w archive k r inputs w1 j :
  1 <= k <= 16 -> 1 <= r <= 8 -> k + r + 1 <= 2 ^ r ->
  w_room w = None ->
  Create w archive (codec k r) inputs = (true, w1) ->
  archive ∉ inputs ->
  Z.of_nat (length inputs) < 2 ^ 32 ->
  (forall p, p ∈ inputs ->
     Z.of_nat (String.length (filename p)) < 2 ^ 16 /\ fs_file_size w p < 2 ^ 56) ->
  fs_file_size w1 archive < 2 ^ 63 ->
  (forall p, p ∈ inputs -> w_files w1 !! filename p <> Some Dir) ->
  (8 * length (header_bytes (created_entries w (codec k r) inputs)) <= j)%nat ->
  read_archive w1 archive = Some (map stored (created_entries w (codec k r) inputs)) /\
  Extract (with_files w1 (<[archive := File (flip_bit j (file_content w1 archive))]>
                            (w_files w1)))
      archive (codec k r) []
    = (true,
       {| w_files :=
            put_files (<[archive := File (flip_bit j (file_content w1 archive))]> (w_files w1))
              (map filename inputs) (map (file_content w) inputs);
          w_room := None |}).
Proof.
  intros Hk Hr Hv Hroom Hcreate Hnotin Hcount Hin Hsize Hnd Hj.
  destruct (Create_written w archive k r inputs w1 Hk Hr Hroom Hcreate Hnotin)
    as (Hfiles & Hframe & Hdata & Hroom').
  rewrite fs_file_size_content, (file_content_lookup _ _ _ Hdata) in Hsize.
  rewrite (file_content_lookup _ _ _ Hdata).
  destruct (created_entries_fit k r w inputs Hk Hr Hcount Hin Hsize)
    as (Hhs & Hstores & Hfits & Hlen).
  set (es := created_entries w (codec k r) inputs) in *.
  set (payload := created_payload k r w inputs) in *.
  assert (Hhead : forall rest,
            exists s', ReadArchiveHeader (istream_of (header_bytes es ++ rest))
                       = (true, s', map stored es)).
  { intros rest.
    destruct (ReadArchiveHeader_stored (istream_of (header_bytes es ++ rest)) es rest)
      as (s' & E & _); try assumption; try reflexivity.
    exists s'. exact E. }
  split.
  { unfold read_archive, open_ifstream. rewrite Hdata.
    destruct (Hhead payload) as (s' & E). unfold istream_of in E. rewrite E. reflexivity. }
  rewrite flip_bit_app_r by exact Hj.
  set (damaged := header_bytes es ++ flip_bit (j - 8 * length (header_bytes es)) payload).
  set (w2 := with_files w1 (<[archive := File damaged]> (w_files w1))).
  assert (Hdata2 : w_files w2 !! archive = Some (File damaged))
    by (unfold w2; cbn [w_files with_files]; apply lookup_insert_eq).
  rewrite <- (created_names w (codec k r) inputs). fold es.
  replace (map name es) with (map name (map stored es)) by (rewrite map_map; reflexivity).
  apply (Extract_readable w2 archive k r [] (map stored es) (map stored es)
           (map (file_content w) inputs)); try assumption.
  - unfold read_archive, open_ifstream. rewrite Hdata2.
    destruct (Hhead (flip_bit (j - 8 * length (header_bytes es)) payload)) as (s' & E).
    unfold istream_of in E. fold damaged in E. rewrite E. reflexivity.
  - left. split; reflexivity.
  - rewrite (file_content_lookup _ _ _ Hdata2).
    apply Forall2_fmap_l, Forall2_fmap_r.
    unfold es, created_entries, AssignOffsets.
    apply (layout_readable k r w damaged inputs Hk Hr Hv) with
      (pre := header_bytes es) (j := (j - 8 * length (header_bytes es))%nat).
    + intros p Hp. apply (Hin p Hp).
    + reflexivity.
    + exact Hhs.
    + rewrite Hhs. fold payload. rewrite length_app in Hsize. lia.
  - intros e He. apply list_elem_of_fmap in He as (e0 & -> & He0). cbn [stored name].
    assert (Hn : name e0 ∈ map filename inputs).
    { rewrite <- (created_names w (codec k r) inputs). apply list_elem_of_fmap.
      exists e0. split; [reflexivity|exact He0]. }
    apply list_elem_of_fmap in Hn as (p & -> & Hp). apply filename_no_parent.
  - intros e He. apply list_elem_of_fmap in He as (e0 & -> & He0). cbn [stored name].
    assert (Hn : name e0 ∈ map filename inputs).
    { rewrite <- (created_names w (codec k r) inputs). apply list_elem_of_fmap.
      exists e0. split; [reflexivity|exact He0]. }
    apply list_elem_of_fmap in Hn as (p & -> & Hp).
    unfold w2. cbn [w_files with_files].
    destruct (decide (filename p = archive)) as [->|Hne].
    + rewrite lookup_insert_eq. discriminate.
    + rewrite lookup_insert_ne by congruence. apply Hnd, Hp.
Qed.

Lemma world_insert_same w p content :
  w_files w !! p = Some (File content) ->
  with_files w (<[p := File content]> (w_files w)) = w.
Proof.
  intros H. destruct w as [fs rm]. unfold with_files. cbn [w_files w_room] in *.
  rewrite insert_id by exact H. reflexivity.
Qed.

(** * Create, then List and Extract *)

Lemma ex_extract_example_archive :
  exists w',
    Extract example_archive "a.haf" (codec 8 4) [] = (true, w') /\
    w_files w' !! "present.bin"%string = Some (File [x10; x20; x30]).
Proof.
  destruct (Extract_restores example_archive "a.haf" 8 4 [] example_entries example_entries
              [[x10; x20; x30]])
    as (w' & E & _ & _ & Hfiles).
  - lia.
  - lia.
  - simpl. lia.
  - reflexivity.
  - vm_compute. reflexivity.
  - left. split; reflexivity.
  - constructor; [|constructor]. unfold stores.
    split; [reflexivity|]. split; [simpl; lia|]. split; [vm_compute; reflexivity|].
    split; [simpl; lia|]. exists []. vm_compute. reflexivity.
  - intros e He. apply elem_of_cons in He as [->|He]; [|apply elem_of_nil in He; contradiction].
    split; [vm_compute; reflexivity|]. split; [discriminate|].
    split; [vm_compute; reflexivity|]. split; [simpl; lia|]. split; [discriminate|].
    intros H. vm_compute in H. discriminate H.
  - exists w'. split; [exact E|].
    assert (Hnd : NoDup (map name example_entries)).
    { apply NoDup_cons. split; [apply not_elem_of_nil|apply NoDup_nil_2]. }
    specialize (Hfiles Hnd). apply Forall2_cons_1 in Hfiles as [H _]. exact H.
Defined.

(** The header of the archive that [Create] has made. *)
Lemma Create_read w archive k r inputs w1 :
  1 <= k <= 16 -> 1 <= r <= 8 ->
  w_room w = None ->
  Create w archive (codec k r) inputs = (true, w1) ->
  archive ∉ inputs ->
  Z.of_nat (length inputs) < 2 ^ 32 ->
  (forall p, p ∈ inputs ->
     Z.of_nat (String.length (filename p)) < 2 ^ 16 /\ fs_file_size w p < 2 ^ 56) ->
  fs_file_size w1 archive < 2 ^ 63 ->
  read_archive w1 archive = Some (map stored (created_entries w (codec k r) inputs)) /\
  CalculateHeaderSize (map stored (created_entries w (codec k r) inputs))
    = Z.of_nat (length (header_bytes (created_entries w (codec k r) inputs))) /\
  (length (header_bytes (created_entries w (codec k r) inputs))
     <= length (file_content w1 archive))%nat.
Proof.
  intros Hk Hr Hroom Hcreate Hnotin Hcount Hin Hsize.
  destruct (Create_written w archive k r inputs w1 Hk Hr Hroom Hcreate Hnotin)
    as (Hfiles & Hframe & Hdata & Hroom').
  rewrite fs_file_size_content, (file_content_lookup _ _ _ Hdata) in Hsize.
  rewrite (file_content_lookup _ _ _ Hdata).
  destruct (created_entries_fit k r w inputs Hk Hr Hcount Hin Hsize)
    as (Hhs & Hstores & Hfits & Hlen).
  set (es := created_entries w (codec k r) inputs) in *.
  split; [|split].
  - unfold read_archive, open_ifstream. rewrite Hdata.
    destruct (ReadArchiveHeader_stored
                {| i_data := header_bytes es ++ created_payload k r w inputs; i_pos := 0;
                   i_eof := false; i_fail := false |} es (created_payload k r w inputs))
      as (s' & E & _); try assumption; try reflexivity.
    rewrite E. reflexivity.
  - rewrite <- header_bytes_stored. apply CalculateHeaderSize_length.
    + apply Forall_forall. intros e He. apply list_elem_of_fmap in He as (e0 & -> & He0).
      apply (proj1 (Forall_forall _ _) Hfits e0 He0).
    + rewrite length_map. exact Hlen.
  - rewrite length_app. lia.
Qed.



(** [Extract] of everything gives back what [Create] has archived.  On a
    device that takes every byte and for the parameters of a proper Hamming
    code: when [Create] has succeeded, and no last path component of an
    input is empty, the archive itself, or a directory, [Extract] with no
    names succeeds and writes, input by input, the content the input file
    had under the last component of its path, into the current directory.
    For inputs with distinct last components, every one of these files ends
    up with the content of its input; the archive file stays as it is. *)
Theorem Create_Extract_round_trip w archive k r inputs w1 :
  1 <= k <= 16 -> 1 <= r <= 8 -> k + r + 1 <= 2 ^ r ->
  w_room w = None ->
  Create w archive (codec k r) inputs = (true, w1) ->
  archive ∉ inputs ->
  Z.of_nat (length inputs) < 2 ^ 32 ->
  (forall p, p ∈ inputs ->
     Z.of_nat (String.length (filename p)) < 2 ^ 16 /\ fs_file_size w p < 2 ^ 56) ->
  fs_file_size w1 archive < 2 ^ 63 ->
  (forall p, p ∈ inputs ->
     filename p <> ""%string /\ filename p <> archive /\
     w_files w1 !! filename p <> Some Dir) ->
  exists w2,
    Extract w1 archive (codec k r) [] = (true, w2) /\
    w_files w2
      = put_files (w_files w1) (map filename inputs) (map (file_content w) inputs) /\
    w_files w2 !! archive = w_files w1 !! archive /\
    (NoDup (map filename inputs) ->
     forall p, p ∈ inputs -> w_files w2 !! filename p = Some (File (file_content w p))).
Proof.
  intros Hk Hr Hv Hroom Hcreate Hnotin Hcount Hin Hsize Hnames.
  destruct (Create_written w archive k r inputs w1 Hk Hr Hroom Hcreate Hnotin)
    as (_ & _ & Hdata & _).
  set (header := header_bytes (created_entries w (codec k r) inputs)) in *.
  destruct (Create_flip_Extract w archive k r inputs w1
              (8 * length header + 8 * length (file_content w1 archive))
              Hk Hr Hv Hroom Hcreate Hnotin Hcount Hin Hsize) as (_ & E).
  { intros p Hp. apply (Hnames p Hp). }
  { fold header. lia. }
  rewrite flip_bit_beyond in E by lia.
  rewrite (file_content_lookup _ _ _ Hdata) in E.
  rewrite world_insert_same in E by exact Hdata.
  rewrite insert_id in E by exact Hdata.
  eexists. split; [exact E|]. cbn [w_files]. split; [reflexivity|]. split.
  - apply put_files_other. intros Hq. apply list_elem_of_fmap in Hq as (p & -> & Hp).
    destruct (Hnames p Hp) as (_ & Hne & _). congruence.
  - intros Hnd p Hp. apply (put_files_pairs filename (file_content w)); assumption.
Qed.

Lemma ex_round_trip_example :
  exists w2,
    Extract (snd (Create example_inputs "a.haf" (codec 8 4) ["present.bin"%string]))
      "a.haf" (codec 8 4) [] = (true, w2) /\
    w_files w2 !! "present.bin"%string = Some (File [x10; x20; x30]).
Proof.
  destruct (Create_Extract_round_trip example_inputs "a.haf" 8 4 ["present.bin"%string]
              (snd (Create example_inputs "a.haf" (codec 8 4) ["present.bin"%string])))
    as (w2 & E & _ & _ & Hfiles).
  - lia.
  - lia.
  - simpl. lia.
  - reflexivity.
  - vm_compute. reflexivity.
  - intros H. apply elem_of_cons in H as [H|H]; [discriminate H|].
    apply elem_of_nil in H. exact H.
  - simpl. lia.
  - intros p H. apply elem_of_cons in H as [->|H]; [vm_compute; split; reflexivity|].
    apply elem_of_nil in H. contradiction.
  - vm_compute. reflexivity.
  - intros p H. apply elem_of_cons in H as [->|H]; [|apply elem_of_nil in H; contradiction].
    split; [discriminate|]. split; [discriminate|].
    intros Hd. vm_compute in Hd. discriminate Hd.
  - exists w2. split; [exact E|].
    apply (Hfiles ltac:(apply NoDup_cons; split; [apply not_elem_of_nil|apply NoDup_nil_2])
             "present.bin"%string).
    apply list_elem_of_here.
Defined.



(** * Delete and Append: the archive is written anew *)

(** ** What a header that was read holds *)







(** ** Copying the payload of an entry *)









(** ** New offsets for old entries *)

Lemma assign_offsets_app a :
  forall cur b,
  assign_offsets_from cur (a ++ b)
    = assign_offsets_from cur a
        ++ assign_offsets_from (fold_left (fun c e => u64 (c + encoded_size e)) a cur) b.
Proof.
  induction a as [|e a IH]; intros cur b; [reflexivity|].
  cbn [app]. rewrite !assign_offsets_cons, IH. reflexivity.
Qed.



(** ** The file system around the temporary file *)


Lemma fs_remove_room w p : w_room (fs_remove w p) = w_room w.
Proof.
  unfold fs_remove. destruct (w_files w !! p) as [[content|]|]; try reflexivity.
  destruct (dir_is_empty (w_files w) p); reflexivity.
Qed.

Lemma fs_remove_lookup_ne w p q :
  q <> p -> w_files (fs_remove w p) !! q = w_files w !! q.
Proof.
  intros Hne. unfold fs_remove. destruct (w_files w !! p) as [[content|]|]; try reflexivity.
  - cbn [w_files with_files]. apply lookup_delete_ne. congruence.
  - destruct (dir_is_empty (w_files w) p); [|reflexivity].
    cbn [w_files with_files]. apply lookup_delete_ne. congruence.
Qed.



(** ** Delete *)










(** ** Append *)






(** * Concatenate *)













(** * The archives that the program writes are packed *)





(** * Blocks that DecodeBlock reports as damaged *)





(** * When Create succeeds *)

Lemma Create_opens w archive c inputs :
  fst (Create w archive c inputs) = true -> create_opens w archive = true.
Proof.
  unfold Create, create_opens. fold (prepare_parent w archive).
  destruct (prepare_parent w archive) as [dir_ok w1].
  destruct dir_ok; taken; [|discriminate].
  destruct (open_ofstream w1 archive) as [[out0 w2]|]; [|discriminate].
  intros _. cbn [andb]. apply bool_decide_eq_true_2. eexists. reflexivity.
Qed.

Lemma Create_runs w archive k r inputs :
  1 <= k <= 16 -> 1 <= r <= 8 ->
  w_room w = None -> archive ∉ inputs ->
  create_opens w archive = true -> (forall p, p ∈ inputs -> is_file w p) ->
  fst (Create w archive (codec k r) inputs) = true.
Proof.
  intros Hk Hr Hroom Hnotin Hopens Hfiles.
  unfold create_opens in Hopens. unfold Create. fold (prepare_parent w archive).
  pose proof (prepare_parent_lookup w archive) as Hprep.
  pose proof (prepare_parent_room w archive) as Hroom1.
  destruct (prepare_parent w archive) as [dir_ok w1]. cbn [snd] in Hprep, Hroom1.
  destruct dir_ok; [|discriminate Hopens]. cbn [andb] in Hopens. taken.
  apply bool_decide_eq_true_1 in Hopens. destruct Hopens as [[out0 w2] Eopen].
  rewrite Eopen.
  pose proof (fun q => open_ofstream_lookup _ _ _ _ q Eopen) as Hframe.
  apply open_ofstream_Some in Eopen as [-> ->].
  rewrite Hroom1, Hroom.
  set (w2 := with_files w1 (<[archive := File []]> (w_files w1))) in *.
  assert (Hfiles2 : forall p, p ∈ inputs -> is_file w2 p).
  { intros p Hp. destruct (Hfiles p Hp) as [content Hc]. exists content.
    assert (Hne : p <> archive) by (intros ->; contradiction).
    rewrite (Hframe p Hne). destruct (Hprep p) as [E|[E _]]; [|congruence].
    rewrite E. exact Hc. }
  rewrite (CollectNewEntries_map w2 (codec k r) inputs [] Hfiles2). taken. cbn [app].
  rewrite WriteArchiveHeader_unlimited by reflexivity. taken.
  rewrite (encode_entries_unlimited k r w2 _ Hk Hr); try reflexivity.
  intros e He. apply Hfiles2.
  assert (Hsrc : source_path e ∈ map source_path
                   (AssignOffsets (map (new_entry w2 (codec k r)) inputs)
                      (CalculateHeaderSize (map (new_entry w2 (codec k r)) inputs))))
    by (apply list_elem_of_fmap; exists e; auto).
  unfold AssignOffsets in Hsrc.
  rewrite (assign_offsets_same source_path) in Hsrc by reflexivity.
  rewrite map_map in Hsrc. cbn [new_entry source_path] in Hsrc. rewrite map_id in Hsrc.
  exact Hsrc.
Qed.

(** On a device that takes every byte, [Create] with an archive path that
    is not among the inputs succeeds exactly when the archive file can be
    opened for writing, after the directories above it were made, and every
    input path is a regular file. *)
Theorem Create_succeeds_iff w archive k r inputs :
  1 <= k <= 16 -> 1 <= r <= 8 ->
  w_room w = None -> archive ∉ inputs ->
  (fst (Create w archive (codec k r) inputs) = true <->
   create_opens w archive = true /\ forall p, p ∈ inputs -> is_file w p).
Proof.
  intros Hk Hr Hroom Hnotin. split.
  - intros Ht. split; [apply (Create_opens _ _ _ _ Ht)|].
    destruct (Create w archive (codec k r) inputs) as [ok w'] eqn:E.
    cbn [fst] in Ht. subst ok.
    apply (Create_written w archive k r inputs w' Hk Hr Hroom E Hnotin).
  - intros [Hopens Hfiles]. apply Create_runs; assumption.
Qed.

Lemma ex_create_succeeds :
  fst (Create example_inputs "a.haf" (codec 8 4) ["present.bin"%string]) = true.
Proof.
  apply (Create_succeeds_iff example_inputs "a.haf" 8 4 ["present.bin"%string]).
  - lia.
  - lia.
  - reflexivity.
  - intros H. apply elem_of_cons in H as [H|H]; [discriminate H|].
    apply elem_of_nil in H. exact H.
  - split; [vm_compute; reflexivity|].
    intros p H. apply elem_of_cons in H as [->|H]; [|apply elem_of_nil in H; contradiction].
    eexists. vm_compute. reflexivity.
Defined.

(** * Writing to a device that is nearly full *)

(** ** The buffer of an output stream *)

Lemma stream_buffer_pos : (0 < stream_buffer)%nat.
Proof. unfold stream_buffer. lia. Qed.

Lemma put_failed b s : o_fail s = true -> put b s = s.
Proof. intros Hf. unfold put. rewrite Hf. reflexivity. Qed.

Lemma write_bytes_failed bs : forall s, o_fail s = true -> write_bytes bs s = s.
Proof.
  unfold write_bytes. induction bs as [|b bs IH]; intros s Hf; [reflexivity|].
  rewrite fold_left_cons, put_failed by exact Hf. apply IH, Hf.
Qed.

(** A byte that does not fill the buffer stays there: the stream is good,
    whatever room the device has. *)
Lemma put_buffered b s m :
  o_fail s = false -> o_room s = Some m ->
  (Datatypes.S (length (o_data s)) < stream_buffer)%nat ->
  put b s = {| o_data := o_data s ++ [b]; o_room := Some m; o_fail := false |}.
Proof.
  intros Hf Hr Hlen. unfold put. rewrite Hf, Hr. cbv zeta.
  rewrite Nat.mod_small by exact Hlen.
  destruct (Nat.eqb_spec (Datatypes.S (length (o_data s))) 0) as [E|_]; [discriminate E|].
  reflexivity.
Qed.

(** The byte that fills the buffer makes the stream bad when the device has
    less room than a buffer. *)
Lemma put_overflow b s m :
  o_fail s = false -> o_room s = Some m ->
  Datatypes.S (length (o_data s)) = stream_buffer -> (m < stream_buffer)%nat ->
  put b s = {| o_data := o_data s; o_room := Some m; o_fail := true |}.
Proof.
  intros Hf Hr Hlen Hm. unfold put. rewrite Hf, Hr. cbv zeta.
  rewrite Hlen, Nat.Div0.mod_same, Nat.eqb_refl.
  destruct (Nat.ltb_spec m stream_buffer) as [_|Hge]; [reflexivity|lia].
Qed.

Lemma write_bytes_overflow bs :
  forall s m,
  o_fail s = false -> o_room s = Some m -> (m < stream_buffer)%nat ->
  (length (o_data s) < stream_buffer)%nat ->
  (stream_buffer <= length (o_data s) + length bs)%nat ->
  write_bytes bs s
    = {| o_data := o_data s ++ take (stream_buffer - 1 - length (o_data s)) bs;
         o_room := Some m; o_fail := true |}.
Proof.
  unfold write_bytes. induction bs as [|b bs IH]; intros s m Hf Hr Hm Hlen Hall.
  - cbn [length] in Hall. lia.
  - rewrite fold_left_cons. cbn [length] in Hall.
    destruct (decide (Datatypes.S (length (o_data s)) = stream_buffer)) as [E|E].
    + rewrite (put_overflow b s m Hf Hr E Hm).
      fold (write_bytes bs {| o_data := o_data s; o_room := Some m; o_fail := true |}).
      rewrite write_bytes_failed by reflexivity.
      replace (stream_buffer - 1 - length (o_data s))%nat with 0%nat by lia.
      rewrite take_0, app_nil_r. reflexivity.
    + rewrite (put_buffered b s m Hf Hr) by lia.
      rewrite (IH _ m); cbn [o_data o_room o_fail]; try reflexivity; try assumption;
        try (rewrite length_app; cbn [length]; lia).
      f_equal. rewrite length_app. cbn [length].
      replace (stream_buffer - 1 - length (o_data s))%nat
        with (Datatypes.S (stream_buffer - 1 - (length (o_data s) + 1)))%nat by lia.
      rewrite <- app_assoc. reflexivity.
Qed.

(** ** The header as one sequence of bytes *)

Lemma write_bytes_app a b s : write_bytes (a ++ b) s = write_bytes b (write_bytes a s).
Proof. unfold write_bytes. apply fold_left_app. Qed.

Lemma write_entry_bytes out e : write_entry out e = write_bytes (entry_bytes e) out.
Proof. unfold write_entry, entry_bytes. rewrite !write_bytes_app. reflexivity. Qed.

Lemma write_entries_bytes es :
  forall out, fold_left write_entry es out = write_bytes (concat (map entry_bytes es)) out.
Proof.
  induction es as [|e es IH]; intros out; [reflexivity|].
  rewrite fold_left_cons. cbn [map concat]. rewrite write_bytes_app, IH, write_entry_bytes.
  reflexivity.
Qed.

Lemma WriteArchiveHeader_bytes out es :
  WriteArchiveHeader out es
    = (o_good (write_bytes (header_bytes es) out), write_bytes (header_bytes es) out).
Proof.
  unfold WriteArchiveHeader, header_bytes. cbv zeta.
  rewrite write_entries_bytes, !write_bytes_app. reflexivity.
Qed.

(** ** Append with a header that is longer than the buffer *)

(** On a device that has less room than a buffer of the stream, and with a
    new header that does not fit into the buffer, the write error shows
    while [Append] writes the header: it returns failure, and the temporary
    file stays, with the bytes of the header that the device had room for. *)
Lemma Append_long_header w archive c inputs old_entries new_entries m :
  read_archive w archive = Some old_entries ->
  CollectNewEntries w inputs c [] = (true, new_entries) ->
  w_room w = Some m -> (m < stream_buffer)%nat ->
  is_Some (open_ofstream (fs_remove w (String.append archive ".tmp"))
             (String.append archive ".tmp")) ->
  (stream_buffer
     <= length (header_bytes (AssignOffsets (old_entries ++ new_entries)
                                (CalculateHeaderSize (old_entries ++ new_entries)))))%nat ->
  fst (Append w archive c inputs) = false /\
  w_files (snd (Append w archive c inputs)) !! String.append archive ".tmp"
    = Some (File (take m (header_bytes
                            (AssignOffsets (old_entries ++ new_entries)
                               (CalculateHeaderSize (old_entries ++ new_entries)))))).
Proof.
  intros Hread Hnew Hroom Hm [[out w1] Htmp] Hlong.
  apply read_archive_Some in Hread as (ins & ins' & Hopen & Hread).
  set (header := header_bytes _) in *.
  destruct (open_ofstream_Some _ _ _ _ Htmp) as [Hout _].
  rewrite fs_remove_room, Hroom in Hout.
  assert (Hw : write_bytes header out
               = {| o_data := take (stream_buffer - 1) header; o_room := Some m;
                    o_fail := true |}).
  { subst out. rewrite (write_bytes_overflow header _ m); cbn [o_data o_room o_fail length];
      try reflexivity; try assumption; try (pose proof stream_buffer_pos; lia). }
  destruct (Append_header_failure w archive c inputs ins ins' old_entries new_entries out w1
              (write_bytes header out) Hopen Hread Hnew Htmp) as [Hf Hfile].
  { rewrite WriteArchiveHeader_bytes. fold header. rewrite Hw. reflexivity. }
  split; [exact Hf|]. rewrite Hfile, Hw. unfold on_device. cbn [o_room o_data].
  rewrite take_take. f_equal. f_equal. f_equal. lia.
Qed.

(** ** An archive with a long header on a nearly full device *)

(** [Create] with an archive path that has no directory part leaves every
    other path as it was, whatever its result. *)
Lemma Create_flat_frame w archive c inputs q :
  has_parent_path archive = false -> q <> archive ->
  w_files (snd (Create w archive c inputs)) !! q = w_files w !! q.
Proof.
  intros Hnp Hne. unfold Create. rewrite Hnp. taken.
  destruct (open_ofstream w archive) as [[out w2]|] eqn:Eopen; [|reflexivity].
  pose proof (open_ofstream_lookup _ _ _ _ q Eopen Hne) as Hq.
  assert (Hclose : forall o, w_files (close_ofstream w2 archive o) !! q = w_files w !! q).
  { intros o. unfold close_ofstream. cbn [w_files]. rewrite lookup_insert_ne by congruence.
    exact Hq. }
  assert (Hdiscard : forall o, w_files (discard_output w2 archive o) !! q = w_files w !! q).
  { intros o. unfold discard_output. rewrite fs_remove_lookup_ne by exact Hne. apply Hclose. }
  destruct (CollectNewEntries w2 inputs c []) as [ok1 entries].
  destruct ok1; taken; [|apply Hdiscard].
  destruct (WriteArchiveHeader out _) as [ok2 out2].
  destruct ok2; taken; [|apply Hdiscard].
  destruct (encode_entries w2 _ c out2) as [ok3 out3].
  destruct ok3; taken; [apply Hclose|apply Hdiscard].
Qed.

Lemma example_many_files p :
  p ∈ example_many_names ->
  is_file example_many_inputs p /\
  Z.of_nat (String.length (filename p)) < 2 ^ 16 /\ fs_file_size example_many_inputs p < 2 ^ 56.
Proof.
  intros Hp. apply list_elem_of_In in Hp.
  assert (H : forallb (fun p => negb (negb (fs_exists example_many_inputs p)
                                      || fs_is_directory example_many_inputs p)
                                && (Z.of_nat (String.length (filename p)) <? 2 ^ 16)
                                && (fs_file_size example_many_inputs p <? 2 ^ 56))
                example_many_names = true) by (vm_compute; reflexivity).
  pose proof (proj1 (forallb_forall _ _) H p Hp) as Hb.
  apply andb_true_iff in Hb as [Hb H3]. apply andb_true_iff in Hb as [H1 H2].
  split; [|split].
  - apply is_file_test. apply negb_true_iff in H1. exact H1.
  - apply Z.ltb_lt. exact H2.
  - apply Z.ltb_lt. exact H3.
Qed.

Lemma example_many_not_archive : "a.haf"%string ∉ example_many_names.
Proof. apply (bool_decide_eq_true_1 _). vm_compute. reflexivity. Qed.

(** The archive of the example was made by a successful [Create]. *)
Lemma example_many_created :
  exists w1,
    Create example_many_inputs "a.haf" (codec 8 4) example_many_names = (true, w1) /\
    example_full_device = {| w_files := w_files w1; w_room := Some 3%nat |}.
Proof.
  assert (Hok : fst (Create example_many_inputs "a.haf" (codec 8 4) example_many_names) = true).
  { apply Create_runs.
    - lia.
    - lia.
    - reflexivity.
    - exact example_many_not_archive.
    - vm_compute. reflexivity.
    - intros p Hp. apply (example_many_files p Hp). }
  unfold example_full_device.
  destruct (Create example_many_inputs "a.haf" (codec 8 4) example_many_names) as [ok w1].
  cbn [fst] in Hok. subst ok. exists w1. split; reflexivity.
Qed.

(** C6 fails on the code: when writing the new header fails, [Append]
    returns failure and leaves the temporary file behind.  Here the archive
    has 300 entries, so that its header does not fit into the buffer of the
    stream, and the device has room for three bytes: the write error shows
    while the header is written, and the temporary file stays with the
    three bytes of the magic that the device still took. *)
Theorem C6_append_header_failure_keeps_temp :
  (exists entries,
     read_archive example_full_device "a.haf" = Some entries /\
     length entries = 300%nat /\
     Z.of_nat stream_buffer < CalculateHeaderSize entries) /\
  fst (Append example_full_device "a.haf" (codec 8 4) ["present.bin"%string]) = false /\
  w_files (snd (Append example_full_device "a.haf" (codec 8 4) ["present.bin"%string]))
    !! "a.haf.tmp"%string = Some (File magic).
Proof.
  destruct example_many_created as (w1 & Hcreate & Hw). rewrite Hw.
  set (w := {| w_files := w_files w1; w_room := Some 3%nat |}).
  set (es := created_entries example_many_inputs (codec 8 4) example_many_names).
  destruct (Create_written example_many_inputs "a.haf" 8 4 example_many_names w1
              ltac:(lia) ltac:(lia) eq_refl Hcreate example_many_not_archive)
    as (_ & _ & Hdata & _).
  (* the header of the archive *)
  assert (Hr0 : read_archive w "a.haf" = read_archive w1 "a.haf") by reflexivity.
  assert (Hread : read_archive w "a.haf" = Some (map stored es)).
  { rewrite Hr0.
    apply (Create_read example_many_inputs "a.haf" 8 4 example_many_names w1).
    - lia.
    - lia.
    - reflexivity.
    - exact Hcreate.
    - exact example_many_not_archive.
    - vm_compute. reflexivity.
    - intros p Hp. apply (example_many_files p Hp).
    - rewrite fs_file_size_content, (file_content_lookup _ _ _ Hdata).
      vm_compute. reflexivity. }
  (* the other paths are those of the directory *)
  assert (Hframe : forall q, q <> "a.haf"%string ->
                             w_files w !! q = w_files example_many_inputs !! q).
  { intros q Hq.
    pose proof (Create_flat_frame example_many_inputs "a.haf" (codec 8 4) example_many_names q
                  eq_refl Hq) as H.
    rewrite Hcreate in H. exact H. }
  assert (Hpresent : w_files w !! "present.bin"%string = Some (File [x10; x20; x30])).
  { rewrite Hframe by discriminate. vm_compute. reflexivity. }
  assert (Htmp : w_files w !! "a.haf.tmp"%string = None).
  { rewrite Hframe by discriminate. vm_compute. reflexivity. }
  assert (Hnew : new_entry w (codec 8 4) "present.bin"
                 = new_entry example_many_inputs (codec 8 4) "present.bin").
  { unfold new_entry, fs_file_size. rewrite Hpresent. vm_compute. reflexivity. }
  split.
  - exists (map stored es). split; [exact Hread|].
    split; vm_compute; reflexivity.
  - assert (Hcollect : CollectNewEntries w ["present.bin"%string] (codec 8 4) []
                       = (true, [new_entry w (codec 8 4) "present.bin"])).
    { apply (CollectNewEntries_map w (codec 8 4) ["present.bin"%string] []).
      intros p Hp. apply elem_of_cons in Hp as [->|Hp]; [|apply elem_of_nil in Hp; contradiction].
      eexists. exact Hpresent. }
    assert (Hopen : is_Some (open_ofstream (fs_remove w "a.haf.tmp") "a.haf.tmp")).
    { unfold fs_remove. rewrite Htmp. unfold open_ofstream. rewrite Htmp.
      eexists. reflexivity. }
    assert (Hlong : (stream_buffer
                     <= length (header_bytes
                                  (AssignOffsets
                                     (map stored es ++ [new_entry w (codec 8 4) "present.bin"])
                                     (CalculateHeaderSize
                                        (map stored es
                                           ++ [new_entry w (codec 8 4) "present.bin"])))))%nat).
    { rewrite Hnew. apply Nat.leb_le. vm_compute. reflexivity. }
    destruct (Append_long_header w "a.haf" (codec 8 4) ["present.bin"%string] (map stored es)
                [new_entry w (codec 8 4) "present.bin"] 3 Hread Hcollect eq_refl
                ltac:(unfold stream_buffer; lia) Hopen Hlong) as [Hf Hfile].
    split; [exact Hf|].
    change (String.append "a.haf" ".tmp") with "a.haf.tmp"%string in Hfile.
    rewrite Hfile. unfold header_bytes.
    rewrite (take_app_length' magic _ 3) by reflexivity. reflexivity.
Qed.

(** * The command line *)

Lemma CountSelectedModes_one raw :
  CountSelectedModes raw = 1 ->
  DetectCommand raw <> kNone /\
  (is_create_mode raw = true <-> DetectCommand raw = kCreate) /\
  (is_list_mode raw = true <-> DetectCommand raw = kList) /\
  (is_extract_mode raw = true <-> DetectCommand raw = kExtract) /\
  (is_append_mode raw = true <-> DetectCommand raw = kAppend) /\
  (is_delete_mode raw = true <-> DetectCommand raw = kDelete) /\
  (is_concatenate_mode raw = true <-> DetectCommand raw = kConcatenate).
Proof.
  unfold CountSelectedModes, DetectCommand.
  destruct (is_create_mode raw), (is_list_mode raw), (is_extract_mode raw),
    (is_append_mode raw), (is_delete_mode raw), (is_concatenate_mode raw);
    cbn; intros H; try lia;
    repeat split; intros; congruence.
Qed.

Lemma ValidateOptionsByMode_spec parsed options :
  fst (ValidateOptionsByMode parsed options)
    = (files_required (command parsed) <=? length (files parsed))%nat /\
  (fst (ValidateOptionsByMode parsed options) = true ->
   snd (ValidateOptionsByMode parsed options) = options) /\
  (fst (ValidateOptionsByMode parsed options) = false ->
   snd (ValidateOptionsByMode parsed options) = set_show_help options true).
Proof.
  unfold ValidateOptionsByMode.
  destruct (command parsed); cbn [files_required];
    try (destruct (files parsed); cbn; repeat split; congruence).
  destruct (files parsed) as [|a [|b l]]; cbn; repeat split; congruence.
Qed.

Lemma ParseArguments_spec pr raw options :
  fst (ParseArguments pr raw options)
    = pr && negb (is_help_requested raw) && (CountSelectedModes raw =? 1) /\
  (fst (ParseArguments pr raw options) = true -> snd (ParseArguments pr raw options) = options) /\
  (fst (ParseArguments pr raw options) = false ->
   snd (ParseArguments pr raw options) = set_show_help options true).
Proof.
  unfold ParseArguments, ValidateModeSelection.
  destruct pr; cbn [negb andb]; [|repeat split; cbn; congruence].
  destruct (is_help_requested raw); cbn [negb andb]; [repeat split; cbn; congruence|].
  assert (Hc : 0 <= CountSelectedModes raw).
  { unfold CountSelectedModes.
    destruct (is_create_mode raw), (is_list_mode raw), (is_extract_mode raw),
      (is_append_mode raw), (is_delete_mode raw), (is_concatenate_mode raw); cbn; lia. }
  destruct (Z.eqb_spec (CountSelectedModes raw) 0) as [E0|E0].
  - rewrite E0. cbn. repeat split; congruence.
  - destruct (Z.gtb_spec (CountSelectedModes raw) 1) as [E1|E1].
    + destruct (Z.eqb_spec (CountSelectedModes raw) 1) as [E|E]; [lia|].
      cbn. repeat split; congruence.
    + destruct (Z.eqb_spec (CountSelectedModes raw) 1) as [E|E]; [|lia].
      cbn. repeat split; congruence.
Qed.

Lemma ParseCommandLine_spec pr raw collected :
  (fst (ParseCommandLine pr raw collected) = true <->
   pr = true /\ is_help_requested raw = false /\ CountSelectedModes raw = 1 /\
   (files_required (DetectCommand raw) <= length collected)%nat) /\
  (fst (ParseCommandLine pr raw collected) = true ->
   snd (ParseCommandLine pr raw collected)
     = {| command := DetectCommand raw; archive_path := raw_archive_path raw;
          files := collected;
          hamming := {| data_bits := hamming_data_bits raw;
                        parity_bits := hamming_parity_bits raw |};
          show_help := false |}) /\
  (fst (ParseCommandLine pr raw collected) = false ->
   show_help (snd (ParseCommandLine pr raw collected)) = true).
Proof.
  unfold ParseCommandLine.
  destruct (ParseArguments_spec pr raw default_options) as (Hfst & Hok & Hbad).
  destruct (ParseArguments pr raw default_options) as [ok options].
  cbn [fst snd] in Hfst, Hok, Hbad.
  destruct ok; cbn [negb].
  - specialize (Hok eq_refl). subst options.
    symmetry in Hfst. apply andb_true_iff in Hfst as [Hfst Hone].
    apply andb_true_iff in Hfst as [Hpr Hhelp].
    apply negb_true_iff in Hhelp. apply Z.eqb_eq in Hone.
    destruct (ValidateOptionsByMode_spec
                (FillParsedOptionsFromRaw raw collected default_options) default_options)
      as (Hv & Hvok & Hvbad).
    destruct (ValidateOptionsByMode _ default_options) as [ok2 options2].
    cbn [fst snd command files FillParsedOptionsFromRaw] in Hv, Hvok, Hvbad.
    destruct ok2; cbn [negb fst snd].
    + symmetry in Hv. apply Nat.leb_le in Hv. repeat split; auto.
    + symmetry in Hv. apply Nat.leb_gt in Hv. split; [|split].
      * split; [discriminate|]. intros (_ & _ & _ & H). lia.
      * discriminate.
      * intros _. rewrite (Hvbad eq_refl). reflexivity.
  - cbn [fst snd]. split; [|split].
    + split; [discriminate|]. intros (Hpr & Hhelp & Hone & _).
      rewrite Hpr, Hhelp, Hone in Hfst. discriminate Hfst.
    + discriminate.
    + intros _. rewrite (Hbad eq_refl). reflexivity.
Qed.

(** [ParseCommandLine] accepts a command line exactly when the argument
    parser accepted it, help was not asked for, exactly one of the six mode
    flags is set, and the mode has its file names: at least one for create,
    append and delete, at least two for concatenate.  The options it then
    returns are the detected mode, the archive path, the file names and the
    Hamming parameters of the command line, and the mode is the one whose
    flag is set. *)
Theorem ParseCommandLine_accepts pr raw collected :
  (fst (ParseCommandLine pr raw collected) = true <->
   pr = true /\ is_help_requested raw = false /\ CountSelectedModes raw = 1 /\
   (files_required (DetectCommand raw) <= length collected)%nat) /\
  (fst (ParseCommandLine pr raw collected) = true ->
   snd (ParseCommandLine pr raw collected)
     = {| command := DetectCommand raw; archive_path := raw_archive_path raw;
          files := collected;
          hamming := {| data_bits := hamming_data_bits raw;
                        parity_bits := hamming_parity_bits raw |};
          show_help := false |} /\
   DetectCommand raw <> kNone /\
   (is_create_mode raw = true <-> DetectCommand raw = kCreate) /\
   (is_list_mode raw = true <-> DetectCommand raw = kList) /\
   (is_extract_mode raw = true <-> DetectCommand raw = kExtract) /\
   (is_append_mode raw = true <-> DetectCommand raw = kAppend) /\
   (is_delete_mode raw = true <-> DetectCommand raw = kDelete) /\
   (is_concatenate_mode raw = true <-> DetectCommand raw = kConcatenate)).
Proof.
  destruct (ParseCommandLine_spec pr raw collected) as (Hiff & Hok & _).
  split; [exact Hiff|]. intros Ht. split; [exact (Hok Ht)|].
  apply CountSelectedModes_one. apply (proj1 Hiff Ht).
Qed.

(** A command line that [ParseCommandLine] rejects, whatever the reason
    (the parser's error, a request for help, no mode or several, too few
    file names), makes [main] return the exit status 0 and touches no file. *)
Theorem rejected_command_line_exits_0 pr raw collected w :
  fst (ParseCommandLine pr raw collected) = false ->
  main pr raw collected w = (0, w).
Proof.
  intros Hf. destruct (ParseCommandLine_spec pr raw collected) as (_ & _ & Hbad).
  specialize (Hbad Hf). unfold main.
  destruct (ParseCommandLine pr raw collected) as [ok options].
  cbn [fst snd] in Hf, Hbad. subst ok. cbn [negb]. rewrite Hbad. reflexivity.
Qed.

Lemma ex_two_modes_exit_0 :
  fst (ParseCommandLine true example_two_modes ["x"%string]) = false /\
  main true example_two_modes ["x"%string] example_inputs = (0, example_inputs).
Proof.
  split; [reflexivity|]. apply rejected_command_line_exits_0. reflexivity.
Defined.

(** For a command line that [ParseCommandLine] accepts, [main] runs the
    operation of the one mode whose flag is set, with the archive path, the
    file names and the Hamming parameters of the command line, and returns
    0 when the operation succeeds and 1 when it fails; the check of
    [RunConcatenate] for fewer than two archives never fires. *)
Theorem accepted_command_line_runs pr raw collected w :
  fst (ParseCommandLine pr raw collected) = true ->
  main pr raw collected w
    = (exit_status (fst (run_command raw collected w)), snd (run_command raw collected w)).
Proof.
  intros Ht. destruct (ParseCommandLine_spec pr raw collected) as (Hiff & Hok & _).
  specialize (Hok Ht). destruct (proj1 Hiff Ht) as (_ & _ & Hone & Hfiles).
  unfold main. destruct (ParseCommandLine pr raw collected) as [ok options].
  cbn [fst snd] in Ht, Hok. subst ok options. cbn [negb].
  unfold RunFromOptions, run_command. cbn [command].
  revert Hone Hfiles. unfold CountSelectedModes, DetectCommand.
  destruct (is_create_mode raw), (is_list_mode raw), (is_extract_mode raw),
    (is_append_mode raw), (is_delete_mode raw), (is_concatenate_mode raw);
    cbn [files_required]; intros Hone Hfiles; try (cbn in Hone; lia);
    unfold RunCreate, RunList, RunExtract, RunAppend, RunDelete, RunConcatenate,
      archiver_codec;
    cbn [archive_path files hamming data_bits parity_bits].
  - destruct (Create _ _ _ _); reflexivity.
  - destruct (List _ _); reflexivity.
  - destruct (Extract _ _ _ _); reflexivity.
  - destruct (Append _ _ _ _); reflexivity.
  - destruct (Delete _ _ _ _); reflexivity.
  - destruct (length collected <? 2)%nat eqn:E; [apply Nat.ltb_lt in E; lia|].
    destruct (Concatenate _ _ _ _); reflexivity.
Qed.

Lemma ex_list_missing_archive :
  fst (ParseCommandLine true example_list_mode []) = true /\
  main true example_list_mode [] example_inputs = (1, example_inputs).
Proof.
  split; [reflexivity|].
  rewrite (accepted_command_line_runs true example_list_mode [] example_inputs eq_refl).
  reflexivity.
Defined.
